(** * Batched B-spline kernels of [models/layers/spline.py]

    A shallow embedding of the four routines of the module ([B_batch],
    [coef2curve], [curve2coef], [extend_grid]) and the properties that
    the specification states about them.

    Modelling conventions.
    - A tensor element is a float.  It is modelled by [fl]: an exact
      rational ([Finite q], with [q : Qc] so that equality is Leibniz
      equality) or one of the IEEE special values [PosInf], [NegInf],
      [NaN].  Rounding, overflow and signed zeros are not modelled; the
      arithmetic of the special values is.
    - A tensor of rank n is a list nested n times.  A tensor whose
      leading axis is empty is [[]], so the extents of its trailing axes
      are not represented; [x.shape[j]] is read off the first element.
    - A torch operation that raises (broadcast mismatch, index out of
      range, [expand] or [cat] mismatch) returns [None].
    - Boolean tensors are kept as [bool] until the function returns and
      are then identified with their numeric cast (1 and 0), which is how
      the arithmetic of the next level promotes them.  The dtype of the
      tensor that [B_batch] returns (bool at order 0, float above) is
      kept beside the values, as [B_batch_dtype]: [torch.einsum] and
      [torch.linalg.lstsq] raise on a bool operand.
    - The inputs [x], [grid], [coef] and [y_eval] are float tensors. *)

From Stdlib Require Import String QArith Qcanon ZArith List Bool Lia Arith.
Import ListNotations.

Close Scope Qc_scope.
Close Scope Q_scope.
Open Scope nat_scope.

Set Implicit Arguments.

(* ================================================================== *)
(** ** Floats with the IEEE special values *)

Inductive fl : Type :=
| Finite (q : Qc)
| PosInf
| NegInf
| NaN.

Definition is_finite (a : fl) : bool :=
  match a with Finite _ => true | _ => false end.

(** The rational a finite float stands for (0 for the special values). *)
Definition fq (a : fl) : Qc :=
  match a with Finite q => q | _ => 0%Qc end.

Definition of_bool (b : bool) : fl := Finite (if b then 1%Qc else 0%Qc).

(** Sign of a float as a [comparison] with zero; [None] for NaN. *)
Definition sgn (a : fl) : option comparison :=
  match a with
  | Finite q => Some (q ?= 0)%Qc
  | PosInf => Some Gt
  | NegInf => Some Lt
  | NaN => None
  end.

Definition sgn_mul (c1 c2 : comparison) : comparison :=
  match c1, c2 with
  | Eq, _ | _, Eq => Eq
  | Gt, Gt | Lt, Lt => Gt
  | Gt, Lt | Lt, Gt => Lt
  end.

(** The infinity of a given sign; a zero sign gives NaN (0 * inf, 0 / 0). *)
Definition inf_of (c : comparison) : fl :=
  match c with Gt => PosInf | Lt => NegInf | Eq => NaN end.

Definition fneg (a : fl) : fl :=
  match a with
  | Finite q => Finite (- q)%Qc
  | PosInf => NegInf
  | NegInf => PosInf
  | NaN => NaN
  end.

Definition fadd (a b : fl) : fl :=
  match a, b with
  | NaN, _ | _, NaN => NaN
  | Finite p, Finite q => Finite (p + q)%Qc
  | PosInf, NegInf | NegInf, PosInf => NaN
  | PosInf, _ | _, PosInf => PosInf
  | NegInf, _ | _, NegInf => NegInf
  end.

Definition fsub (a b : fl) : fl := fadd a (fneg b).

Definition fmul (a b : fl) : fl :=
  match a, b with
  | Finite p, Finite q => Finite (p * q)%Qc
  | _, _ =>
      match sgn a, sgn b with
      | Some c1, Some c2 => inf_of (sgn_mul c1 c2)
      | _, _ => NaN
      end
  end.

Definition fdiv (a b : fl) : fl :=
  match a, b with
  | NaN, _ | _, NaN => NaN
  | Finite p, Finite q =>
      if Qc_eq_dec q 0%Qc then inf_of (p ?= 0)%Qc else Finite (p / q)%Qc
  | Finite _, _ => Finite 0%Qc
  | _, Finite q =>
      match sgn a with
      | Some c => inf_of (sgn_mul c (if Qc_eq_dec q 0%Qc then Gt else (q ?= 0)%Qc))
      | None => NaN
      end
  | _, _ => NaN
  end.

(** Ordered comparison; [None] when an operand is NaN. *)
Definition fcompare (a b : fl) : option comparison :=
  match a, b with
  | NaN, _ | _, NaN => None
  | Finite p, Finite q => Some (p ?= q)%Qc
  | PosInf, PosInf | NegInf, NegInf => Some Eq
  | PosInf, _ | _, NegInf => Some Gt
  | NegInf, _ | _, PosInf => Some Lt
  end.

Definition fge (a b : fl) : bool :=
  match fcompare a b with Some Gt | Some Eq => true | _ => false end.

Definition flt (a b : fl) : bool :=
  match fcompare a b with Some Lt => true | _ => false end.

(** [torch.nan_to_num] with its defaults: NaN becomes 0, the infinities
    become the largest and the smallest finite value of the dtype
    ([fmax] and [- fmax]). *)
Definition nan_to_num (fmax : Qc) (a : fl) : fl :=
  match a with
  | Finite q => Finite q
  | PosInf => Finite fmax
  | NegInf => Finite (- fmax)%Qc
  | NaN => Finite 0%Qc
  end.

(** Largest finite value of float32, torch's default dtype. *)
Definition float32_max : Qc :=
  Q2Qc (inject_Z 340282346638528859811704183484516925440).

Definition fsum (l : list fl) : fl := fold_right fadd (Finite 0%Qc) l.

Definition of_Z (z : Z) : fl := Finite (Q2Qc (inject_Z z)).

(** Boolean equality of floats. *)
Definition fl_eqb (a b : fl) : bool :=
  match a, b with
  | Finite p, Finite q => if Qc_eq_dec p q then true else false
  | PosInf, PosInf | NegInf, NegInf | NaN, NaN => true
  | _, _ => false
  end.

(* ================================================================== *)
(** ** Tensors as nested lists *)

Abbreviation tensor1 := (list fl) (only parsing).
Abbreviation tensor2 := (list (list fl)) (only parsing).
Abbreviation tensor3 := (list (list (list fl))) (only parsing).
Abbreviation tensor4 := (list (list (list (list fl)))) (only parsing).

Definition get2 (t : tensor2) (i j : nat) : fl := nth j (nth i t []) NaN.
Definition get3 (t : tensor3) (i j l : nat) : fl := nth l (nth j (nth i t []) []) NaN.

(** [t] has shape (r, c). *)
Definition has_shape2 {A} (t : list (list A)) (r c : nat) : Prop :=
  length t = r /\ Forall (fun row => length row = c) t.

(** [t] has shape (a, b, c). *)
Definition has_shape3 {A} (t : list (list (list A))) (a b c : nat) : Prop :=
  length t = a /\ Forall (fun m => has_shape2 m b c) t.

(** [t.shape] as torch reports it, read off the first elements. *)
Definition shape2 {A} (t : list (list A)) : nat * nat :=
  (length t, length (hd [] t)).

Definition shape3 {A} (t : list (list (list A))) : nat * nat * nat :=
  (length t, length (hd [] t), length (hd [] (hd [] t))).

(** Error monad of the embedded operations. *)
Definition bind {A B} (o : option A) (f : A -> option B) : option B :=
  match o with Some a => f a | None => None end.

Notation "x <- c1 ;; c2" := (bind c1 (fun x => c2))
  (at level 61, c1 at next level, right associativity).

Fixpoint sequence {A} (l : list (option A)) : option (list A) :=
  match l with
  | [] => Some []
  | o :: l' => a <- o ;; r <- sequence l' ;; Some (a :: r)
  end.

Definition map2 {A B C} (f : A -> B -> C) (l1 : list A) (l2 : list B) : list C :=
  map (fun p => f (fst p) (snd p)) (combine l1 l2).

(** Broadcasting of a binary operation along one axis: the extents are
    equal, or one of them is 1; anything else raises. *)
Definition bcast {A B C} (f : A -> B -> option C)
    (l1 : list A) (l2 : list B) : option (list C) :=
  if length l1 =? length l2 then sequence (map2 f l1 l2)
  else match l1, l2 with
       | [a], _ => sequence (map (f a) l2)
       | _, [b] => sequence (map (fun a => f a b) l1)
       | _, _ => None
       end.

Definition bcast1 {A B C} (f : A -> B -> C) : list A -> list B -> option (list C) :=
  bcast (fun a b => Some (f a b)).

Definition bcast2 {A B C} (f : A -> B -> C) :
    list (list A) -> list (list B) -> option (list (list C)) :=
  bcast (bcast1 f).

Definition bcast3 {A B C} (f : A -> B -> C) :
    list (list (list A)) -> list (list (list B)) -> option (list (list (list C))) :=
  bcast (bcast2 f).

Definition map3 {A B} (f : A -> B) : list (list (list A)) -> list (list (list B)) :=
  map (map (map f)).

(** Python's normalisation of a slice bound on a sequence of length [len]. *)
Definition py_bound (len : nat) (i : Z) : nat :=
  let j := if (i <? 0)%Z then (i + Z.of_nat len)%Z else i in
  Z.to_nat (Z.max 0 (Z.min j (Z.of_nat len))).

Definition slice_start (len : nat) (start : option Z) : nat :=
  match start with None => 0 | Some i => py_bound len i end.

Definition slice_stop (len : nat) (stop : option Z) : nat :=
  match stop with None => len | Some i => py_bound len i end.

(** [l[start:stop]] with optional bounds. *)
Definition py_slice {A} (start stop : option Z) (l : list A) : list A :=
  let a := slice_start (length l) start in
  let b := slice_stop (length l) stop in
  firstn (b - a) (skipn a l).

(** [l[i]] for an integer index: negative indices count from the end,
    an index out of range raises. *)
Definition py_get {A} (l : list A) (i : Z) : option A :=
  let j := if (i <? 0)%Z then (i + Z.of_nat (length l))%Z else i in
  if (j <? 0)%Z then None else nth_error l (Z.to_nat j).

(** [t[:, :, start:stop]] *)
Definition slice_axis2 {A} (start stop : option Z)
    (t : list (list (list A))) : list (list (list A)) :=
  map (map (py_slice start stop)) t.

(** [x.unsqueeze(dim=2)] and [grid.unsqueeze(dim=0)] *)
Definition unsqueeze2 {A} (x : list (list A)) : list (list (list A)) :=
  map (map (fun v => [v])) x.

Definition unsqueeze0 {A} (g : list (list A)) : list (list (list A)) := [g].

(** [x[:, :, 0]] on a tensor whose last axis is not empty. *)
Definition index_axis2_0 (x : tensor3) : tensor2 :=
  map (map (fun r => nth 0 r NaN)) x.

(** [torch.cat([a, b], dim=1)] of two matrices. *)
Definition cat1 {A} (a b : list (list A)) : option (list (list A)) :=
  if length a =? length b then Some (map2 (@app A) a b) else None.

(** [grid[:, [j]]]: the column [j], kept as a column. *)
Definition column (j : Z) (t : tensor2) : option tensor2 :=
  sequence (map (fun r => v <- py_get r j ;; Some [v]) t).

(** [t.permute(1, 0, 2)]: result[j][i] = t[i][j]. *)
Definition permute_102 (t : tensor3) : tensor3 :=
  map (fun j => map (fun t_i => nth j t_i []) t)
      (seq 0 (snd (fst (shape3 t)))).

(** [t.permute(1, 2, 0)]: result[j][l][i] = t[i][j][l]. *)
Definition permute_120 (t : tensor3) : tensor3 :=
  map (fun j =>
         map (fun l => map (fun t_i => nth l (nth j t_i []) NaN) t)
             (seq 0 (snd (shape3 t))))
      (seq 0 (snd (fst (shape3 t)))).

(** [t.unsqueeze(dim=3)] *)
Definition unsqueeze3 (t : tensor3) : tensor4 :=
  map (map (map (fun v => [v]))) t.

(** One axis of [expand]: the extent is kept (requested size -1 or equal
    to it), or an extent of 1 is repeated; anything else raises. *)
Definition expand_axis {A} (size : Z) (l : list A) : option (list A) :=
  if (size =? -1)%Z then Some l
  else if (size <? 0)%Z then None
  else if (Z.of_nat (length l) =? size)%Z then Some l
  else match l with
       | [a] => Some (repeat a (Z.to_nat size))
       | _ => None
       end.

(** [t.expand(s0, s1, s2, s3)] *)
Definition expand4 (s0 s1 s2 s3 : Z) (t : tensor4) : option tensor4 :=
  t0 <- expand_axis s0 t ;;
  sequence
    (map (fun t1 =>
            t1 <- expand_axis s1 t1 ;;
            sequence
              (map (fun t2 =>
                      t2 <- expand_axis s2 t2 ;;
                      sequence (map (expand_axis s3) t2))
                   t1))
         t0).

(** Pairing of the batch axes of two operands, which must agree. *)
Definition zipM {A B C} (f : A -> B -> option C)
    (l1 : list A) (l2 : list B) : option (list C) :=
  if length l1 =? length l2 then sequence (map2 f l1 l2) else None.

Inductive device : Type := cpu | cuda.

Definition device_eqb (d1 d2 : device) : bool :=
  match d1, d2 with cpu, cpu | cuda, cuda => true | _, _ => false end.

(** The two kinds of Python values that [curve2coef] compares with [==]:
    a [torch.device] object ([mat.device]) and a [str] (the literal
    ['cpu']).  A [torch.device] and a [str] are never equal. *)
Inductive pyobj : Type :=
| torch_device (d : device)
| py_str (s : string).

Definition py_eq (a b : pyobj) : bool :=
  match a, b with
  | torch_device d1, torch_device d2 => device_eqb d1 d2
  | py_str s1, py_str s2 => String.eqb s1 s2
  | _, _ => false
  end.

(** The dtypes that occur: [torch.bool] and the float dtype of the
    inputs. *)
Inductive dtype : Type := dt_bool | dt_float.

(** The dtype of the tensor that [B_batch] returns at order [k], for
    float [x] and [grid].  At [k == 0] the value is the product of two
    comparisons, a bool tensor, and [nan_to_num] keeps the dtype; in the
    other branch the arithmetic on [x] and [grid] gives a float tensor. *)
Definition B_batch_dtype (k : nat) : dtype :=
  match k with
  | O => dt_bool
  | S _ => dt_float
  end.

(** LAPACK drivers that [curve2coef] names. *)
Inductive driver : Type := gelsy | gels.

(* ================================================================== *)
(** ** The routines *)

Section Spline.

(** Largest finite value of the tensors' dtype (used by [nan_to_num]). *)
Variable fmax : Qc.

(** [B_batch(x, grid, k=0, extend=True, device='cpu')] *)
Fixpoint B_batch (x grid : tensor2) (k : nat) (extend : bool) (dev : device)
    : option tensor3 :=
  let x := unsqueeze2 x in
  let grid := unsqueeze0 grid in
  match k with
  | O =>
      ge <- bcast3 fge x (slice_axis2 None (Some (-1)%Z) grid) ;;
      lt <- bcast3 flt x (slice_axis2 (Some 1%Z) None grid) ;;
      value <- bcast3 andb ge lt ;;
      (* nan_to_num returns a boolean tensor as it is *)
      Some (map3 of_bool value)
  | S k' =>
      let kz := Z.of_nat k in
      B_km1 <- B_batch (index_axis2_0 x) (nth 0 grid []) k' true cpu ;;
      n1 <- bcast3 fsub x (slice_axis2 None (Some (- (kz + 1))%Z) grid) ;;
      d1 <- bcast3 fsub (slice_axis2 (Some kz) (Some (-1)%Z) grid)
                        (slice_axis2 None (Some (- (kz + 1))%Z) grid) ;;
      q1 <- bcast3 fdiv n1 d1 ;;
      t1 <- bcast3 fmul q1 (slice_axis2 None (Some (-1)%Z) B_km1) ;;
      n2 <- bcast3 fsub (slice_axis2 (Some (kz + 1)%Z) None grid) x ;;
      d2 <- bcast3 fsub (slice_axis2 (Some (kz + 1)%Z) None grid)
                        (slice_axis2 (Some 1%Z) (Some (- kz)%Z) grid) ;;
      q2 <- bcast3 fdiv n2 d2 ;;
      t2 <- bcast3 fmul q2 (slice_axis2 (Some 1%Z) None B_km1) ;;
      value <- bcast3 fadd t1 t2 ;;
      Some (map3 (nan_to_num fmax) value)
  end.

(** The loop of [extend_grid]: [n] rounds of a prepend and an append. *)
Fixpoint extend_loop (n : nat) (h grid : tensor2) : option tensor2 :=
  match n with
  | O => Some grid
  | S n' =>
      first <- column 0 grid ;;
      l <- bcast2 fsub first h ;;
      grid <- cat1 l grid ;;
      last <- column (-1) grid ;;
      r <- bcast2 fadd last h ;;
      grid <- cat1 grid r ;;
      extend_loop n' h grid
  end.

(** [extend_grid(grid, k_extend=0)] *)
Definition extend_grid (grid : tensor2) (k_extend : nat) : option tensor2 :=
  last <- column (-1) grid ;;
  first <- column 0 grid ;;
  d <- bcast2 fsub last first ;;
  let h := map (map (fun v => fdiv v (of_Z (Z.of_nat (snd (shape2 grid)) - 1)))) d in
  extend_loop k_extend h grid.

(** [torch.einsum('ijk,jlk->ijl', a, b)] on float tensors: the axes [j]
    and [k] are shared (equal extents, or one of them 1), [k] is
    summed. *)
Definition einsum_ijk_jlk_ijl (a b : tensor3) : option tensor3 :=
  sequence
    (map (fun a_i =>
            bcast (fun a_ij b_j =>
                     sequence
                       (map (fun b_jl => p <- bcast1 fmul a_ij b_jl ;; Some (fsum p))
                            b_j))
                  a_i b)
         a).

(** [torch.einsum('ijk,jlk->ijl', a, b)] for [a] of dtype [dt] and a
    float [b]: the contraction is a batched matrix product, which torch
    does not have for a bool operand, so a bool [a] raises. *)
Definition torch_einsum (dt : dtype) (a b : tensor3) : option tensor3 :=
  match dt with
  | dt_bool => None
  | dt_float => einsum_ijk_jlk_ijl a b
  end.

(** [coef2curve(x_eval, grid, coef, k, device="cpu")] *)
Definition coef2curve (x_eval grid : tensor2) (coef : tensor3) (k : nat)
    (dev : device) : option tensor3 :=
  b_splines <- B_batch x_eval grid k true cpu ;;
  torch_einsum (B_batch_dtype k) b_splines coef.

(** The least-squares solver of [torch.linalg.lstsq] for one matrix
    problem on float operands (A of shape (m, n), B of shape (m, 1),
    solution of shape (n, 1)); [None] when the solver raises. *)
Variable lstsq : driver -> tensor2 -> tensor2 -> option tensor2.

(** [torch.linalg.lstsq(A, B, driver=...).solution] for a batch [A] of
    matrices of dtype [dt_A] and a batch [B] of right-hand sides of dtype
    [dt_B] with two batch axes: the two operands must have the same
    dtype, a float one, and the same batch extents; each pair of the
    batch goes to the solver. *)
Definition linalg_lstsq (drv : driver) (dt_A dt_B : dtype) (A B : tensor4)
    : option tensor4 :=
  match dt_A, dt_B with
  | dt_float, dt_float => zipM (zipM (lstsq drv)) A B
  | _, _ => None
  end.

(** [curve2coef(x_eval, y_eval, grid, k)]; [dev] is the device of
    [x_eval], which the basis tensor inherits. *)
Definition curve2coef (x_eval : tensor2) (y_eval : tensor3) (grid : tensor2)
    (k : nat) (dev : device) : option tensor3 :=
  let batch := fst (shape2 x_eval) in
  let in_dim := snd (shape2 x_eval) in
  let out_dim := snd (shape3 y_eval) in
  let n_coef := (Z.of_nat (snd (shape2 grid)) - Z.of_nat k - 1)%Z in
  mat <- B_batch x_eval grid k true cpu ;;
  mat <- expand4 (Z.of_nat in_dim) (Z.of_nat out_dim) (Z.of_nat batch) n_coef
           (map (fun m => [m]) (permute_102 mat)) ;;
  let y_eval := unsqueeze3 (permute_120 y_eval) in
  let device := torch_device dev in
  coef <- linalg_lstsq (if py_eq device (py_str "cpu") then gelsy else gels)
            (B_batch_dtype k) dt_float mat y_eval ;;
  Some (map (map (map (fun r => nth 0 r NaN))) coef).

End Spline.

(* ================================================================== *)
(** ** Row-wise reading of the tensor expressions

    The tensor of a basis evaluation is built from one row per pair of
    a sample [v = x[b][i]] and a knot row [row = grid[i]]. *)

Definition lift_rows {A} (g : fl -> tensor1 -> list A) (x grid : tensor2)
    : list (list (list A)) :=
  map (fun xr => map2 g xr grid) x.

(** [x.shape[1] = grid.shape[0]]: every row of [x] has one sample per spline. *)
Definition rows_ok (x grid : tensor2) : Prop :=
  Forall (fun xr => length xr = length grid) x.

Section Rows.

Variable fmax : Qc.

(** The Cox-de Boor combination of the order-[k-1] values [b] at index [c]. *)
Definition cox_de_boor (v : fl) (t b : tensor1) (k c : nat) : fl :=
  fadd (fmul (fdiv (fsub v (nth c t NaN))
                   (fsub (nth (c + k) t NaN) (nth c t NaN)))
             (nth c b NaN))
       (fmul (fdiv (fsub (nth (c + k + 1) t NaN) v)
                   (fsub (nth (c + k + 1) t NaN) (nth (c + 1) t NaN)))
             (nth (c + 1) b NaN)).

(** What [B_batch] computes for one sample [v] and one knot row [row]. *)
Fixpoint basis_row (v : fl) (row : tensor1) (k : nat) : tensor1 :=
  match k with
  | O =>
      map of_bool
        (map2 andb (map (fge v) (py_slice None (Some (-1)%Z) row))
                   (map (flt v) (py_slice (Some 1%Z) None row)))
  | S k' =>
      let kz := Z.of_nat k in
      let b := basis_row v row k' in
      map (nan_to_num fmax)
        (map2 fadd
           (map2 fmul
              (map2 fdiv
                 (map (fsub v) (py_slice None (Some (- (kz + 1))%Z) row))
                 (map2 fsub (py_slice (Some kz) (Some (-1)%Z) row)
                            (py_slice None (Some (- (kz + 1))%Z) row)))
              (py_slice None (Some (-1)%Z) b))
           (map2 fmul
              (map2 fdiv
                 (map (fun g => fsub g v) (py_slice (Some (kz + 1)%Z) None row))
                 (map2 fsub (py_slice (Some (kz + 1)%Z) None row)
                            (py_slice (Some 1%Z) (Some (- kz)%Z) row)))
              (py_slice (Some 1%Z) None b)))
  end.

End Rows.

(** Every entry of a tensor is a finite number (neither NaN nor infinite). *)
Definition all_finite1 (t : tensor1) : Prop := Forall (fun a => is_finite a = true) t.
Definition all_finite2 (t : tensor2) : Prop := Forall all_finite1 t.
Definition all_finite3 (t : tensor3) : Prop := Forall all_finite2 t.

(** The Grid invariant of the data model on one row: finite knots in
    non-decreasing order. *)
Fixpoint nondecreasing (row : tensor1) : bool :=
  match row with
  | [] => true
  | a :: rest =>
      is_finite a &&
      match rest with
      | [] => true
      | b :: _ => fge b a
      end && nondecreasing rest
  end.

(** The value of [einsum_ijk_jlk_ijl] on tensors of matching shapes: the
    contraction over the last axis, entry by entry. *)
Definition contract (a b : tensor3) : tensor3 :=
  map (fun a_i =>
         map2 (fun a_ij b_j => map (fun b_jl => fsum (map2 fmul a_ij b_jl)) b_j)
              a_i b)
      a.

(** The Cox-de Boor combination at entry (b, i, c), read off the tensors:
    sample [x[b][i]], knots [grid[i][..]], order-[k-1] values [B_km1[b][i][..]]. *)
Definition cox_de_boor_entry (x grid : tensor2) (B_km1 : tensor3) (k b i c : nat) : fl :=
  cox_de_boor (get2 x b i) (nth i grid []) (nth i (nth b B_km1 []) []) k c.

(** A rational literal as a tensor element. *)
Definition qf (n : Z) (d : positive) : fl := Finite (Q2Qc (n # d)).

(** Sample inputs: one spline, one sample. *)
Definition x_half : tensor2 := [[qf 1 2]].
Definition x_zero : tensor2 := [[qf 0 1]].
Definition grid_012 : tensor2 := [[qf 0 1; qf 1 1; qf 2 1]].
Definition grid_001 : tensor2 := [[qf 0 1; qf 0 1; qf 1 1]].

(** Row-wise reading of [extend_grid]: the step, one round of padding,
    and [n] rounds. *)
Definition knot_step (G : nat) (row : tensor1) : fl :=
  fdiv (fsub (last row NaN) (hd NaN row)) (of_Z (Z.of_nat G - 1)).

Definition extend_step (h : fl) (row : tensor1) : tensor1 :=
  (fsub (hd NaN row) h :: row) ++ [fadd (last row NaN) h].

Fixpoint extend_row (n : nat) (h : fl) (row : tensor1) : tensor1 :=
  match n with
  | O => row
  | S n' => extend_row n' h (extend_step h row)
  end.

Definition grid_015 : tensor2 := [[qf 0 1; qf 1 1; qf 5 1]].

(* ================================================================== *)
(** ** Exact least squares

    The contract of [torch.linalg.lstsq], on the rationals that finite
    floats stand for. *)

Definition dotq (a c : list Qc) : Qc :=
  fold_right Qcplus 0%Qc (map2 Qcmult a c).

(** Sum of the squared residuals of [A c = y]. *)
Definition residual (A : list (list Qc)) (y c : list Qc) : Qc :=
  fold_right Qcplus 0%Qc
    (map2 (fun row y_n => (dotq row c - y_n) * (dotq row c - y_n))%Qc A y).

Definition least_squares (A : list (list Qc)) (y c : list Qc) : Prop :=
  forall c', length c' = length c -> (residual A y c <= residual A y c')%Qc.

(** The columns of [A] are linearly independent. *)
Definition full_column_rank (A : list (list Qc)) (C : nat) : Prop :=
  forall v, length v = C ->
    (forall row, In row A -> dotq row v = 0%Qc) ->
    Forall (fun a => a = 0%Qc) v.

Definition rationals (A : tensor2) : list (list Qc) := map (map fq) A.

(** The single column of an (n, 1) matrix. *)
Definition column0 (X : tensor2) : list Qc := map (fun r => fq (nth 0 r NaN)) X.

(** For a finite system whose matrix has full column rank, a solution
    that the solver returns has the shape of the unknowns, is finite and
    minimises the squared residual (both drivers, [gelsy] and [gels]). *)
Definition lstsq_contract
    (lstsq : driver -> tensor2 -> tensor2 -> option tensor2) : Prop :=
  forall drv (A b X : tensor2) N C,
    has_shape2 A N C -> has_shape2 b N 1 ->
    all_finite2 A -> all_finite2 b ->
    full_column_rank (rationals A) C ->
    lstsq drv A b = Some X ->
    has_shape2 X C 1 /\ all_finite2 X /\
    least_squares (rationals A) (column0 b) (column0 X).

(** The system that [curve2coef] hands to the solver for the pair of
    spline [i] and output channel [o]: the basis values of spline [i] at
    every sample, and the curve values of the pair at every sample. *)
Definition design_matrix (B : tensor3) (i : nat) : tensor2 :=
  map (fun B_n => nth i B_n []) B.

Definition target_column (y : tensor3) (i o : nat) : tensor2 :=
  map (fun y_n => [nth o (nth i y_n []) NaN]) y.

(** A solver for systems with one unknown that answers when the system
    has an exact finite solution (used to instantiate the contract). *)
Definition solve_one_unknown (drv : driver) (A b : tensor2) : option tensor2 :=
  match A, b with
  | [a] :: _, [y] :: _ =>
      let c := fdiv y a in
      if is_finite c &&
         (length A =? length b) &&
         forallb (fun p =>
                    match fst p, snd p with
                    | [a_n], [y_n] =>
                        is_finite a_n && is_finite y_n && fl_eqb (fmul a_n c) y_n
                    | _, _ => false
                    end)
                 (combine A b)
      then Some [[c]] else None
  | _, _ => None
  end.


(* ================================================================== *)
(** ** Minimum-norm least squares *)

(** The squared norm of a coefficient vector. *)
Definition norm2 (c : list Qc) : Qc := dotq c c.

(** [c] minimises the squared residual of [A c = y], and no other
    minimiser has a smaller norm. *)
Definition min_norm_least_squares (A : list (list Qc)) (y c : list Qc) : Prop :=
  least_squares A y c /\
  forall c', length c' = length c -> least_squares A y c' ->
    (norm2 c <= norm2 c')%Qc.

(** Modelled from the spec: the answer of the least-squares solver on a
    finite system with any number of equations and of any rank.  When
    the solver returns, its answer has the shape of the unknowns, is
    finite and is the minimum-norm least-squares solution.  Stated for
    the driver [gels], the one that [curve2coef] passes. *)
Definition min_norm_contract
    (lstsq : driver -> tensor2 -> tensor2 -> option tensor2) : Prop :=
  forall (A b X : tensor2) N C,
    has_shape2 A N C -> has_shape2 b N 1 ->
    all_finite2 A -> all_finite2 b ->
    lstsq gels A b = Some X ->
    has_shape2 X C 1 /\ all_finite2 X /\
    min_norm_least_squares (rationals A) (column0 b) (column0 X).

(** A solver for one equation in two unknowns, [a1 c1 + a2 c2 = y] with
    [(a1, a2)] not zero: it answers with the point of the solution line
    that is closest to the origin (used to instantiate the contract). *)
Definition solve_one_equation (drv : driver) (A b : tensor2) : option tensor2 :=
  match A, b with
  | [[Finite a1; Finite a2]], [[Finite y]] =>
      let s := (a1 * a1 + a2 * a2)%Qc in
      if Qc_eq_dec s 0%Qc then None
      else Some [[Finite (y * a1 / s)%Qc]; [Finite (y * a2 / s)%Qc]]
  | _, _ => None
  end.
(* ================================================================== *)
(** ** Auxiliary notions for the further properties *)

(** A term of a Cox-de Boor combination before [nan_to_num]: NaN, or a
    finite number that is not negative. *)
Definition nonneg_or_nan (a : fl) : Prop :=
  a = NaN \/ exists r, a = Finite r /\ (0 <= r)%Qc.

(** Finite knots in strictly increasing order. *)
Fixpoint increasing (row : tensor1) : bool :=
  match row with
  | [] => true
  | a :: rest =>
      is_finite a &&
      match rest with
      | [] => true
      | b :: _ => flt a b
      end && increasing rest
  end.

(** [f 0 + ... + f (n - 1)] *)
Fixpoint sumn (f : nat -> Qc) (n : nat) : Qc :=
  match n with
  | O => 0%Qc
  | S m => (sumn f m + f m)%Qc
  end.


(** A natural number as a rational. *)
Definition of_nat (n : nat) : Qc := Q2Qc (inject_Z (Z.of_nat n)).
(* ================================================================== *)
(** ** Lists, slices and broadcasting *)

Lemma sequence_map_Some {A B} (f : A -> option B) (g : A -> B) l :
  (forall a, In a l -> f a = Some (g a)) ->
  sequence (map f l) = Some (map g l).
Proof.
  induction l as [|a l IH]; intros H; simpl; [reflexivity|].
  rewrite (H a (or_introl eq_refl)); simpl.
  rewrite IH by (intros; apply H; right; assumption).
  reflexivity.
Qed.

Lemma map2_length {A B C} (f : A -> B -> C) l1 l2 :
  length (map2 f l1 l2) = Nat.min (length l1) (length l2).
Proof. unfold map2; rewrite length_map, length_combine; reflexivity. Qed.

Lemma map2_nth {A B C} (f : A -> B -> C) l1 l2 n da db dc :
  n < length l1 -> n < length l2 ->
  nth n (map2 f l1 l2) dc = f (nth n l1 da) (nth n l2 db).
Proof.
  revert l2 n; induction l1 as [|a l1 IH]; intros [|b l2] [|n]; simpl;
    intros H1 H2; try lia; [reflexivity|].
  apply IH; lia.
Qed.

Lemma bcast_same {A B C} (f : A -> B -> option C) l1 l2 :
  length l1 = length l2 -> bcast f l1 l2 = sequence (map2 f l1 l2).
Proof.
  intros H; unfold bcast.
  destruct (Nat.eqb_spec (length l1) (length l2)); [reflexivity | contradiction].
Qed.

Lemma bcast_single_l {A B C} (f : A -> B -> option C) a l2 :
  bcast f [a] l2 = sequence (map (f a) l2).
Proof.
  unfold bcast.
  destruct (Nat.eqb_spec (length [a]) (length l2)) as [E|E]; [|reflexivity].
  destruct l2 as [|b [|b' l2]]; simpl in E; try discriminate; reflexivity.
Qed.

Lemma bcast_single_r {A B C} (f : A -> B -> option C) l1 b :
  bcast f l1 [b] = sequence (map (fun a => f a b) l1).
Proof.
  unfold bcast.
  destruct (Nat.eqb_spec (length l1) (length [b])) as [E|E].
  - destruct l1 as [|a [|a' l1]]; simpl in E; try discriminate; reflexivity.
  - destruct l1 as [|a [|a' l1]]; simpl in *; try reflexivity; lia.
Qed.

Lemma bcast1_same {A B C} (f : A -> B -> C) l1 l2 :
  length l1 = length l2 -> bcast1 f l1 l2 = Some (map2 f l1 l2).
Proof.
  intros H; unfold bcast1; rewrite bcast_same by assumption.
  unfold map2 at 1.
  apply (sequence_map_Some _ (fun p => f (fst p) (snd p))); reflexivity.
Qed.

Lemma bcast1_single_l {A B C} (f : A -> B -> C) a l2 :
  bcast1 f [a] l2 = Some (map (f a) l2).
Proof.
  unfold bcast1; rewrite bcast_single_l.
  apply sequence_map_Some; reflexivity.
Qed.

Lemma bcast1_single_r {A B C} (f : A -> B -> C) l1 b :
  bcast1 f l1 [b] = Some (map (fun a => f a b) l1).
Proof.
  unfold bcast1; rewrite bcast_single_r.
  apply sequence_map_Some; reflexivity.
Qed.

Lemma sequence_map2_Some {A B C} (f : A -> B -> option C) (g : A -> B -> C) l1 l2 :
  (forall a b, In (a, b) (combine l1 l2) -> f a b = Some (g a b)) ->
  sequence (map2 f l1 l2) = Some (map2 g l1 l2).
Proof.
  intros H; unfold map2.
  apply (sequence_map_Some _ (fun p => g (fst p) (snd p))).
  intros [a b] Hin; apply H; assumption.
Qed.

Lemma sequence_map2_gen {X Y A B C} (F : A -> B -> option C)
    (p : X -> Y -> A) (q : X -> Y -> B) (G : X -> Y -> C) l1 l2 :
  (forall a b, F (p a b) (q a b) = Some (G a b)) ->
  sequence (map2 F (map2 p l1 l2) (map2 q l1 l2)) = Some (map2 G l1 l2).
Proof.
  intros H; revert l2; induction l1 as [|a l1 IH]; intros [|b l2];
    try reflexivity.
  unfold map2 in *; simpl; rewrite H; simpl; rewrite IH; reflexivity.
Qed.

Lemma sequence_map2_maps {X A B C} (F : A -> B -> option C)
    (p : X -> A) (q : X -> B) (G : X -> C) l :
  (forall a, In a l -> F (p a) (q a) = Some (G a)) ->
  sequence (map2 F (map p l) (map q l)) = Some (map G l).
Proof.
  induction l as [|a l IH]; intros H; [reflexivity|].
  unfold map2 in *; simpl; rewrite H by (left; reflexivity); simpl.
  rewrite IH by (intros; apply H; right; assumption); reflexivity.
Qed.

Lemma map_as_map2_l {X Y A} (h : X -> A) (l1 : list X) (l2 : list Y) :
  length l1 = length l2 -> map h l1 = map2 (fun a _ => h a) l1 l2.
Proof.
  revert l2; induction l1 as [|a l1 IH]; intros [|b l2] H; simpl in *;
    try reflexivity; try discriminate.
  unfold map2 in *; simpl; f_equal; apply IH; lia.
Qed.

Lemma map_as_map2_r {X Y B} (h : Y -> B) (l1 : list X) (l2 : list Y) :
  length l1 = length l2 -> map h l2 = map2 (fun _ b => h b) l1 l2.
Proof.
  revert l2; induction l1 as [|a l1 IH]; intros [|b l2] H; simpl in *;
    try reflexivity; try discriminate.
  unfold map2 in *; simpl; f_equal; apply IH; lia.
Qed.

Lemma map_map2 {X Y A B} (h : A -> B) (g : X -> Y -> A) l1 l2 :
  map h (map2 g l1 l2) = map2 (fun a b => h (g a b)) l1 l2.
Proof. unfold map2; rewrite map_map; reflexivity. Qed.

Lemma lift_rows_nth {A} (g : fl -> tensor1 -> list A) x grid b i :
  b < length x -> i < length grid -> rows_ok x grid ->
  nth i (nth b (lift_rows g x grid) []) [] = g (get2 x b i) (nth i grid []).
Proof.
  intros Hb Hi Hok; unfold lift_rows, get2.
  rewrite (nth_indep _ [] (map2 g [] grid)) by (rewrite length_map; assumption).
  rewrite (map_nth (fun xr => map2 g xr grid) x [] b).
  assert (Hl : length (nth b x []) = length grid).
  { unfold rows_ok in Hok; rewrite Forall_forall in Hok; apply Hok.
    apply nth_In; assumption. }
  apply map2_nth; lia.
Qed.

Lemma slice_lift_rows {A} s e (g : fl -> tensor1 -> list A) x grid :
  slice_axis2 s e (lift_rows g x grid) =
  lift_rows (fun v row => py_slice s e (g v row)) x grid.
Proof.
  unfold slice_axis2, lift_rows; rewrite map_map.
  apply map_ext; intros xr; apply map_map2.
Qed.

Lemma map3_lift_rows {A B} (h : A -> B) (g : fl -> tensor1 -> list A) x grid :
  map3 h (lift_rows g x grid) = lift_rows (fun v row => map h (g v row)) x grid.
Proof.
  unfold map3, lift_rows; rewrite map_map.
  apply map_ext; intros xr; apply map_map2.
Qed.

Lemma rows_ok_in x grid xr :
  rows_ok x grid -> In xr x -> length xr = length grid.
Proof. unfold rows_ok; rewrite Forall_forall; auto. Qed.

(** sample tensor against a knot tensor: (B, I, 1) with (1, I, W) *)
Lemma bcast3_XG {C} (f : fl -> fl -> C) (d : tensor1 -> tensor1) x grid :
  rows_ok x grid ->
  bcast3 f (unsqueeze2 x) [map d grid] =
  Some (lift_rows (fun v row => map (f v) (d row)) x grid).
Proof.
  intros Hok; unfold bcast3, unsqueeze2, lift_rows.
  rewrite bcast_single_r, map_map.
  apply sequence_map_Some; intros xr Hin.
  pose proof (@rows_ok_in x grid xr Hok Hin) as Hl.
  unfold bcast2; rewrite bcast_same by (rewrite !length_map; assumption).
  rewrite (map_as_map2_l (fun v => [v]) xr grid Hl).
  rewrite (map_as_map2_r d xr grid Hl).
  apply sequence_map2_gen; intros v row; apply bcast1_single_l.
Qed.

(** knot tensor against a sample tensor: (1, I, W) with (B, I, 1) *)
Lemma bcast3_GX {C} (f : fl -> fl -> C) (d : tensor1 -> tensor1) x grid :
  rows_ok x grid ->
  bcast3 f [map d grid] (unsqueeze2 x) =
  Some (lift_rows (fun v row => map (fun g => f g v) (d row)) x grid).
Proof.
  intros Hok; unfold bcast3, unsqueeze2, lift_rows.
  rewrite bcast_single_l, map_map.
  apply sequence_map_Some; intros xr Hin.
  pose proof (@rows_ok_in x grid xr Hok Hin) as Hl.
  unfold bcast2; rewrite bcast_same by (rewrite !length_map; symmetry; assumption).
  rewrite (map_as_map2_l (fun v => [v]) xr grid Hl).
  rewrite (map_as_map2_r d xr grid Hl).
  apply sequence_map2_gen; intros v row; apply bcast1_single_r.
Qed.

(** two knot tensors: (1, I, W) with (1, I, W) *)
Lemma bcast3_GG {C} (f : fl -> fl -> C) (d1 d2 : tensor1 -> tensor1) (grid : tensor2) :
  (forall row, length (d1 row) = length (d2 row)) ->
  bcast3 f [map d1 grid] [map d2 grid] =
  Some [map (fun row => map2 f (d1 row) (d2 row)) grid].
Proof.
  intros Hlen; unfold bcast3.
  rewrite bcast_same by reflexivity.
  unfold map2 at 1; simpl.
  unfold bcast2; rewrite bcast_same by (rewrite !length_map; reflexivity).
  rewrite (sequence_map2_maps (bcast1 f) d1 d2
             (fun row => map2 f (d1 row) (d2 row))); [reflexivity|].
  intros row _; apply bcast1_same, Hlen.
Qed.

(** row tensor against a knot tensor: (B, I, W) with (1, I, W) *)
Lemma bcast3_LG {A C} (f : A -> fl -> C) (g : fl -> tensor1 -> list A)
    (d : tensor1 -> tensor1) x grid :
  rows_ok x grid ->
  (forall v row, length (g v row) = length (d row)) ->
  bcast3 f (lift_rows g x grid) [map d grid] =
  Some (lift_rows (fun v row => map2 f (g v row) (d row)) x grid).
Proof.
  intros Hok Hlen; unfold bcast3, lift_rows.
  rewrite bcast_single_r, map_map.
  apply sequence_map_Some; intros xr Hin.
  pose proof (@rows_ok_in x grid xr Hok Hin) as Hl.
  unfold bcast2; rewrite bcast_same
    by (rewrite map2_length, length_map; lia).
  rewrite (map_as_map2_r d xr grid Hl).
  apply sequence_map2_gen; intros v row; apply bcast1_same, Hlen.
Qed.

(** two row tensors: (B, I, W) with (B, I, W) *)
Lemma bcast3_LL {A B C} (f : A -> B -> C) (g1 : fl -> tensor1 -> list A)
    (g2 : fl -> tensor1 -> list B) x grid :
  (forall v row, length (g1 v row) = length (g2 v row)) ->
  bcast3 f (lift_rows g1 x grid) (lift_rows g2 x grid) =
  Some (lift_rows (fun v row => map2 f (g1 v row) (g2 v row)) x grid).
Proof.
  intros Hlen; unfold bcast3, lift_rows.
  rewrite bcast_same by (rewrite !length_map; reflexivity).
  apply sequence_map2_maps; intros xr _.
  unfold bcast2; rewrite bcast_same by (rewrite !map2_length; reflexivity).
  apply sequence_map2_gen; intros v row; apply bcast1_same, Hlen.
Qed.

Lemma index_unsqueeze2 x : index_axis2_0 (unsqueeze2 x) = x.
Proof.
  unfold index_axis2_0, unsqueeze2; rewrite map_map.
  rewrite <- (map_id x) at 2; apply map_ext; intros xr.
  rewrite map_map; simpl; apply map_id.
Qed.

Lemma py_bound_le len i : py_bound len i <= len.
Proof. unfold py_bound; destruct (Z.ltb_spec i 0); lia. Qed.

Lemma py_slice_length {A} s e (l : list A) :
  length (py_slice s e l) = slice_stop (length l) e - slice_start (length l) s.
Proof.
  unfold py_slice; rewrite length_firstn, length_skipn.
  assert (slice_stop (length l) e <= length l)
    by (destruct e; simpl; [apply py_bound_le | lia]).
  lia.
Qed.

Lemma py_slice_nth {A} s e (l : list A) c d :
  c < slice_stop (length l) e - slice_start (length l) s ->
  nth c (py_slice s e l) d = nth (slice_start (length l) s + c) l d.
Proof.
  intros H; unfold py_slice.
  rewrite nth_firstn.
  destruct (Nat.ltb_spec c (slice_stop (length l) e - slice_start (length l) s));
    [|lia].
  apply nth_skipn.
Qed.

Ltac bounds :=
  unfold slice_start, slice_stop, py_bound;
  repeat match goal with
         | |- context [(?a <? ?b)%Z] => destruct (Z.ltb_spec a b)
         end;
  try lia.

(** The six slices of [B_batch]: their lengths and where they start. *)
Section Slices.

Context {A : Type}.
Variables (l : list A) (k : nat).

Lemma len_init : length (py_slice None (Some (-1)%Z) l) = length l - 1.
Proof. rewrite py_slice_length; bounds. Qed.

Lemma len_tail : length (py_slice (Some 1%Z) None l) = length l - 1.
Proof. rewrite py_slice_length; bounds. Qed.

Lemma len_head : 
  length (py_slice None (Some (- (Z.of_nat k + 1))%Z) l) = length l - k - 1.
Proof. rewrite py_slice_length; bounds. Qed.

Lemma len_mid :
  length (py_slice (Some (Z.of_nat k)) (Some (-1)%Z) l) = length l - k - 1.
Proof. rewrite py_slice_length; bounds. Qed.

Lemma len_from :
  length (py_slice (Some (Z.of_nat k + 1)%Z) None l) = length l - k - 1.
Proof. rewrite py_slice_length; bounds. Qed.

Lemma len_inner :
  length (py_slice (Some 1%Z) (Some (- Z.of_nat (S k))%Z) l) = length l - S k - 1.
Proof. rewrite py_slice_length; bounds. Qed.

Variables (c : nat) (d : A).

Lemma nth_init :
  c < length l - 1 -> nth c (py_slice None (Some (-1)%Z) l) d = nth c l d.
Proof. intros H; rewrite py_slice_nth by bounds; f_equal. Qed.

Lemma nth_tail :
  c < length l - 1 -> nth c (py_slice (Some 1%Z) None l) d = nth (c + 1) l d.
Proof. intros H; rewrite py_slice_nth by bounds; f_equal; bounds. Qed.

Lemma nth_head :
  c < length l - k - 1 ->
  nth c (py_slice None (Some (- (Z.of_nat k + 1))%Z) l) d = nth c l d.
Proof. intros H; rewrite py_slice_nth by bounds; f_equal. Qed.

Lemma nth_mid :
  c < length l - k - 1 ->
  nth c (py_slice (Some (Z.of_nat k)) (Some (-1)%Z) l) d = nth (c + k) l d.
Proof. intros H; rewrite py_slice_nth by bounds; f_equal; bounds. Qed.

Lemma nth_from :
  c < length l - k - 1 ->
  nth c (py_slice (Some (Z.of_nat k + 1)%Z) None l) d = nth (c + k + 1) l d.
Proof. intros H; rewrite py_slice_nth by bounds; f_equal; bounds. Qed.

Lemma nth_inner :
  c < length l - S k - 1 ->
  nth c (py_slice (Some 1%Z) (Some (- Z.of_nat (S k))%Z) l) d = nth (c + 1) l d.
Proof. intros H; rewrite py_slice_nth by bounds; f_equal; bounds. Qed.

End Slices.

Section RowFacts.

Variable fmax : Qc.

Lemma basis_row_0 v row :
  basis_row fmax v row 0 =
  map of_bool
    (map2 andb (map (fge v) (py_slice None (Some (-1)%Z) row))
               (map (flt v) (py_slice (Some 1%Z) None row))).
Proof. reflexivity. Qed.

Lemma basis_row_S v row k :
  basis_row fmax v row (S k) =
  map (nan_to_num fmax)
    (map2 fadd
       (map2 fmul
          (map2 fdiv
             (map (fsub v) (py_slice None (Some (- (Z.of_nat (S k) + 1))%Z) row))
             (map2 fsub (py_slice (Some (Z.of_nat (S k))) (Some (-1)%Z) row)
                        (py_slice None (Some (- (Z.of_nat (S k) + 1))%Z) row)))
          (py_slice None (Some (-1)%Z) (basis_row fmax v row k)))
       (map2 fmul
          (map2 fdiv
             (map (fun g => fsub g v) (py_slice (Some (Z.of_nat (S k) + 1)%Z) None row))
             (map2 fsub (py_slice (Some (Z.of_nat (S k) + 1)%Z) None row)
                        (py_slice (Some 1%Z) (Some (- Z.of_nat (S k))%Z) row)))
          (py_slice (Some 1%Z) None (basis_row fmax v row k)))).
Proof. reflexivity. Qed.

Lemma B_batch_0 x grid extend dev :
  B_batch fmax x grid 0 extend dev =
  (ge <- bcast3 fge (unsqueeze2 x)
           [map (py_slice None (Some (-1)%Z)) grid] ;;
   lt <- bcast3 flt (unsqueeze2 x) [map (py_slice (Some 1%Z) None) grid] ;;
   value <- bcast3 andb ge lt ;;
   Some (map3 of_bool value)).
Proof. reflexivity. Qed.

Lemma B_batch_S x grid k extend dev :
  B_batch fmax x grid (S k) extend dev =
  (B_km1 <- B_batch fmax (index_axis2_0 (unsqueeze2 x)) grid k true cpu ;;
   n1 <- bcast3 fsub (unsqueeze2 x)
           [map (py_slice None (Some (- (Z.of_nat (S k) + 1))%Z)) grid] ;;
   d1 <- bcast3 fsub [map (py_slice (Some (Z.of_nat (S k))) (Some (-1)%Z)) grid]
                     [map (py_slice None (Some (- (Z.of_nat (S k) + 1))%Z)) grid] ;;
   q1 <- bcast3 fdiv n1 d1 ;;
   t1 <- bcast3 fmul q1 (slice_axis2 None (Some (-1)%Z) B_km1) ;;
   n2 <- bcast3 fsub [map (py_slice (Some (Z.of_nat (S k) + 1)%Z) None) grid]
                     (unsqueeze2 x) ;;
   d2 <- bcast3 fsub [map (py_slice (Some (Z.of_nat (S k) + 1)%Z) None) grid]
                     [map (py_slice (Some 1%Z) (Some (- Z.of_nat (S k))%Z)) grid] ;;
   q2 <- bcast3 fdiv n2 d2 ;;
   t2 <- bcast3 fmul q2 (slice_axis2 (Some 1%Z) None B_km1) ;;
   value <- bcast3 fadd t1 t2 ;;
   Some (map3 (nan_to_num fmax) value)).
Proof. reflexivity. Qed.

Lemma basis_row_length v row k :
  length (basis_row fmax v row k) = length row - k - 1.
Proof.
  induction k as [|k IH].
  - rewrite basis_row_0, length_map, map2_length, !length_map, len_init, len_tail.
    lia.
  - rewrite basis_row_S, length_map, !map2_length, !length_map.
    rewrite len_head, len_mid, len_from, len_inner, len_init, len_tail, IH.
    lia.
Qed.

(** [B_batch] evaluates [basis_row] at every pair of a sample and its
    spline's knot row. *)
Lemma B_batch_rows x grid k extend dev :
  rows_ok x grid ->
  B_batch fmax x grid k extend dev =
  Some (lift_rows (fun v row => basis_row fmax v row k) x grid).
Proof.
  intros Hok; revert extend dev; induction k as [|k IH]; intros extend dev.
  - rewrite B_batch_0.
    rewrite (bcast3_XG fge _ Hok); unfold bind at 1.
    rewrite (bcast3_XG flt _ Hok); unfold bind at 1.
    rewrite bcast3_LL
      by (intros v row; rewrite !length_map, len_init, len_tail; reflexivity).
    unfold bind at 1.
    rewrite map3_lift_rows; reflexivity.
  - rewrite B_batch_S.
    rewrite index_unsqueeze2, IH; unfold bind at 1.
    rewrite !slice_lift_rows.
    rewrite (bcast3_XG fsub _ Hok); unfold bind at 1.
    rewrite bcast3_GG by (intros row; rewrite len_mid, len_head; lia).
    unfold bind at 1.
    rewrite (bcast3_LG fdiv _ (fun row =>
               map2 fsub (py_slice (Some (Z.of_nat (S k))) (Some (-1)%Z) row)
                         (py_slice None (Some (- (Z.of_nat (S k) + 1))%Z) row)) Hok).
    2:{ intros v row; rewrite length_map, map2_length, len_mid, len_head; lia. }
    unfold bind at 1.
    rewrite bcast3_LL.
    2:{ intros v row; rewrite !map2_length, length_map, len_mid, len_head,
          len_init, basis_row_length; lia. }
    unfold bind at 1.
    rewrite (bcast3_GX fsub _ Hok); unfold bind at 1.
    rewrite bcast3_GG by (intros row; rewrite len_from, len_inner; lia).
    unfold bind at 1.
    rewrite (bcast3_LG fdiv _ (fun row =>
               map2 fsub (py_slice (Some (Z.of_nat (S k) + 1)%Z) None row)
                         (py_slice (Some 1%Z) (Some (- Z.of_nat (S k))%Z) row)) Hok).
    2:{ intros v row; rewrite length_map, map2_length, len_from, len_inner; lia. }
    unfold bind at 1.
    rewrite bcast3_LL.
    2:{ intros v row; rewrite !map2_length, length_map, len_from, len_inner,
          len_tail, basis_row_length; lia. }
    unfold bind at 1.
    rewrite bcast3_LL.
    2:{ intros v row; rewrite !map2_length, !length_map, len_head, len_mid,
          len_from, len_inner, len_init, len_tail, basis_row_length; lia. }
    unfold bind at 1.
    rewrite map3_lift_rows; reflexivity.
Qed.

End RowFacts.

Lemma nth_map_in {A B} (f : A -> B) l c d d' :
  c < length l -> nth c (map f l) d' = f (nth c l d).
Proof.
  intros H; rewrite (nth_indep _ d' (f d)) by (rewrite length_map; assumption).
  apply map_nth.
Qed.

Section EntryFacts.

Variable fmax : Qc.

Lemma basis_row_0_nth v row c :
  c < length row - 1 ->
  nth c (basis_row fmax v row 0) NaN =
  of_bool (fge v (nth c row NaN) && flt v (nth (c + 1) row NaN)).
Proof.
  intros Hc; rewrite basis_row_0.
  rewrite (nth_map_in of_bool _ false)
    by (rewrite map2_length, !length_map, len_init, len_tail; lia).
  rewrite (map2_nth andb _ _ false false)
    by (rewrite length_map, ?len_init, ?len_tail; lia).
  rewrite (nth_map_in (fge v) _ NaN), (nth_map_in (flt v) _ NaN)
    by (rewrite ?len_init, ?len_tail; lia).
  rewrite nth_init, nth_tail by lia.
  reflexivity.
Qed.

Lemma basis_row_S_nth v row k c :
  c < length row - S k - 1 ->
  nth c (basis_row fmax v row (S k)) NaN =
  nan_to_num fmax (cox_de_boor v row (basis_row fmax v row k) (S k) c).
Proof.
  intros Hc; rewrite basis_row_S.
  set (b := basis_row fmax v row k).
  assert (Lb : length b = length row - k - 1) by apply basis_row_length.
  assert (L5 : length (py_slice None (Some (-1)%Z) b) = length row - S k - 1)
    by (rewrite len_init, Lb; lia).
  assert (L6 : length (py_slice (Some 1%Z) None b) = length row - S k - 1)
    by (rewrite len_tail, Lb; lia).
  rewrite (nth_map_in (nan_to_num fmax) _ NaN)
    by (rewrite !map2_length, !length_map, len_head, len_mid, len_from,
          len_inner, L5, L6; lia).
  f_equal.
  rewrite (map2_nth fadd _ _ NaN NaN)
    by (rewrite !map2_length, ?length_map, ?len_head, ?len_mid, ?len_from,
          ?len_inner, ?L5, ?L6; lia).
  rewrite !(map2_nth fmul _ _ NaN NaN)
    by (rewrite ?map2_length, ?length_map, ?len_head, ?len_mid, ?len_from,
          ?len_inner, ?L5, ?L6; lia).
  rewrite !(map2_nth fdiv _ _ NaN NaN)
    by (rewrite ?map2_length, ?length_map, ?len_head, ?len_mid, ?len_from,
          ?len_inner; lia).
  rewrite !(map2_nth fsub _ _ NaN NaN)
    by (rewrite ?len_head, ?len_mid, ?len_from, ?len_inner; lia).
  rewrite (nth_map_in (fsub v) _ NaN) by (rewrite len_head; lia).
  rewrite (nth_map_in (fun g => fsub g v) _ NaN) by (rewrite len_from; lia).
  rewrite nth_head, nth_mid, nth_from, nth_inner by lia.
  rewrite nth_init, nth_tail by (rewrite Lb; lia).
  reflexivity.
Qed.

End EntryFacts.

(* ================================================================== *)
(** ** Shapes of row tensors *)

Lemma has_shape2_rows_ok x grid B I G :
  has_shape2 x B I -> has_shape2 grid I G -> rows_ok x grid.
Proof.
  intros [_ Hx] [Hg _]; unfold rows_ok.
  eapply Forall_impl; [|exact Hx]; intros xr Hxr; cbv beta in *.
  lia.
Qed.

Lemma lift_rows_shape {A} (g : fl -> tensor1 -> list A) x grid B I G W :
  has_shape2 x B I -> has_shape2 grid I G ->
  (forall v row, length row = G -> length (g v row) = W) ->
  has_shape3 (lift_rows g x grid) B I W.
Proof.
  intros [Hb Hx] [Hi Hg] Hlen; split.
  - unfold lift_rows; rewrite length_map; assumption.
  - unfold lift_rows; rewrite Forall_map.
    eapply Forall_impl; [|exact Hx]; intros xr Hxr; simpl in *.
    split; [rewrite map2_length; lia|].
    unfold map2; rewrite Forall_map, Forall_forall.
    intros [v row] Hin; simpl.
    apply Hlen. rewrite Forall_forall in Hg; apply Hg.
    eapply in_combine_r; exact Hin.
Qed.

Lemma get3_lift_rows (g : fl -> tensor1 -> tensor1) x grid b i c B I G :
  has_shape2 x B I -> has_shape2 grid I G -> b < B -> i < I ->
  get3 (lift_rows g x grid) b i c = nth c (g (get2 x b i) (nth i grid [])) NaN.
Proof.
  intros Hx Hg Hb Hi; unfold get3.
  rewrite lift_rows_nth; [reflexivity | | |].
  - destruct Hx; lia.
  - destruct Hg; lia.
  - eapply has_shape2_rows_ok; eassumption.
Qed.

Lemma has_shape2_row {A} (t : list (list A)) r c i :
  has_shape2 t r c -> i < r -> length (nth i t []) = c.
Proof.
  intros [Hl Hf] Hi; rewrite Forall_forall in Hf; apply Hf, nth_In; lia.
Qed.

(* ================================================================== *)
(** ** Float facts *)

Lemma nan_to_num_finite fmax a : is_finite (nan_to_num fmax a) = true.
Proof. destruct a; reflexivity. Qed.

Lemma nan_to_num_id fmax a : is_finite a = true -> nan_to_num fmax a = a.
Proof. destruct a; simpl; intros H; try discriminate; reflexivity. Qed.

Lemma of_bool_finite b : is_finite (of_bool b) = true.
Proof. reflexivity. Qed.

Lemma fge_flt_false v a : fge v a && flt v a = false.
Proof. unfold fge, flt; destruct (fcompare v a) as [[]|]; reflexivity. Qed.

Lemma fsub_self q : fsub (Finite q) (Finite q) = Finite 0%Qc.
Proof. unfold fsub; simpl; f_equal; apply Qcplus_opp_r. Qed.

Lemma fdiv_zero a : is_finite (fdiv a (Finite 0%Qc)) = false.
Proof.
  destruct a as [p| | |]; simpl; try reflexivity;
    destruct (Qc_eq_dec 0%Qc 0%Qc) as [_|n]; try (exfalso; apply n; reflexivity);
    try reflexivity.
  destruct (p ?= 0)%Qc; reflexivity.
Qed.

Lemma fmul_nonfinite_zero a :
  is_finite a = false -> fmul a (Finite 0%Qc) = NaN.
Proof. destruct a; simpl; intros H; try discriminate; reflexivity. Qed.

Lemma fadd_NaN_l a : fadd NaN a = NaN.
Proof. destruct a; reflexivity. Qed.

Lemma fadd_NaN_r a : fadd a NaN = NaN.
Proof. destruct a; reflexivity. Qed.

Lemma fcompare_Finite_refl q : fcompare (Finite q) (Finite q) = Some Eq.
Proof. simpl; f_equal; apply Qceq_alt; reflexivity. Qed.

Lemma flt_irrefl a : flt a a = false.
Proof.
  unfold flt; destruct a; try reflexivity.
  rewrite fcompare_Finite_refl; reflexivity.
Qed.

(** Reading of the comparisons on finite values. *)
Lemma fge_Finite p q : fge (Finite p) (Finite q) = true <-> (q <= p)%Qc.
Proof.
  unfold fge; simpl. rewrite Qcle_alt.
  unfold Qccompare. rewrite <- (Qcompare_antisym p q).
  destruct (this p ?= this q)%Q; simpl; split; intros H; try reflexivity;
    try discriminate; congruence.
Qed.

Lemma flt_Finite p q : flt (Finite p) (Finite q) = true <-> (p < q)%Qc.
Proof.
  unfold flt; simpl. rewrite Qclt_alt.
  destruct (p ?= q)%Qc; split; intros H; try reflexivity; discriminate.
Qed.

Lemma nondecreasing_nth row i j :
  nondecreasing row = true -> i <= j -> j < length row ->
  exists a b, nth i row NaN = Finite a /\ nth j row NaN = Finite b /\ (a <= b)%Qc.
Proof.
  revert i j; induction row as [|a rest IH]; intros i j Hs Hij Hj;
    [simpl in Hj; lia|].
  simpl in Hs. apply andb_prop in Hs; destruct Hs as [Hs Hrest].
  apply andb_prop in Hs; destruct Hs as [Hfin Hord].
  destruct a as [qa| | |]; try discriminate.
  destruct j as [|j].
  - assert (i = 0) by lia; subst i; simpl.
    exists qa, qa; repeat split; apply Qcle_refl.
  - simpl in Hj. destruct i as [|i].
    + destruct (IH 0 j Hrest ltac:(lia) ltac:(lia)) as (a1 & b & H1 & H2 & Hle).
      destruct rest as [|r0 rest']; [simpl in Hj; lia|].
      simpl in H1; subst r0.
      apply fge_Finite in Hord.
      exists qa, b; repeat split; [exact H2|].
      eapply Qcle_trans; eassumption.
    + simpl. apply IH; [assumption | lia | lia].
Qed.

Lemma nondecreasing_between row i j m :
  nondecreasing row = true -> i <= m -> m <= j -> j < length row ->
  nth i row NaN = nth j row NaN -> nth i row NaN = nth m row NaN.
Proof.
  intros Hs Him Hmj Hj E.
  destruct (nondecreasing_nth row Hs Him ltac:(lia)) as (a & b & Ha & Hb & Hab).
  destruct (nondecreasing_nth row Hs Hmj Hj) as (b' & c & Hb' & Hc & Hbc).
  rewrite Hb in Hb'; inversion Hb'; subst b'.
  rewrite Ha, Hc in E; inversion E; subst c.
  rewrite Ha, Hb; f_equal; apply Qcle_antisym; assumption.
Qed.

Section Degenerate.

Variable fmax : Qc.

(** A basis function whose support [t_c, t_{c+k+1}) is empty is zero. *)
Lemma basis_row_degenerate v row k c :
  nondecreasing row = true ->
  c + k + 1 < length row ->
  nth c row NaN = nth (c + k + 1) row NaN ->
  nth c (basis_row fmax v row k) NaN = Finite 0%Qc.
Proof.
  intros Hs; revert c; induction k as [|k IH]; intros c Hc E.
  - rewrite basis_row_0_nth by lia.
    replace (c + 0 + 1) with (c + 1) in E by lia.
    rewrite <- E, fge_flt_false; reflexivity.
  - rewrite basis_row_S_nth by lia.
    assert (Em : nth c row NaN = nth (c + S k) row NaN).
    { apply nondecreasing_between with (j := c + S k + 1);
        [assumption | lia | lia | assumption | assumption]. }
    destruct (nondecreasing_nth row Hs (Nat.le_refl c) ltac:(lia))
      as (a & _ & Ha & _ & _).
    unfold cox_de_boor.
    rewrite (IH c) by (try lia; replace (c + k + 1) with (c + S k) by lia; exact Em).
    rewrite <- Em, Ha, fsub_self.
    rewrite fmul_nonfinite_zero by apply fdiv_zero.
    rewrite fadd_NaN_l; reflexivity.
Qed.

(** An entry one of whose two denominators is zero is exactly 0. *)
Lemma basis_row_zero_division v row k c :
  nondecreasing row = true ->
  c < length row - S k - 1 ->
  nth (c + S k) row NaN = nth c row NaN \/
  nth (c + S k + 1) row NaN = nth (c + 1) row NaN ->
  nth c (basis_row fmax v row (S k)) NaN = Finite 0%Qc.
Proof.
  intros Hs Hc E.
  rewrite basis_row_S_nth by assumption.
  unfold cox_de_boor.
  destruct E as [E|E].
  - destruct (nondecreasing_nth row Hs (Nat.le_refl c) ltac:(lia))
      as (a & _ & Ha & _ & _).
    rewrite (basis_row_degenerate v row k c Hs)
      by (try lia; replace (c + k + 1) with (c + S k) by lia; congruence).
    rewrite E, Ha, fsub_self.
    rewrite fmul_nonfinite_zero by apply fdiv_zero.
    rewrite fadd_NaN_l; reflexivity.
  - destruct (nondecreasing_nth row Hs (Nat.le_refl (c + 1)) ltac:(lia))
      as (a & _ & Ha & _ & _).
    rewrite (basis_row_degenerate v row k (c + 1) Hs)
      by (try lia; replace (c + 1 + k + 1) with (c + S k + 1) by lia; congruence).
    rewrite E, Ha, fsub_self.
    rewrite fmul_nonfinite_zero by apply fdiv_zero.
    rewrite fadd_NaN_r; reflexivity.
Qed.

Lemma basis_row_finite v row k : all_finite1 (basis_row fmax v row k).
Proof.
  unfold all_finite1; destruct k; simpl basis_row; rewrite Forall_map;
    apply Forall_forall; intros a _;
    [apply of_bool_finite | apply nan_to_num_finite].
Qed.

End Degenerate.

(* ================================================================== *)
(** ** BasisEvaluator *)

Lemma lift_rows_finite fmax x grid k :
  all_finite3 (lift_rows (fun v row => basis_row fmax v row k) x grid).
Proof.
  unfold all_finite3, all_finite2, lift_rows; rewrite Forall_map.
  apply Forall_forall; intros xr _.
  unfold map2; rewrite Forall_map.
  apply Forall_forall; intros p _; apply basis_row_finite.
Qed.

Lemma B_batch_value fmax x grid k extend dev B I G :
  has_shape2 x B I -> has_shape2 grid I G ->
  B_batch fmax x grid k extend dev =
    Some (lift_rows (fun v row => basis_row fmax v row k) x grid) /\
  has_shape3 (lift_rows (fun v row => basis_row fmax v row k) x grid) B I (G - k - 1).
Proof.
  intros Hx Hg; split.
  - apply B_batch_rows; eapply has_shape2_rows_ok; eassumption.
  - eapply lift_rows_shape; try eassumption.
    intros v row Hrow; rewrite basis_row_length, Hrow; reflexivity.
Qed.

(** C1 (amended).  For samples [x] of shape (B, I) and a grid of shape
    (I, G), [B_batch] returns a tensor of shape (B, I, G - k - 1): the
    basis functions are on the last axis and there are G - k - 1 of them
    (none when G <= k + 1); the grid is used as passed, without extension. *)
Theorem B_batch_shape fmax x grid k extend dev B I G :
  has_shape2 x B I -> has_shape2 grid I G ->
  exists value,
    B_batch fmax x grid k extend dev = Some value /\
    has_shape3 value B I (G - k - 1).
Proof.
  intros Hx Hg.
  destruct (B_batch_value fmax k extend dev Hx Hg) as [Hv Hs].
  eexists; split; eassumption.
Qed.

(** C2 (amended).  For order k + 1 > 0, every entry of [B_batch] is
    [nan_to_num] of the Cox-de Boor combination of the order-k entries,
    which are those of [B_batch] on the same [x] and the same [grid]; in
    particular it equals the combination whenever that is finite. *)
Theorem B_batch_cox_de_boor fmax x grid k extend dev B I G :
  has_shape2 x B I -> has_shape2 grid I G ->
  exists Bk Bkm1,
    B_batch fmax x grid (S k) extend dev = Some Bk /\
    B_batch fmax x grid k true cpu = Some Bkm1 /\
    forall b i c, b < B -> i < I -> c < G - S k - 1 ->
      get3 Bk b i c = nan_to_num fmax (cox_de_boor_entry x grid Bkm1 (S k) b i c) /\
      (is_finite (cox_de_boor_entry x grid Bkm1 (S k) b i c) = true ->
       get3 Bk b i c = cox_de_boor_entry x grid Bkm1 (S k) b i c).
Proof.
  intros Hx Hg.
  destruct (B_batch_value fmax (S k) extend dev Hx Hg) as [Hv _].
  destruct (B_batch_value fmax k true cpu Hx Hg) as [Hv' _].
  eexists; eexists; split; [exact Hv | split; [exact Hv'|]].
  intros b i c Hb Hi Hc.
  assert (E : get3 (lift_rows (fun v row => basis_row fmax v row (S k)) x grid) b i c =
              nan_to_num fmax
                (cox_de_boor_entry x grid
                   (lift_rows (fun v row => basis_row fmax v row k) x grid) (S k) b i c)).
  { rewrite (get3_lift_rows _ c Hx Hg Hb Hi).
    rewrite basis_row_S_nth
      by (rewrite (has_shape2_row Hg Hi); assumption).
    unfold cox_de_boor_entry.
    rewrite lift_rows_nth;
      [reflexivity | destruct Hx; lia | destruct Hg; lia
      | eapply has_shape2_rows_ok; eassumption]. }
  split; [exact E|].
  intros Hfin; rewrite E; apply nan_to_num_id; assumption.
Qed.

(** One level of the recursion, entry by entry: the order-(k+1) value is
    [nan_to_num] of the combination of the order-k values that [B_batch]
    returns, which have been through [nan_to_num] themselves. *)
Lemma B_batch_level_entry fmax x grid k B I G b i c :
  has_shape2 x B I -> has_shape2 grid I G ->
  b < B -> i < I -> c < G - S k - 1 ->
  get3 (lift_rows (fun v row => basis_row fmax v row (S k)) x grid) b i c =
  nan_to_num fmax
    (cox_de_boor_entry x grid
       (lift_rows (fun v row => basis_row fmax v row k) x grid) (S k) b i c).
Proof.
  intros Hx Hg Hb Hi Hc.
  rewrite (get3_lift_rows _ c Hx Hg Hb Hi).
  rewrite basis_row_S_nth
    by (rewrite (has_shape2_row Hg Hi); assumption).
  unfold cox_de_boor_entry.
  rewrite lift_rows_nth;
    [reflexivity | destruct Hx; lia | destruct Hg; lia
    | eapply has_shape2_rows_ok; eassumption].
Qed.

(** C5.  For every grid, repeated knots included, and every [x] and [k],
    [B_batch] returns a tensor without NaN and without infinite entries.
    The replacement is done after each level, not only at the top: for
    every j < k the order-j tensor that the recursion computes on the
    way is what [B_batch] returns at order j, free of NaN and infinities,
    and the order-(j+1) tensor is [nan_to_num] of the combination of
    these replaced values.  On a grid whose rows satisfy the Grid
    invariant (finite knots in non-decreasing order), at every order
    k >= 1 every entry one of whose two denominators is zero (a
    degenerate interval) is exactly 0. *)
Theorem B_batch_degenerate_grid_safe fmax x grid k extend dev B I G :
  has_shape2 x B I -> has_shape2 grid I G ->
  exists value,
    B_batch fmax x grid k extend dev = Some value /\
    all_finite3 value /\
    (forall j, j < k ->
       exists level next,
         B_batch fmax x grid j true cpu = Some level /\
         B_batch fmax x grid (S j) extend dev = Some next /\
         all_finite3 level /\
         forall b i c, b < B -> i < I -> c < G - S j - 1 ->
           get3 next b i c =
           nan_to_num fmax (cox_de_boor_entry x grid level (S j) b i c)) /\
    (Forall (fun row => nondecreasing row = true) grid ->
     forall b i c, b < B -> i < I -> 1 <= k -> c < G - k - 1 ->
       get2 grid i (c + k) = get2 grid i c \/
       get2 grid i (c + k + 1) = get2 grid i (c + 1) ->
       get3 value b i c = Finite 0%Qc).
Proof.
  intros Hx Hg.
  destruct (B_batch_value fmax k extend dev Hx Hg) as [Hv _].
  eexists; split; [exact Hv | split; [apply lift_rows_finite | split]].
  - intros j _.
    destruct (B_batch_value fmax j true cpu Hx Hg) as [Hj _].
    destruct (B_batch_value fmax (S j) extend dev Hx Hg) as [HSj _].
    eexists; eexists; split; [exact Hj | split; [exact HSj | split]];
      [apply lift_rows_finite|].
    intros b i c Hb Hi Hc.
    apply (@B_batch_level_entry fmax x grid j B I G b i c Hx Hg Hb Hi Hc).
  - intros Hsorted b i c Hb Hi Hk Hc E.
    destruct k as [|k]; [lia|].
    rewrite (get3_lift_rows _ c Hx Hg Hb Hi).
    apply basis_row_zero_division.
    + rewrite Forall_forall in Hsorted; apply Hsorted, nth_In.
      destruct Hg; lia.
    + rewrite (has_shape2_row Hg Hi); assumption.
    + exact E.
Qed.

(** A row outside the Grid invariant: on the knots 0, 1, 0, 5 at the
    sample 1/2 and order 2 the first quotient is +inf while its factor is
    1/2, and [nan_to_num] turns the infinite sum into the largest finite
    value of the dtype. *)
Lemma B_batch_unsorted_row :
  exists value,
    B_batch float32_max x_half [[qf 0 1; qf 1 1; qf 0 1; qf 5 1]] 2 true cpu =
      Some value /\
    get3 value 0 0 0 = Finite float32_max.
Proof.
  eexists; split; [vm_compute; reflexivity|].
  vm_compute; f_equal; apply Qc_is_canon; reflexivity.
Qed.

(** C7 (amended).  At order 0, for [x] of shape (B, I) and a grid of
    shape (I, G), [B_batch] returns a tensor of shape (B, I, G - 1) whose
    entry (b, i, c) is 1 when [grid[i][c] <= x[b][i] < grid[i][c+1]] and
    0 otherwise; a sample equal to the last knot gives 0 in the top
    interval. *)
Theorem B_batch_order0_indicator fmax x grid extend dev B I G :
  has_shape2 x B I -> has_shape2 grid I G ->
  exists value,
    B_batch fmax x grid 0 extend dev = Some value /\
    has_shape3 value B I (G - 1) /\
    (forall b i c, b < B -> i < I -> c < G - 1 ->
       get3 value b i c =
       of_bool (fge (get2 x b i) (get2 grid i c) &&
                flt (get2 x b i) (get2 grid i (c + 1)))) /\
    (forall b i, b < B -> i < I -> 2 <= G ->
       get2 x b i = get2 grid i (G - 1) ->
       get3 value b i (G - 2) = Finite 0%Qc).
Proof.
  intros Hx Hg.
  destruct (B_batch_value fmax 0 extend dev Hx Hg) as [Hv Hs].
  replace (G - 0 - 1) with (G - 1) in Hs by lia.
  assert (E : forall b i c, b < B -> i < I -> c < G - 1 ->
    get3 (lift_rows (fun v row => basis_row fmax v row 0) x grid) b i c =
    of_bool (fge (get2 x b i) (get2 grid i c) &&
             flt (get2 x b i) (get2 grid i (c + 1)))).
  { intros b i c Hb Hi Hc.
    rewrite (get3_lift_rows _ c Hx Hg Hb Hi).
    rewrite basis_row_0_nth by (rewrite (has_shape2_row Hg Hi); assumption).
    reflexivity. }
  eexists; split; [exact Hv | split; [exact Hs | split; [exact E|]]].
  intros b i Hb Hi HG Hlast.
  rewrite E by lia.
  replace (G - 2 + 1) with (G - 1) by lia.
  rewrite Hlast, flt_irrefl, andb_false_r; reflexivity.
Qed.

(** C10.  The [extend] argument of [B_batch] is never read: the result
    is the same for [extend=True] and [extend=False]. *)
Theorem B_batch_extend_ignored fmax x grid k dev :
  B_batch fmax x grid k true dev = B_batch fmax x grid k false dev.
Proof. destruct k; reflexivity. Qed.

Lemma shape_1_1 (a : fl) : has_shape2 [[a]] 1 1.
Proof. split; [reflexivity | repeat constructor]. Qed.

Lemma shape_1_3 (a b c : fl) : has_shape2 [[a; b; c]] 1 3.
Proof. split; [reflexivity | repeat constructor]. Qed.

(** One spline, one sample, three knots, order 1: shape (1, 1, 1). *)
Lemma B_batch_shape_witness :
  exists value,
    B_batch float32_max x_half grid_012 1 true cpu = Some value /\
    has_shape3 value 1 1 (3 - 1 - 1).
Proof.
  apply (B_batch_shape float32_max 1 true cpu (x := x_half) (grid := grid_012));
    [apply shape_1_1 | apply shape_1_3].
Defined.

(** C1 as stated fails.  With one spline, one sample and G = 3 knots at
    order k = 1 the claim gives C = G + k - 1 = 3 and the shape (1, 3, 1);
    [B_batch] returns a tensor of shape (1, 1, 1). *)
Lemma B_batch_shape_claim_fails :
  exists value,
    B_batch float32_max x_half grid_012 1 true cpu = Some value /\
    ~ has_shape3 value 1 (3 + 1 - 1) 1.
Proof.
  eexists; split; [vm_compute; reflexivity|].
  intros [_ Hs]; inversion Hs as [|m ms [Hlen _] _]; discriminate Hlen.
Qed.

(** The hat function on the knots 0, 1, 2 at the sample 1/2. *)
Lemma B_batch_cox_de_boor_witness :
  exists Bk Bkm1,
    B_batch float32_max x_half grid_012 1 true cpu = Some Bk /\
    B_batch float32_max x_half grid_012 0 true cpu = Some Bkm1 /\
    get3 Bk 0 0 0 =
    nan_to_num float32_max (cox_de_boor_entry x_half grid_012 Bkm1 1 0 0 0).
Proof.
  destruct (B_batch_cox_de_boor float32_max 0 true cpu
              (shape_1_1 (qf 1 2)) (shape_1_3 (qf 0 1) (qf 1 1) (qf 2 1)))
    as (Bk & Bkm1 & H1 & H2 & H3).
  exists Bk, Bkm1; split; [exact H1 | split; [exact H2|]].
  apply (H3 0 0 0); simpl; lia.
Defined.

(** C2 as stated fails on a degenerate grid.  For the knots 0, 0, 1 and
    the sample 0 at order 1 the Cox-de Boor combination is NaN (0/0 in
    its first term) while the entry that [B_batch] returns is 0. *)
Lemma B_batch_cox_de_boor_unclamped_fails :
  exists Bk Bkm1,
    B_batch float32_max x_zero grid_001 1 true cpu = Some Bk /\
    B_batch float32_max x_zero grid_001 0 true cpu = Some Bkm1 /\
    cox_de_boor_entry x_zero grid_001 Bkm1 1 0 0 0 = NaN /\
    get3 Bk 0 0 0 <> cox_de_boor_entry x_zero grid_001 Bkm1 1 0 0 0.
Proof.
  eexists; eexists; split; [vm_compute; reflexivity|].
  split; [vm_compute; reflexivity|].
  split; [vm_compute; reflexivity|].
  vm_compute; discriminate.
Qed.

(** The knots 0, 0, 1, 2 at the sample 1/2 and order 2.  At order 1 the
    first entry has a zero denominator and is 0; the order-2 entry is
    computed from it and is 3/8.  (Were the NaN of order 1 kept and
    replaced only at the top, the order-2 entry would be 0.) *)
Lemma B_batch_degenerate_grid_safe_witness :
  exists value level,
    B_batch float32_max x_half [[qf 0 1; qf 0 1; qf 1 1; qf 2 1]] 2 true cpu =
      Some value /\
    B_batch float32_max x_half [[qf 0 1; qf 0 1; qf 1 1; qf 2 1]] 1 true cpu =
      Some level /\
    all_finite3 value /\ all_finite3 level /\
    get3 level 0 0 0 = Finite 0%Qc /\
    get3 value 0 0 0 =
      nan_to_num float32_max
        (cox_de_boor_entry x_half [[qf 0 1; qf 0 1; qf 1 1; qf 2 1]] level 2 0 0 0) /\
    get3 value 0 0 0 = qf 3 8.
Proof.
  destruct (@B_batch_degenerate_grid_safe float32_max x_half
              [[qf 0 1; qf 0 1; qf 1 1; qf 2 1]] 2 true cpu 1 1 4
              (shape_1_1 (qf 1 2))
              ltac:(split; [reflexivity | repeat constructor]))
    as (value & Hv & Hf & Hlev & _).
  destruct (Hlev 1 ltac:(lia)) as (level & next & Hl & Hn & Hlf & Hent).
  rewrite Hv in Hn; injection Hn as Hn; subst next.
  exists value, level.
  split; [exact Hv | split; [exact Hl | split; [exact Hf | split; [exact Hlf|]]]].
  split; [|split; [apply Hent; simpl; lia|]].
  - vm_compute in Hl; injection Hl as Hl; subst level.
    vm_compute; f_equal; apply Qc_is_canon; reflexivity.
  - vm_compute in Hv; injection Hv as Hv; subst value.
    vm_compute; f_equal; apply Qc_is_canon; reflexivity.
Defined.

(** The knots 0, 1, 2 at the sample 1/2 and order 0. *)
Lemma B_batch_order0_indicator_witness :
  exists value,
    B_batch float32_max x_half grid_012 0 true cpu = Some value /\
    has_shape3 value 1 1 (3 - 1) /\
    get3 value 0 0 0 =
      of_bool (fge (qf 1 2) (qf 0 1) && flt (qf 1 2) (qf 1 1)).
Proof.
  destruct (B_batch_order0_indicator float32_max true cpu
              (shape_1_1 (qf 1 2)) (shape_1_3 (qf 0 1) (qf 1 1) (qf 2 1)))
    as (value & Hv & Hs & He & _).
  exists value; split; [exact Hv | split; [exact Hs|]].
  apply (He 0 0 0); simpl; lia.
Defined.

(** C7 as stated fails in its shape.  With one spline, one sample and
    G = 3 knots the claim gives the shape (S, G - 1, N) = (1, 2, 1);
    [B_batch] returns a tensor of shape (1, 1, 2), the intervals being
    on the last axis. *)
Lemma B_batch_order0_shape_claim_fails :
  exists value,
    B_batch float32_max x_half grid_012 0 true cpu = Some value /\
    ~ has_shape3 value 1 (3 - 1) 1.
Proof.
  eexists; split; [vm_compute; reflexivity|].
  intros [_ Hs]; inversion Hs as [|m ms [Hlen _] _]; discriminate Hlen.
Qed.

(* ================================================================== *)
(** ** GridExtender *)

Lemma py_get_first {A} (l : list A) d :
  l <> [] -> py_get l 0 = Some (hd d l).
Proof. destruct l; [congruence | reflexivity]. Qed.

Lemma py_get_last {A} (l : list A) d :
  l <> [] -> py_get l (-1) = Some (last l d).
Proof.
  intros Hl; unfold py_get.
  assert (Hlen : 0 < length l) by (destruct l; [congruence | simpl; lia]).
  change (-1 <? 0)%Z with true; cbv iota.
  destruct (Z.ltb_spec (-1 + Z.of_nat (length l)) 0); [lia|].
  replace (Z.to_nat (-1 + Z.of_nat (length l))) with (length l - 1) by lia.
  rewrite (nth_error_nth' l d) by lia.
  f_equal; clear -Hl.
  induction l as [|a l IH]; [congruence|].
  destruct l as [|b l]; [reflexivity|].
  change (last (a :: b :: l) d) with (last (b :: l) d).
  rewrite <- IH by congruence. simpl; rewrite Nat.sub_0_r; reflexivity.
Qed.

Lemma last_cons_nonempty {A} (a : A) l d : l <> [] -> last (a :: l) d = last l d.
Proof. destruct l; [congruence | reflexivity]. Qed.

Lemma column_first (ps : list (fl * list fl)) :
  Forall (fun p => snd p <> []) ps ->
  column 0 (map snd ps) = Some (map (fun p => [hd NaN (snd p)]) ps).
Proof.
  intros H; unfold column; rewrite map_map.
  apply sequence_map_Some; intros p Hin.
  rewrite Forall_forall in H.
  rewrite (py_get_first NaN (H p Hin)); reflexivity.
Qed.

Lemma column_last (ps : list (fl * list fl)) :
  Forall (fun p => snd p <> []) ps ->
  column (-1) (map snd ps) = Some (map (fun p => [last (snd p) NaN]) ps).
Proof.
  intros H; unfold column; rewrite map_map.
  apply sequence_map_Some; intros p Hin.
  rewrite Forall_forall in H.
  rewrite (py_get_last NaN (H p Hin)); reflexivity.
Qed.

Lemma bcast2_columns {X} (f : fl -> fl -> fl) (a h : X -> fl) (ps : list X) :
  bcast2 f (map (fun p => [a p]) ps) (map (fun p => [h p]) ps) =
  Some (map (fun p => [f (a p) (h p)]) ps).
Proof.
  unfold bcast2; rewrite bcast_same by (rewrite !length_map; reflexivity).
  apply sequence_map2_maps; intros p _; reflexivity.
Qed.

Lemma cat1_maps {X} (a b : X -> list fl) (ps : list X) :
  cat1 (map a ps) (map b ps) = Some (map (fun p => a p ++ b p) ps).
Proof.
  unfold cat1; rewrite !length_map, Nat.eqb_refl; f_equal.
  induction ps as [|p ps IH]; [reflexivity|].
  unfold map2 in *; simpl; f_equal; exact IH.
Qed.

Lemma extend_step_nonempty h row : extend_step h row <> [].
Proof. unfold extend_step; simpl; discriminate. Qed.

Lemma extend_loop_rows n (ps : list (fl * list fl)) :
  Forall (fun p => snd p <> []) ps ->
  extend_loop n (map (fun p => [fst p]) ps) (map snd ps) =
  Some (map (fun p => extend_row n (fst p) (snd p)) ps).
Proof.
  revert ps; induction n as [|n IH]; intros ps Hne.
  - simpl; f_equal; apply map_ext; reflexivity.
  - simpl extend_loop.
    rewrite (column_first Hne); unfold bind at 1.
    rewrite (bcast2_columns fsub (fun p => hd NaN (snd p)) fst ps).
    unfold bind at 1.
    rewrite (cat1_maps (fun p => [fsub (hd NaN (snd p)) (fst p)]) snd ps).
    unfold bind at 1.
    replace (map (fun p : fl * list fl => [fsub (hd NaN (snd p)) (fst p)] ++ snd p) ps)
      with (map snd (map (fun p : fl * list fl =>
                            (fst p, fsub (hd NaN (snd p)) (fst p) :: snd p)) ps))
      by (rewrite map_map; reflexivity).
    rewrite column_last
      by (rewrite Forall_map; apply Forall_forall; intros; simpl; discriminate).
    unfold bind at 1. rewrite !map_map; simpl snd; simpl fst.
    rewrite (bcast2_columns fadd
               (fun p => last (fsub (hd NaN (snd p)) (fst p) :: snd p) NaN) fst ps).
    unfold bind at 1.
    rewrite (cat1_maps (fun p => fsub (hd NaN (snd p)) (fst p) :: snd p)
               (fun p => [fadd (last (fsub (hd NaN (snd p)) (fst p) :: snd p) NaN)
                               (fst p)]) ps).
    unfold bind at 1.
    replace (map (fun p : fl * list fl =>
                    (fsub (hd NaN (snd p)) (fst p) :: snd p) ++
                    [fadd (last (fsub (hd NaN (snd p)) (fst p) :: snd p) NaN) (fst p)]) ps)
      with (map snd (map (fun p : fl * list fl =>
                            (fst p, extend_step (fst p) (snd p))) ps)).
    2:{ rewrite map_map; apply map_ext_in; intros p Hin.
        rewrite Forall_forall in Hne.
        rewrite (last_cons_nonempty _ NaN (Hne p Hin)); reflexivity. }
    replace (map (fun p : fl * list fl => [fst p]) ps)
      with (map (fun p : fl * list fl => [fst p])
              (map (fun p : fl * list fl => (fst p, extend_step (fst p) (snd p))) ps))
      by (rewrite map_map; reflexivity).
    rewrite IH.
    + rewrite map_map; reflexivity.
    + rewrite Forall_map; apply Forall_forall; intros p _; simpl.
      apply extend_step_nonempty.
Qed.

Lemma extend_row_length n h row :
  length (extend_row n h row) = length row + 2 * n.
Proof.
  revert row; induction n as [|n IH]; intros row; simpl; [lia|].
  rewrite IH; unfold extend_step; rewrite length_app; simpl; lia.
Qed.

Lemma has_shape2_nonempty (grid : tensor2) S G :
  has_shape2 grid S G -> 1 <= G -> Forall (fun row => row <> []) grid.
Proof.
  intros [_ H] HG; eapply Forall_impl; [|exact H].
  intros row Hrow E; subst row; simpl in Hrow; lia.
Qed.

Lemma has_shape2_columns (grid : tensor2) S G :
  has_shape2 grid S G -> 1 <= S -> snd (shape2 grid) = G.
Proof.
  intros [Hl H] HS; destruct grid as [|r g]; [simpl in Hl; lia|].
  inversion H; subst; reflexivity.
Qed.

(** [extend_grid] pads every row on its own, with the step of that row. *)
Lemma extend_grid_rows (grid : tensor2) n S G :
  has_shape2 grid S G -> 1 <= G ->
  extend_grid grid n =
  Some (map (fun row => extend_row n (knot_step G row) row) grid).
Proof.
  intros Hg HG.
  destruct grid as [|r0 g];
    [exact (@extend_loop_rows n [] (Forall_nil _))|].
  assert (Hc : snd (shape2 (r0 :: g)) = G)
    by (apply (has_shape2_columns Hg); destruct Hg as [Hl _]; simpl in Hl; lia).
  pose proof (has_shape2_nonempty Hg HG) as Hne.
  set (grid := r0 :: g) in *.
  unfold extend_grid; rewrite Hc.
  set (ps := map (fun row => (knot_step G row, row)) grid).
  assert (Eg : grid = map snd ps)
    by (unfold ps; rewrite map_map; symmetry; exact (map_id grid)).
  assert (Hps : Forall (fun p : fl * list fl => snd p <> []) ps)
    by (unfold ps; rewrite Forall_map; exact Hne).
  rewrite Eg.
  rewrite (column_last Hps); unfold bind at 1.
  rewrite (column_first Hps); unfold bind at 1.
  rewrite (bcast2_columns fsub (fun p => last (snd p) NaN)
             (fun p => hd NaN (snd p)) ps).
  unfold bind at 1.
  match goal with
  | |- extend_loop n ?h _ = _ =>
      replace h with (map (fun p : fl * list fl => [fst p]) ps)
        by (unfold ps; rewrite !map_map; reflexivity)
  end.
  rewrite extend_loop_rows by exact Hps.
  unfold ps; rewrite !map_map; reflexivity.
Qed.

Lemma fdiv_Finite p q :
  q <> 0%Qc -> fdiv (Finite p) (Finite q) = Finite (p / q)%Qc.
Proof.
  intros H; simpl; destruct (Qc_eq_dec q 0%Qc); [contradiction | reflexivity].
Qed.

Lemma Q2Qc_inject_Z_nonzero z : z <> 0%Z -> Q2Qc (inject_Z z) <> 0%Qc.
Proof.
  intros Hz H; apply Q2Qc_eq_iff in H.
  apply Hz. unfold Qeq, inject_Z in H; simpl in H; lia.
Qed.

Lemma Q2Qc_inject_Z_add a b :
  Q2Qc (inject_Z (a + b)) = (Q2Qc (inject_Z a) + Q2Qc (inject_Z b))%Qc.
Proof.
  apply Qc_is_canon; unfold Qcplus, Q2Qc; cbn [this].
  rewrite !Qred_correct, inject_Z_plus; reflexivity.
Qed.

Lemma all_finite1_hd row :
  all_finite1 row -> row <> [] -> exists f, hd NaN row = Finite f.
Proof.
  intros H Hne; destruct row as [|a row]; [congruence|].
  inversion H as [|? ? Ha _]; subst; destruct a; try discriminate.
  eexists; reflexivity.
Qed.

Lemma all_finite1_last row :
  all_finite1 row -> row <> [] -> exists l, last row NaN = Finite l.
Proof.
  intros H Hne.
  destruct (exists_last Hne) as (row' & a & ->).
  rewrite last_last.
  unfold all_finite1 in H; rewrite Forall_app in H; destruct H as [_ H].
  inversion H as [|? ? Ha _]; subst; destruct a; try discriminate.
  eexists; reflexivity.
Qed.

(** The step of a grid row is unchanged by one round of padding. *)
Lemma knot_step_extend row G :
  length row = G -> 2 <= G -> all_finite1 row ->
  knot_step (G + 2) (extend_step (knot_step G row) row) = knot_step G row.
Proof.
  intros Hlen HG Hfin.
  assert (Hne : row <> []) by (intros ->; simpl in Hlen; lia).
  destruct (all_finite1_hd Hfin Hne) as [f Hf].
  destruct (all_finite1_last Hfin Hne) as [l Hl].
  set (d := Q2Qc (inject_Z (Z.of_nat G - 1))).
  assert (Hd : d <> 0%Qc) by (apply Q2Qc_inject_Z_nonzero; lia).
  assert (Hd2 : (d + Q2Qc (inject_Z 2))%Qc <> 0%Qc).
  { unfold d; rewrite <- Q2Qc_inject_Z_add; apply Q2Qc_inject_Z_nonzero; lia. }
  assert (Eh : knot_step G row = Finite ((l + - f) / d)%Qc).
  { unfold knot_step; rewrite Hf, Hl; unfold fsub, of_Z; simpl fneg; simpl fadd.
    apply fdiv_Finite; exact Hd. }
  rewrite Eh. unfold knot_step at 1, extend_step.
  rewrite last_last, Hf, Hl; simpl hd.
  replace (Z.of_nat (G + 2) - 1)%Z with ((Z.of_nat G - 1) + 2)%Z by lia.
  unfold of_Z; rewrite Q2Qc_inject_Z_add; fold d.
  unfold fsub; simpl fneg; simpl fadd.
  rewrite fdiv_Finite by exact Hd2.
  f_equal. clearbody d.
  replace (Q2Qc (inject_Z 2)) with (1 + 1)%Qc in *
    by (apply Qc_is_canon; reflexivity).
  field; split; assumption.
Qed.

Lemma extend_rows_shape (grid : tensor2) n S G :
  has_shape2 grid S G ->
  has_shape2 (map (fun row => extend_row n (knot_step G row) row) grid)
    S (G + 2 * n).
Proof.
  intros [Hl Hrows]; split; [rewrite length_map; exact Hl|].
  rewrite Forall_map; eapply Forall_impl; [|exact Hrows].
  intros row Hrow; cbv beta in *. rewrite extend_row_length, Hrow; reflexivity.
Qed.

(** C8.  For a grid of shape (S, G) with at least one knot per row (the
    claim's G >= 2 included), [extend_grid] returns a grid of shape
    (S, G + 2 * k_extend).  Each row is padded on its own: the step
    h = (last - first) / (G - 1) is taken from the row as passed, and
    then [k_extend] times the knot [first - h] is put before the current
    first knot and the knot [last + h] after the current last one. *)
Theorem extend_grid_pads (grid : tensor2) k_extend S G :
  has_shape2 grid S G -> 1 <= G ->
  exists result,
    extend_grid grid k_extend = Some result /\
    has_shape2 result S (G + 2 * k_extend) /\
    forall s, s < S ->
      nth s result [] =
      extend_row k_extend (knot_step G (nth s grid [])) (nth s grid []).
Proof.
  intros Hg HG.
  exists (map (fun row => extend_row k_extend (knot_step G row) row) grid).
  split; [apply (extend_grid_rows k_extend Hg HG) | split].
  - apply extend_rows_shape; exact Hg.
  - intros s Hs.
    rewrite (nth_indep _ [] (extend_row k_extend (knot_step G []) []))
      by (rewrite length_map; destruct Hg; lia).
    apply (map_nth (fun row => extend_row k_extend (knot_step G row) row)).
Qed.

(** C9.  For a grid of finite knots with G >= 2 knots per row,
    extending by 1 and extending the result by 1 again gives the grid
    that extending once by 2 gives. *)
Theorem extend_grid_twice (grid : tensor2) S G :
  has_shape2 grid S G -> 2 <= G -> all_finite2 grid ->
  exists g1 g2,
    extend_grid grid 1 = Some g1 /\
    extend_grid g1 1 = Some g2 /\
    extend_grid grid 2 = Some g2.
Proof.
  intros Hg HG Hfin.
  pose proof (extend_rows_shape 1 Hg) as Hs1.
  eexists; eexists; split; [apply (extend_grid_rows 1 Hg); lia | split].
  - rewrite (extend_grid_rows 1 Hs1 ltac:(lia)), map_map; reflexivity.
  - rewrite (extend_grid_rows 2 Hg ltac:(lia)); f_equal.
    apply map_ext_in; intros row Hin.
    destruct Hg as [_ Hrows]; rewrite Forall_forall in Hrows.
    unfold all_finite2 in Hfin; rewrite Forall_forall in Hfin.
    simpl extend_row.
    rewrite (knot_step_extend (Hrows row Hin) HG (Hfin row Hin)); reflexivity.
Qed.

(** The knots 0, 1, 5 extended twice. *)
Lemma extend_grid_pads_witness :
  exists result,
    extend_grid grid_015 2 = Some result /\
    has_shape2 result 1 (3 + 2 * 2) /\
    nth 0 result [] =
      extend_row 2 (knot_step 3 (nth 0 grid_015 [])) (nth 0 grid_015 []).
Proof.
  destruct (@extend_grid_pads grid_015 2 1 3
              (shape_1_3 (qf 0 1) (qf 1 1) (qf 5 1)) ltac:(lia))
    as (result & H1 & H2 & H3).
  exists result; split; [exact H1 | split; [exact H2 | apply H3; lia]].
Defined.

(** The knots 0, 1, 5: one and one round against two rounds. *)
Lemma extend_grid_twice_witness :
  exists g1 g2,
    extend_grid grid_015 1 = Some g1 /\
    extend_grid g1 1 = Some g2 /\
    extend_grid grid_015 2 = Some g2.
Proof.
  apply (@extend_grid_twice grid_015 1 3 (shape_1_3 (qf 0 1) (qf 1 1) (qf 5 1)));
    [lia | repeat constructor].
Defined.

(* ================================================================== *)
(** ** CurveEvaluator *)

Lemma map2_as_seq {A B C} (f : A -> B -> C) l1 l2 n da db :
  length l1 = n -> length l2 = n ->
  map2 f l1 l2 = map (fun c => f (nth c l1 da) (nth c l2 db)) (seq 0 n).
Proof.
  intros H1 H2.
  apply (nth_ext _ _ (f da db) (f da db)).
  - rewrite map2_length, length_map, length_seq; lia.
  - intros c Hc; rewrite map2_length in Hc.
    rewrite (map2_nth f l1 l2 da db) by lia.
    rewrite (nth_map_in (fun c => f (nth c l1 da) (nth c l2 db)) _ 0)
      by (rewrite length_seq; lia).
    rewrite seq_nth by lia; reflexivity.
Qed.

Lemma has_shape3_slab {A} (t : list (list (list A))) a b c i :
  has_shape3 t a b c -> i < a -> has_shape2 (nth i t []) b c.
Proof.
  intros [Hl Hf] Hi; rewrite Forall_forall in Hf; apply Hf, nth_In; lia.
Qed.

Lemma einsum_value (a b : tensor3) N I O C :
  has_shape3 a N I C -> has_shape3 b I O C ->
  einsum_ijk_jlk_ijl a b = Some (contract a b).
Proof.
  intros [_ Ha] [Hb Hbs]; unfold einsum_ijk_jlk_ijl, contract.
  apply sequence_map_Some; intros a_i Hin.
  rewrite Forall_forall in Ha; destruct (Ha a_i Hin) as [Hai Hais].
  rewrite bcast_same by lia.
  apply sequence_map2_Some; intros a_ij b_j Hpair.
  apply sequence_map_Some; intros b_jl Hl.
  rewrite Forall_forall in Hais, Hbs.
  pose proof (Hais a_ij (in_combine_l _ _ _ _ Hpair)) as H1.
  destruct (Hbs b_j (in_combine_r _ _ _ _ Hpair)) as [_ H2].
  rewrite Forall_forall in H2; pose proof (H2 b_jl Hl) as H3.
  cbv beta in *.
  rewrite bcast1_same by lia; reflexivity.
Qed.

Lemma contract_shape (a b : tensor3) N I O C :
  has_shape3 a N I C -> has_shape3 b I O C ->
  has_shape3 (contract a b) N I O.
Proof.
  intros [Hn Ha] [Hb Hbs]; unfold contract; split;
    [rewrite length_map; exact Hn|].
  rewrite Forall_map; eapply Forall_impl; [|exact Ha].
  intros a_i [Hai _]; cbv beta; split; [rewrite map2_length; lia|].
  unfold map2; rewrite Forall_map; apply Forall_forall; intros [a_ij b_j] Hpair.
  cbv beta; simpl fst; simpl snd; rewrite length_map.
  rewrite Forall_forall in Hbs.
  destruct (Hbs b_j (in_combine_r _ _ _ _ Hpair)) as [H _]; exact H.
Qed.

Lemma contract_entry (a b : tensor3) N I O C n i o :
  has_shape3 a N I C -> has_shape3 b I O C ->
  n < N -> i < I -> o < O ->
  get3 (contract a b) n i o =
  fsum (map (fun c => fmul (get3 a n i c) (get3 b i o c)) (seq 0 C)).
Proof.
  intros Ha Hb Hn Hi Ho; unfold get3, contract.
  pose proof (has_shape3_slab Ha Hn) as [Han Hans].
  pose proof (has_shape3_slab Hb Hi) as [Hbi Hbis].
  pose proof (proj1 Hb) as Hbl.
  rewrite (nth_map_in _ _ []) by (destruct Ha; lia).
  rewrite (map2_nth _ _ _ [] []) by lia.
  rewrite (nth_map_in _ _ []) by lia.
  f_equal.
  apply map2_as_seq.
  - rewrite Forall_forall in Hans; apply Hans, nth_In; lia.
  - rewrite Forall_forall in Hbis; apply Hbis, nth_In; lia.
Qed.

(** The value of [coef2curve] at an order k >= 1, where [B_batch]
    returns a float tensor. *)
Lemma coef2curve_value fmax x_eval grid coef k dev N I G O :
  has_shape2 x_eval N I -> has_shape2 grid I G ->
  has_shape3 coef I O (G - k - 1) -> 1 <= k ->
  coef2curve fmax x_eval grid coef k dev =
  Some (contract (lift_rows (fun v row => basis_row fmax v row k) x_eval grid)
          coef).
Proof.
  intros Hx Hg Hc Hk.
  destruct (B_batch_value fmax k true cpu Hx Hg) as [HB HBs].
  unfold coef2curve; rewrite HB; unfold bind.
  destruct k as [|k]; [lia|].
  apply (einsum_value HBs Hc).
Qed.

(** C3 (amended).  For samples [x_eval] of shape (N, I) (sample-major),
    a grid of shape (I, G), an order k >= 1 and coefficients of shape
    (I, O, C) with C = G - k - 1 the basis count of [B_batch],
    [coef2curve] returns a tensor of shape (N, I, O) with
    y[n][i][o] = sum over c of B[n][i][c] * coef[i][o][c],
    where B = B_batch(x_eval, grid, k). *)
Theorem coef2curve_sum fmax x_eval grid coef k dev N I G O :
  has_shape2 x_eval N I -> has_shape2 grid I G ->
  has_shape3 coef I O (G - k - 1) -> 1 <= k ->
  exists y B,
    coef2curve fmax x_eval grid coef k dev = Some y /\
    B_batch fmax x_eval grid k true cpu = Some B /\
    has_shape3 y N I O /\
    forall n i o, n < N -> i < I -> o < O ->
      get3 y n i o =
      fsum (map (fun c => fmul (get3 B n i c) (get3 coef i o c))
                (seq 0 (G - k - 1))).
Proof.
  intros Hx Hg Hc Hk.
  destruct (B_batch_value fmax k true cpu Hx Hg) as [HB HBs].
  exists (contract (lift_rows (fun v row => basis_row fmax v row k) x_eval grid) coef).
  eexists; split; [|split; [exact HB | split]].
  - apply (@coef2curve_value fmax x_eval grid coef k dev N I G O Hx Hg Hc Hk).
  - apply (contract_shape HBs Hc).
  - intros n i o Hn Hi Ho; apply (contract_entry HBs Hc Hn Hi Ho).
Qed.

(** One spline with one basis function and two output channels. *)
Lemma coef2curve_sum_witness :
  exists y B,
    coef2curve float32_max x_half grid_012 [[[qf 3 1]; [qf 5 1]]] 1 cpu = Some y /\
    B_batch float32_max x_half grid_012 1 true cpu = Some B /\
    has_shape3 y 1 1 2 /\
    get3 y 0 0 1 =
    fsum (map (fun c => fmul (get3 B 0 0 c) (get3 [[[qf 3 1]; [qf 5 1]]] 0 1 c))
              (seq 0 (3 - 1 - 1))).
Proof.
  destruct (@coef2curve_sum float32_max x_half grid_012 [[[qf 3 1]; [qf 5 1]]]
              1 cpu 1 1 3 2 (shape_1_1 (qf 1 2))
              (shape_1_3 (qf 0 1) (qf 1 1) (qf 2 1)))
    as (y & B & H1 & H2 & H3 & H4).
  { split; [reflexivity | repeat constructor]. }
  { lia. }
  exists y, B; split; [exact H1 | split; [exact H2 | split; [exact H3|]]].
  apply H4; lia.
Defined.

(** C3 as stated fails in its shape.  With one spline, one sample and
    two output channels the claim gives the shape (S, out_dim, N) =
    (1, 2, 1); [coef2curve] returns a tensor of shape (1, 1, 2), the
    output channels being on the last axis. *)
Lemma coef2curve_shape_claim_fails :
  exists y,
    coef2curve float32_max x_half grid_012 [[[qf 3 1]; [qf 5 1]]] 1 cpu = Some y /\
    ~ has_shape3 y 1 2 1.
Proof.
  eexists; split; [vm_compute; reflexivity|].
  intros [_ Hs]; inversion Hs as [|m ms [Hlen _] _]; discriminate Hlen.
Qed.

(* ================================================================== *)
(** ** Least squares over the rationals *)

Lemma Qc_sq_nonneg (a : Qc) : (0 <= a * a)%Qc.
Proof.
  destruct (Qclt_le_dec a 0) as [Hneg|Hpos].
  - assert (H : (0 <= - a)%Qc).
    { apply Qclt_le_weak in Hneg; apply Qcopp_le_compat in Hneg.
      replace (- 0)%Qc with 0%Qc in Hneg by ring; exact Hneg. }
    replace (a * a)%Qc with (- a * - a)%Qc by ring.
    replace 0%Qc with (0 * - a)%Qc at 1 by ring.
    apply Qcmult_le_compat_r; assumption.
  - replace 0%Qc with (0 * a)%Qc at 1 by ring.
    apply Qcmult_le_compat_r; assumption.
Qed.

Lemma Qc_sq_zero (a : Qc) : (a * a = 0)%Qc -> a = 0%Qc.
Proof. intros H; destruct (Qcmult_integral _ _ H); assumption. Qed.

Lemma Qc_sum_nonneg (a b : Qc) : (0 <= a -> 0 <= b -> 0 <= a + b)%Qc.
Proof.
  intros Ha Hb; replace 0%Qc with (0 + 0)%Qc at 1 by ring.
  apply Qcplus_le_compat; assumption.
Qed.

Lemma Qc_sum_zero (a b : Qc) :
  (0 <= a -> 0 <= b -> a + b <= 0 -> a = 0 /\ b = 0)%Qc.
Proof.
  intros Ha Hb Hab; split; apply Qcle_antisym; try assumption.
  - eapply Qcle_trans; [|exact Hab].
    replace a with (a + 0)%Qc at 1 by ring.
    apply Qcplus_le_compat; [apply Qcle_refl | assumption].
  - eapply Qcle_trans; [|exact Hab].
    replace b with (0 + b)%Qc at 1 by ring.
    apply Qcplus_le_compat; [assumption | apply Qcle_refl].
Qed.

Lemma sum_nonneg (l : list Qc) :
  Forall (fun a => 0 <= a)%Qc l -> (0 <= fold_right Qcplus 0 l)%Qc.
Proof.
  induction 1 as [|a l Ha _ IH]; simpl; [apply Qcle_refl|].
  apply Qc_sum_nonneg; assumption.
Qed.

Lemma sum_zero (l : list Qc) :
  Forall (fun a => 0 <= a)%Qc l -> (fold_right Qcplus 0 l <= 0)%Qc ->
  Forall (fun a => a = 0%Qc) l.
Proof.
  induction 1 as [|a l Ha Hl IH]; simpl; intros H; constructor;
    destruct (Qc_sum_zero Ha (sum_nonneg Hl) H) as [E1 E2]; [exact E1|].
  apply IH; rewrite E2; apply Qcle_refl.
Qed.

Lemma squares_nonneg {X} (g : X -> Qc) (l : list X) :
  Forall (fun a => 0 <= a)%Qc (map (fun p => g p * g p)%Qc l).
Proof. rewrite Forall_map; apply Forall_forall; intros; apply Qc_sq_nonneg. Qed.

Lemma residual_nonneg A y c : (0 <= residual A y c)%Qc.
Proof. unfold residual, map2; apply sum_nonneg, squares_nonneg. Qed.

Lemma residual_zero_rows A y c :
  (residual A y c <= 0)%Qc ->
  forall row y_n, In (row, y_n) (combine A y) -> dotq row c = y_n.
Proof.
  unfold residual, map2; intros H row y_n Hin.
  pose proof (sum_zero (squares_nonneg _ _) H) as Hz.
  rewrite Forall_map, Forall_forall in Hz.
  pose proof (Qc_sq_zero (Hz _ Hin)) as E; simpl in E.
  replace (dotq row c) with (dotq row c - y_n + y_n)%Qc by ring.
  rewrite E; ring.
Qed.

Lemma residual_exact A c :
  residual A (map (fun row => dotq row c) A) c = 0%Qc.
Proof.
  unfold residual, map2.
  induction A as [|row A IH]; simpl; [reflexivity|].
  rewrite IH; ring.
Qed.

Lemma dotq_nil_r a : dotq a [] = 0%Qc.
Proof. destruct a; reflexivity. Qed.

Lemma dotq_cons a row x c :
  dotq (a :: row) (x :: c) = (a * x + dotq row c)%Qc.
Proof. reflexivity. Qed.

Lemma dotq_sub row c' c :
  length c' = length c ->
  dotq row (map2 Qcminus c' c) = (dotq row c' - dotq row c)%Qc.
Proof.
  revert c' c; induction row as [|a row IH]; intros c' c Hlen.
  - unfold dotq; simpl; ring.
  - destruct c' as [|x c'], c as [|z c]; try (simpl in Hlen; lia).
    + change (map2 Qcminus [] []) with (@nil Qc).
      rewrite !dotq_nil_r; ring.
    + change (map2 Qcminus (x :: c') (z :: c))
        with ((x - z)%Qc :: map2 Qcminus c' c).
      rewrite !dotq_cons, IH by (simpl in Hlen; lia); ring.
Qed.

Lemma sub_zero_eq (c' c : list Qc) :
  length c' = length c ->
  Forall (fun a => a = 0%Qc) (map2 Qcminus c' c) -> c' = c.
Proof.
  revert c; induction c' as [|x c' IH]; intros [|z c] Hlen H;
    try discriminate; [reflexivity|].
  change (map2 Qcminus (x :: c') (z :: c))
    with ((x - z)%Qc :: map2 Qcminus c' c) in H.
  inversion H as [|? ? E Hrest]; subst.
  f_equal; [|apply IH; [simpl in Hlen; lia | exact Hrest]].
  replace x with (x - z + z)%Qc by ring; rewrite E; ring.
Qed.

(** With full column rank, the least-squares solution of an exactly
    solvable system is its exact solution. *)
Lemma least_squares_unique A C c c' :
  full_column_rank A C -> length c = C -> length c' = C ->
  least_squares A (map (fun row => dotq row c) A) c' ->
  c' = c.
Proof.
  intros Hrank Hc Hc' Hls.
  pose proof (Hls c ltac:(lia)) as Hle.
  rewrite residual_exact in Hle.
  pose proof (residual_zero_rows _ _ _ Hle) as Hrows.
  apply sub_zero_eq; [lia|].
  apply Hrank; [rewrite map2_length; lia|].
  intros row Hin.
  rewrite dotq_sub by lia.
  rewrite (Hrows row (dotq row c)); [ring|].
  clear -Hin; induction A as [|r A IH]; [contradiction|].
  simpl; destruct Hin as [->|Hin]; [left; reflexivity | right; apply IH, Hin].
Qed.

(** Finite floats compute with their rationals. *)
Lemma all_finite1_map_fq (l : tensor1) :
  all_finite1 l -> l = map Finite (map fq l).
Proof.
  induction 1 as [|a l Ha _ IH]; [reflexivity|].
  destruct a; try discriminate; simpl; f_equal; exact IH.
Qed.

Lemma finite_eq (l1 l2 : tensor1) :
  all_finite1 l1 -> all_finite1 l2 -> map fq l1 = map fq l2 -> l1 = l2.
Proof.
  intros H1 H2 E.
  rewrite (all_finite1_map_fq H1), (all_finite1_map_fq H2), E; reflexivity.
Qed.

Lemma fsum_fmul_finite (a b : tensor1) :
  all_finite1 a -> all_finite1 b ->
  fsum (map2 fmul a b) = Finite (dotq (map fq a) (map fq b)).
Proof.
  intros Ha; revert b; induction Ha as [|x a Hx _ IH]; intros b Hb.
  - reflexivity.
  - destruct Hb as [|z b Hz Hb]; [reflexivity|].
    destruct x, z; try discriminate.
    change (map2 fmul (Finite q :: a) (Finite q0 :: b))
      with (Finite (q * q0)%Qc :: map2 fmul a b).
    simpl fsum; rewrite (IH b Hb); reflexivity.
Qed.

(* ================================================================== *)
(** ** CoefficientSolver *)

Lemma tabulate {A} (l : list A) n d :
  length l = n -> map (fun i => nth i l d) (seq 0 n) = l.
Proof.
  intros H; apply (nth_ext _ _ d d).
  - rewrite length_map, length_seq; lia.
  - intros i Hi; rewrite length_map, length_seq in Hi.
    rewrite (nth_map_in (fun i => nth i l d) _ 0) by (rewrite length_seq; exact Hi).
    rewrite seq_nth by exact Hi; reflexivity.
Qed.

Lemma map2_maps {X A B C} (f : A -> B -> C) (p : X -> A) (q : X -> B) l :
  map2 f (map p l) (map q l) = map (fun a => f (p a) (q a)) l.
Proof.
  induction l as [|a l IH]; [reflexivity|].
  unfold map2 in *; simpl; f_equal; exact IH.
Qed.

Lemma map2_repeat {A B C} (f : A -> B -> C) a l n :
  length l = n -> map2 f (repeat a n) l = map (f a) l.
Proof.
  revert n; induction l as [|b l IH]; intros [|n] H; try discriminate;
    [reflexivity|].
  unfold map2 in *; simpl; f_equal; apply IH; simpl in H; lia.
Qed.

Lemma zipM_same {A B C} (f : A -> B -> option C) l1 l2 :
  length l1 = length l2 -> zipM f l1 l2 = sequence (map2 f l1 l2).
Proof. intros H; unfold zipM; rewrite H, Nat.eqb_refl; reflexivity. Qed.

Lemma expand_axis_same {A} (l : list A) n :
  length l = n -> expand_axis (Z.of_nat n) l = Some l.
Proof.
  intros H; unfold expand_axis.
  destruct (Z.eqb_spec (Z.of_nat n) (-1)); [lia|].
  destruct (Z.ltb_spec (Z.of_nat n) 0); [lia|].
  destruct (Z.eqb_spec (Z.of_nat (length l)) (Z.of_nat n)); [reflexivity | lia].
Qed.

Lemma expand_axis_single {A} (a : A) n :
  expand_axis (Z.of_nat n) [a] = Some (repeat a n).
Proof.
  unfold expand_axis.
  destruct (Z.eqb_spec (Z.of_nat n) (-1)); [lia|].
  destruct (Z.ltb_spec (Z.of_nat n) 0); [lia|].
  destruct (Z.eqb_spec (Z.of_nat (length [a])) (Z.of_nat n)) as [E|E].
  - simpl in E; assert (n = 1) by lia; subst n; reflexivity.
  - rewrite Nat2Z.id; reflexivity.
Qed.

Lemma sequence_map_id {A} (f : A -> option A) l :
  (forall a, In a l -> f a = Some a) -> sequence (map f l) = Some l.
Proof.
  intros H; rewrite (sequence_map_Some f (fun a => a) l H), map_id; reflexivity.
Qed.

Lemma expand4_design (D : nat -> tensor2) I O N C :
  (forall j, j < I -> has_shape2 (D j) N C) ->
  expand4 (Z.of_nat I) (Z.of_nat O) (Z.of_nat N) (Z.of_nat C)
    (map (fun j => [D j]) (seq 0 I)) =
  Some (map (fun j => repeat (D j) O) (seq 0 I)).
Proof.
  intros HD; unfold expand4.
  rewrite expand_axis_same by (rewrite length_map, length_seq; reflexivity).
  unfold bind at 1; rewrite map_map.
  apply sequence_map_Some; intros j Hj; apply in_seq in Hj.
  rewrite expand_axis_single; unfold bind at 1.
  apply sequence_map_id; intros m Hm; apply repeat_spec in Hm; subst m.
  destruct (HD j ltac:(lia)) as [Hl Hrows].
  rewrite (expand_axis_same _ Hl); unfold bind.
  apply sequence_map_id; intros row Hrow.
  rewrite Forall_forall in Hrows.
  apply expand_axis_same, Hrows, Hrow.
Qed.

Lemma shape3_of {A} (t : list (list (list A))) a b c :
  has_shape3 t a b c -> 1 <= a -> 1 <= b -> shape3 t = (a, b, c).
Proof.
  intros [Hl Hf] Ha Hb; unfold shape3.
  destruct t as [|m t]; [simpl in Hl; lia|].
  inversion Hf as [|? ? [Hm Hrows] _]; subst; simpl.
  destruct m as [|r m]; [simpl in Hb; lia|].
  inversion Hrows; subst; reflexivity.
Qed.

Lemma shape2_of {A} (t : list (list A)) r c :
  has_shape2 t r c -> 1 <= r -> shape2 t = (r, c).
Proof.
  intros [Hl Hf] Hr; unfold shape2.
  destruct t as [|m t]; [simpl in Hl; lia|].
  inversion Hf; subst; reflexivity.
Qed.

Lemma permute_102_design (B : tensor3) N I C :
  has_shape3 B N I C -> 1 <= N ->
  permute_102 B = map (design_matrix B) (seq 0 I).
Proof.
  intros [Hl Hf] HN; unfold permute_102, design_matrix, shape3; simpl.
  destruct B as [|m B]; [simpl in Hl; lia|].
  inversion Hf as [|? ? [Hm _] _]; subst; reflexivity.
Qed.

Lemma permute_120_target (y : tensor3) N I O :
  has_shape3 y N I O -> 1 <= N -> 1 <= I ->
  unsqueeze3 (permute_120 y) =
  map (fun j => map (fun l => target_column y j l) (seq 0 O)) (seq 0 I).
Proof.
  intros Hy HN HI; unfold permute_120, unsqueeze3.
  rewrite (shape3_of Hy HN HI); simpl fst; simpl snd.
  rewrite map_map; apply map_ext; intros j.
  rewrite map_map; apply map_ext; intros l.
  unfold target_column; rewrite map_map; reflexivity.
Qed.

Lemma design_shape (B : tensor3) N I C j :
  has_shape3 B N I C -> j < I -> has_shape2 (design_matrix B j) N C.
Proof.
  intros [Hl Hf] Hj; unfold design_matrix; split;
    [rewrite length_map; exact Hl|].
  rewrite Forall_map; eapply Forall_impl; [|exact Hf].
  intros B_n HBn; cbv beta in *. apply (has_shape2_row HBn Hj).
Qed.

Lemma design_finite (B : tensor3) N I C j :
  has_shape3 B N I C -> all_finite3 B -> j < I ->
  all_finite2 (design_matrix B j).
Proof.
  intros [_ Hf] Hfin Hj; unfold design_matrix, all_finite2.
  rewrite Forall_map, Forall_forall; intros B_n Hin.
  unfold all_finite3 in Hfin; rewrite Forall_forall in Hf, Hfin.
  pose proof (Hfin B_n Hin) as H; unfold all_finite2 in H.
  rewrite Forall_forall in H; apply H, nth_In.
  destruct (Hf B_n Hin); lia.
Qed.

Lemma target_contract (B coef : tensor3) N I O C j l :
  has_shape3 B N I C -> has_shape3 coef I O C -> j < I -> l < O ->
  target_column (contract B coef) j l =
  map (fun B_n => [fsum (map2 fmul (nth j B_n []) (nth l (nth j coef []) []))]) B.
Proof.
  intros [_ HB] Hc Hj Hl; unfold target_column, contract.
  rewrite map_map; apply map_ext_in; intros B_n Hin.
  rewrite Forall_forall in HB; destruct (HB B_n Hin) as [HBn _].
  pose proof (proj1 Hc) as Hcl.
  pose proof (has_shape3_slab Hc Hj) as [Hcj _].
  rewrite (map2_nth _ _ _ [] []) by lia.
  rewrite (nth_map_in _ _ []) by lia.
  reflexivity.
Qed.

Lemma has_shape3_row {A} (t : list (list (list A))) a b c i j :
  has_shape3 t a b c -> i < a -> j < b -> length (nth j (nth i t []) []) = c.
Proof.
  intros Ht Hi Hj; apply (has_shape2_row (has_shape3_slab Ht Hi) Hj).
Qed.

Lemma all_finite3_row (t : tensor3) a b c i j :
  has_shape3 t a b c -> all_finite3 t -> i < a -> j < b ->
  all_finite1 (nth j (nth i t []) []).
Proof.
  intros Ht Hfin Hi Hj.
  pose proof (has_shape3_slab Ht Hi) as [Hl _].
  unfold all_finite3 in Hfin; rewrite Forall_forall in Hfin.
  assert (H : all_finite2 (nth i t [])) by (apply Hfin, nth_In; destruct Ht; lia).
  unfold all_finite2 in H; rewrite Forall_forall in H.
  apply H, nth_In; lia.
Qed.

Section Solver.

Variable lstsq : driver -> tensor2 -> tensor2 -> option tensor2.
Hypothesis lstsq_ok : lstsq_contract lstsq.

(** The solution for one pair of a spline and an output channel is the
    coefficient row the curve was computed from. *)
Lemma pair_solution (B coef : tensor3) drv N I O C j l X :
  has_shape3 B N I C -> all_finite3 B ->
  has_shape3 coef I O C -> all_finite3 coef ->
  j < I -> l < O ->
  full_column_rank (rationals (design_matrix B j)) C ->
  lstsq drv (design_matrix B j) (target_column (contract B coef) j l) = Some X ->
  map (fun r => nth 0 r NaN) X = nth l (nth j coef []) [].
Proof.
  intros HB HBfin Hc Hcfin Hj Hl Hrank Hsolve.
  set (row := nth l (nth j coef []) []) in *.
  assert (Hrow : length row = C) by (apply (has_shape3_row Hc Hj Hl)).
  assert (Hrowfin : all_finite1 row) by (apply (all_finite3_row Hc Hcfin Hj Hl)).
  assert (HT : target_column (contract B coef) j l =
               map (fun B_n => [Finite (dotq (map fq (nth j B_n [])) (map fq row))]) B).
  { rewrite (target_contract HB Hc Hj Hl).
    apply map_ext_in; intros B_n Hin.
    rewrite fsum_fmul_finite; [reflexivity | | exact Hrowfin].
    pose proof (design_finite HB HBfin Hj) as HD.
    unfold all_finite2, design_matrix in HD; rewrite Forall_map, Forall_forall in HD.
    apply HD, Hin. }
  rewrite HT in Hsolve.
  assert (Hs2 : has_shape2
            (map (fun B_n : list (list fl) =>
                    [Finite (dotq (map fq (nth j B_n [])) (map fq row))]) B) N 1).
  { split; [rewrite length_map; destruct HB; assumption|].
    rewrite Forall_map; apply Forall_forall; intros; reflexivity. }
  assert (Hf2 : all_finite2
            (map (fun B_n : list (list fl) =>
                    [Finite (dotq (map fq (nth j B_n [])) (map fq row))]) B)).
  { unfold all_finite2; rewrite Forall_map; apply Forall_forall; intros.
    repeat constructor. }
  destruct (lstsq_ok (design_shape HB Hj) Hs2
              (design_finite HB HBfin Hj) Hf2 Hrank Hsolve)
    as (HX & HXfin & Hls).
  assert (Ecol : column0 (map (fun B_n : list (list fl) =>
                    [Finite (dotq (map fq (nth j B_n [])) (map fq row))]) B) =
                 map (fun r => dotq r (map fq row)) (rationals (design_matrix B j))).
  { unfold column0, rationals, design_matrix; rewrite !map_map; reflexivity. }
  rewrite Ecol in Hls.
  assert (E : column0 X = map fq row).
  { apply (@least_squares_unique _ C (map fq row) (column0 X) Hrank);
      [rewrite length_map; exact Hrow
      | unfold column0; rewrite length_map; destruct HX; assumption
      | exact Hls]. }
  apply finite_eq; [| exact Hrowfin | rewrite map_map; exact E].
  unfold all_finite1; rewrite Forall_map.
  destruct HX as [_ HXrows].
  unfold all_finite2 in HXfin.
  rewrite Forall_forall in HXrows, HXfin |- *.
  intros r Hr; pose proof (HXrows r Hr) as Hlen; pose proof (HXfin r Hr) as Hf.
  destruct r as [|a [|b r]]; try discriminate.
  inversion Hf; assumption.
Qed.

End Solver.

Lemma tabulate2 {A} (t : list (list (list A))) a b c :
  has_shape3 t a b c ->
  map (fun j => map (fun l => nth l (nth j t []) []) (seq 0 b)) (seq 0 a) = t.
Proof.
  intros Ht.
  transitivity (map (fun j => nth j t []) (seq 0 a));
    [|apply tabulate; exact (proj1 Ht)].
  apply map_ext_in; intros j Hj; apply in_seq in Hj.
  apply tabulate. destruct (has_shape3_slab Ht (i := j)) as [H _]; [lia | exact H].
Qed.

(** [curve2coef] at an order k >= 1, where the basis tensor is a float
    tensor, as a table of solver calls: one call per pair of a spline
    [j] and an output channel [l], on the basis values of spline [j] at
    all samples and the curve values of the pair at all samples, with
    the driver [gels] whatever the device is, and column 0 of each
    answer. *)
Lemma curve2coef_pairs_float fmax lstsq x_eval (y_eval : list (list (list fl)))
    grid k dev N I G O :
  has_shape2 x_eval N I -> has_shape3 y_eval N I O -> has_shape2 grid I G ->
  1 <= N -> 1 <= I -> 1 <= k -> k + 1 <= G ->
  curve2coef fmax lstsq x_eval y_eval grid k dev =
  (coef <- sequence
             (map (fun j =>
                     sequence
                       (map (fun l =>
                               lstsq gels
                                 (design_matrix
                                    (lift_rows (fun v row => basis_row fmax v row k)
                                       x_eval grid) j)
                                 (target_column y_eval j l))
                            (seq 0 O)))
                  (seq 0 I)) ;;
   Some (map (map (map (fun r => nth 0 r NaN))) coef)).
Proof.
  intros Hx Hy Hg HN HI Hk HG.
  destruct (B_batch_value fmax k true cpu Hx Hg) as [HB HBs].
  set (B := lift_rows (fun v row => basis_row fmax v row k) x_eval grid) in *.
  set (C := G - k - 1) in *.
  unfold curve2coef.
  change (py_eq (torch_device dev) (py_str "cpu")) with false; cbv iota.
  rewrite (shape2_of Hx HN), (shape2_of Hg HI), (shape3_of Hy HN HI).
  simpl fst; simpl snd.
  rewrite HB; unfold bind at 1.
  rewrite (permute_102_design HBs HN), map_map.
  replace (Z.of_nat G - Z.of_nat k - 1)%Z with (Z.of_nat C) by (unfold C; lia).
  rewrite (expand4_design (design_matrix B) O)
    by (intros j Hj; apply (design_shape HBs Hj)).
  unfold bind at 1.
  rewrite (permute_120_target Hy HN HI).
  destruct k as [|k]; [lia|].
  unfold linalg_lstsq; cbv iota beta; simpl B_batch_dtype; cbv iota.
  rewrite zipM_same by (rewrite !length_map; reflexivity).
  rewrite map2_maps.
  f_equal; f_equal.
  apply map_ext_in; intros j Hj.
  rewrite zipM_same by (rewrite repeat_length, length_map, length_seq; reflexivity).
  rewrite map2_repeat by (rewrite length_map, length_seq; reflexivity).
  rewrite map_map; reflexivity.
Qed.

(** The answers of the solver, pair by pair, when it returns on all of
    them. *)
Lemma curve2coef_answers fmax lstsq x_eval (y_eval : list (list (list fl)))
    grid k dev N I G O (X : nat -> nat -> list (list fl)) :
  has_shape2 x_eval N I -> has_shape3 y_eval N I O -> has_shape2 grid I G ->
  1 <= N -> 1 <= I -> 1 <= k -> k + 1 <= G ->
  (forall i o, i < I -> o < O ->
     lstsq gels
       (design_matrix (lift_rows (fun v row => basis_row fmax v row k) x_eval grid) i)
       (target_column y_eval i o) = Some (X i o)) ->
  curve2coef fmax lstsq x_eval y_eval grid k dev =
  Some (map (fun i =>
               map (fun o => map (fun r => nth 0 r NaN) (X i o)) (seq 0 O))
            (seq 0 I)).
Proof.
  intros Hx Hy Hg HN HI Hk HG Hsolve.
  rewrite (curve2coef_pairs_float fmax lstsq dev Hx Hy Hg HN HI Hk HG).
  rewrite (sequence_map_Some _ (fun j => map (fun l => X j l) (seq 0 O))).
  - unfold bind; f_equal.
    rewrite map_map; apply map_ext; intros j.
    rewrite map_map; reflexivity.
  - intros j Hj; apply in_seq in Hj.
    apply sequence_map_Some; intros l Hl; apply in_seq in Hl.
    apply Hsolve; lia.
Qed.


(* ================================================================== *)
(** ** A solver that meets the contract *)

Lemma fl_eqb_eq a b : fl_eqb a b = true -> a = b.
Proof.
  destruct a, b; simpl; try discriminate; try reflexivity.
  destruct (Qc_eq_dec q q0); [intros _; f_equal; assumption | discriminate].
Qed.

Lemma residual_zero_of_rows A y c :
  (forall p, In p (combine A y) -> dotq (fst p) c = snd p) ->
  residual A y c = 0%Qc.
Proof.
  unfold residual, map2.
  induction (combine A y) as [|p l IH]; intros H; simpl; [reflexivity|].
  rewrite (H p (or_introl eq_refl)), IH by (intros; apply H; right; assumption).
  ring.
Qed.

Lemma combine_maps {A B A' B'} (f : A -> A') (g : B -> B') l1 l2 :
  combine (map f l1) (map g l2) =
  map (fun p => (f (fst p), g (snd p))) (combine l1 l2).
Proof.
  revert l2; induction l1 as [|a l1 IH]; intros [|b l2]; simpl;
    try reflexivity.
  f_equal; apply IH.
Qed.

Lemma solve_one_unknown_contract : lstsq_contract solve_one_unknown.
Proof.
  intros drv A b X N C HA Hb HAfin Hbfin _ Hsolve.
  unfold solve_one_unknown in Hsolve.
  destruct A as [|[|a [|a' r]] A']; try discriminate.
  destruct b as [|[|y [|y' s]] b']; try discriminate.
  set (c := fdiv y a) in *.
  destruct (is_finite c) eqn:Hc; [|discriminate].
  destruct (length ([a] :: A') =? length ([y] :: b')) eqn:Hlen; [|discriminate].
  match type of Hsolve with
  | context [forallb ?f ?l] => destruct (forallb f l) eqn:Hall; [|discriminate]
  end.
  inversion Hsolve; subst X; clear Hsolve.
  assert (HC : C = 1).
  { destruct HA as [_ HA]; inversion HA as [|? ? H1 _]; subst; reflexivity. }
  subst C.
  split; [split; [reflexivity | repeat constructor]|].
  split; [repeat constructor; exact Hc|].
  intros c' _.
  rewrite residual_zero_of_rows; [apply residual_nonneg|].
  intros p Hp.
  unfold rationals, column0 in Hp; rewrite combine_maps in Hp.
  apply in_map_iff in Hp; destruct Hp as (p0 & <- & Hp0).
  rewrite forallb_forall in Hall; pose proof (Hall p0 Hp0) as Hrow.
  destruct p0 as [[|a_n [|? ?]] [|y_n [|? ?]]]; simpl in Hrow; try discriminate.
  apply andb_prop in Hrow; destruct Hrow as [Hrow Heq].
  apply andb_prop in Hrow; destruct Hrow as [Han Hyn].
  apply fl_eqb_eq in Heq.
  destruct a_n as [qa| | |], y_n as [qy| | |], c as [qc| | |]; try discriminate.
  simpl in Heq; inversion Heq; subst qy.
  unfold dotq, column0; simpl; ring.
Qed.



(* ================================================================== *)
(** ** Underdetermined systems *)

Lemma target_shape (y : list (list (list fl))) N I O i o :
  has_shape3 y N I O -> has_shape2 (target_column y i o) N 1.
Proof.
  intros [Hl _]; unfold target_column; split;
    [rewrite length_map; exact Hl|].
  rewrite Forall_map; apply Forall_forall; intros; reflexivity.
Qed.

Lemma target_finite (y : list (list (list fl))) N I O i o :
  has_shape3 y N I O -> all_finite3 y -> i < I -> o < O ->
  all_finite2 (target_column y i o).
Proof.
  intros [_ Hs] Hfin Hi Ho; unfold target_column, all_finite2.
  rewrite Forall_map, Forall_forall; intros y_n Hin.
  unfold all_finite3 in Hfin; rewrite Forall_forall in Hs, Hfin.
  destruct (Hs y_n Hin) as [Hl Hrows].
  pose proof (Hfin y_n Hin) as Hf; unfold all_finite2 in Hf.
  rewrite Forall_forall in Hrows, Hf.
  assert (Hrow : In (nth i y_n []) y_n) by (apply nth_In; lia).
  pose proof (Hf _ Hrow) as Hf1; unfold all_finite1 in Hf1.
  rewrite Forall_forall in Hf1.
  repeat constructor; apply Hf1, nth_In; rewrite (Hrows _ Hrow); exact Ho.
Qed.

(** Column 0 of an answer of shape (C, 1). *)
Lemma answer_column (X : list (list fl)) C :
  has_shape2 X C 1 -> all_finite2 X ->
  length (map (fun r => nth 0 r NaN) X) = C /\
  all_finite1 (map (fun r => nth 0 r NaN) X) /\
  map fq (map (fun r => nth 0 r NaN) X) = column0 X.
Proof.
  intros [Hl Hrows] Hfin; split; [rewrite length_map; exact Hl | split].
  - unfold all_finite1; rewrite Forall_map.
    unfold all_finite2 in Hfin.
    rewrite Forall_forall in Hrows, Hfin |- *.
    intros r Hr; pose proof (Hrows r Hr) as Hlen; pose proof (Hfin r Hr) as Hf.
    destruct r as [|a [|b r]]; try discriminate.
    inversion Hf; assumption.
  - rewrite map_map; reflexivity.
Qed.


Lemma Qc_div_nonneg (x d : Qc) : (0 <= x -> 0 < d -> 0 <= x / d)%Qc.
Proof.
  intros Hx Hd.
  assert (Hne : d <> 0%Qc) by (intros E; subst d; apply (Qclt_not_eq _ _ Hd); reflexivity).
  apply (Qcmult_lt_0_le_reg_r _ _ d Hd).
  replace (0 * d)%Qc with 0%Qc by ring.
  replace (x / d * d)%Qc with x by (field; exact Hne).
  exact Hx.
Qed.

(** The closest point of a line to the origin: Cauchy-Schwarz in the
    plane. *)
Lemma closest_point_norm (a1 a2 c1 c2 : Qc) :
  (a1 * a1 + a2 * a2)%Qc <> 0%Qc ->
  let s := (a1 * a1 + a2 * a2)%Qc in
  let y := (a1 * c1 + a2 * c2)%Qc in
  ((y * a1 / s) * (y * a1 / s) + (y * a2 / s) * (y * a2 / s) <=
   c1 * c1 + c2 * c2)%Qc.
Proof.
  intros Hs s y.
  assert (Hpos : (0 < s)%Qc).
  { destruct (Qcle_lt_or_eq 0 s) as [H|H];
      [apply Qc_sum_nonneg; apply Qc_sq_nonneg | exact H
      | exfalso; apply Hs; symmetry; exact H]. }
  apply (proj2 (Qcle_minus_iff _ _)).
  replace (c1 * c1 + c2 * c2 +
           - ((y * a1 / s) * (y * a1 / s) + (y * a2 / s) * (y * a2 / s)))%Qc
    with (((a1 * c2 - a2 * c1) * (a1 * c2 - a2 * c1)) / s)%Qc
    by (unfold y, s; field; exact Hs).
  apply Qc_div_nonneg; [apply Qc_sq_nonneg | exact Hpos].
Qed.

Lemma solve_one_equation_contract : min_norm_contract solve_one_equation.
Proof.
  intros A b X N C HA Hb HAfin Hbfin Hsolve.
  unfold solve_one_equation in Hsolve.
  destruct A as [|[|[a1| | |] [|[a2| | |] [|? ?]]] [|? ?]]; try discriminate.
  destruct b as [|[|[y| | |] [|? ?]] [|? ?]]; try discriminate.
  cbv zeta in Hsolve.
  destruct (Qc_eq_dec (a1 * a1 + a2 * a2) 0) as [|Hs]; [discriminate|].
  inversion Hsolve; subst X; clear Hsolve.
  assert (HC : C = 2).
  { destruct HA as [_ HA]; inversion HA as [|? ? H1 _]; subst; reflexivity. }
  subst C.
  set (s := (a1 * a1 + a2 * a2)%Qc) in *.
  assert (Ezero : residual [[a1; a2]] [y] [(y * a1 / s)%Qc; (y * a2 / s)%Qc] = 0%Qc).
  { unfold residual, map2, dotq; simpl.
    replace (a1 * (y * a1 / s) + (a2 * (y * a2 / s) + 0) - y)%Qc with 0%Qc
      by (unfold s; field; exact Hs).
    ring. }
  split; [split; [reflexivity | repeat constructor]|].
  split; [repeat constructor|].
  change (rationals [[Finite a1; Finite a2]]) with [[a1; a2]].
  change (column0 [[Finite y]]) with [y].
  change (column0 [[Finite (y * a1 / s)%Qc]; [Finite (y * a2 / s)%Qc]])
    with [(y * a1 / s)%Qc; (y * a2 / s)%Qc].
  split.
  - intros c' _; rewrite Ezero; apply residual_nonneg.
  - intros c' Hlen Hls.
    destruct c' as [|c1 [|c2 [|? ?]]]; try discriminate.
    pose proof (Hls [(y * a1 / s)%Qc; (y * a2 / s)%Qc] eq_refl) as Hle.
    rewrite Ezero in Hle.
    pose proof (residual_zero_rows _ _ _ Hle [a1; a2] y (or_introl eq_refl)) as Ey.
    unfold dotq in Ey; simpl in Ey.
    assert (Ey' : y = (a1 * c1 + a2 * c2)%Qc) by (rewrite <- Ey; ring).
    unfold norm2, dotq; simpl.
    rewrite !Qcplus_0_r.
    rewrite Ey'; apply closest_point_norm; exact Hs.
Qed.



(* ================================================================== *)
(** ** Further properties of the BasisEvaluator *)

Lemma bcast_mismatch {A B C} (f : A -> B -> option C) l1 l2 :
  length l1 <> length l2 -> length l1 <> 1 -> length l2 <> 1 ->
  bcast f l1 l2 = None.
Proof.
  intros H H1 H2; unfold bcast.
  destruct (Nat.eqb_spec (length l1) (length l2)); [contradiction|].
  destruct l1 as [|a [|a' l1]]; [| exfalso; apply H1; reflexivity |];
    (destruct l2 as [|b [|b' l2]]; [| exfalso; apply H2; reflexivity |]);
    try reflexivity; exfalso; apply H; reflexivity.
Qed.

Lemma bcast3_samples_mismatch {C} (f : fl -> fl -> C) (x : list (list fl))
    (gs : list (list fl)) B I :
  has_shape2 x B I -> 1 <= B ->
  I <> length gs -> I <> 1 -> length gs <> 1 ->
  bcast3 f (unsqueeze2 x) [gs] = None.
Proof.
  intros [Hl Hrows] HB Hne H1 H2.
  destruct x as [|xr x]; [simpl in Hl; lia|].
  inversion Hrows as [|? ? Hxr _]; subst.
  unfold bcast3, unsqueeze2; rewrite bcast_single_r.
  simpl map; simpl sequence.
  replace (bcast2 f (map (fun v => [v]) xr) gs) with (@None (list (list C)));
    [reflexivity|].
  symmetry; apply bcast_mismatch; rewrite ?length_map; assumption.
Qed.

(** X1.  When the number of samples per row of [x] differs from the
    number of grid rows and neither is 1, [B_batch] raises, at every
    order. *)
Theorem B_batch_rows_mismatch fmax x grid k extend dev B I :
  has_shape2 x B I -> 1 <= B ->
  I <> length grid -> I <> 1 -> length grid <> 1 ->
  B_batch fmax x grid k extend dev = None.
Proof.
  intros Hx HB Hne H1 H2; revert extend dev.
  induction k as [|k IH]; intros extend dev.
  - rewrite B_batch_0.
    rewrite (bcast3_samples_mismatch fge _ Hx HB)
      by (rewrite ?length_map; assumption).
    reflexivity.
  - rewrite B_batch_S, index_unsqueeze2, IH; reflexivity.
Qed.

(** Three samples per row against a grid of two rows. *)
Lemma B_batch_rows_mismatch_witness :
  B_batch float32_max [[qf 0 1; qf 1 1; qf 2 1]]
    [[qf 0 1; qf 1 1]; [qf 0 1; qf 1 1]] 1 true cpu = None.
Proof.
  apply (@B_batch_rows_mismatch float32_max _ _ 1 true cpu 1 3
           (shape_1_3 (qf 0 1) (qf 1 1) (qf 2 1)));
    simpl; lia.
Defined.

(** X2.  The entries for a sample and a spline depend on that sample and
    on that spline's knot row only: equal samples against equal knot
    rows give equal basis values, wherever they stand in the batch. *)
Theorem B_batch_entries_independent fmax x grid x' grid' k B I B' I' G
    b i b' i' :
  has_shape2 x B I -> has_shape2 grid I G ->
  has_shape2 x' B' I' -> has_shape2 grid' I' G ->
  b < B -> i < I -> b' < B' -> i' < I' ->
  get2 x b i = get2 x' b' i' ->
  nth i grid [] = nth i' grid' [] ->
  exists value value',
    B_batch fmax x grid k true cpu = Some value /\
    B_batch fmax x' grid' k true cpu = Some value' /\
    forall c, get3 value b i c = get3 value' b' i' c.
Proof.
  intros Hx Hg Hx' Hg' Hb Hi Hb' Hi' Ev Er.
  destruct (B_batch_value fmax k true cpu Hx Hg) as [Hv _].
  destruct (B_batch_value fmax k true cpu Hx' Hg') as [Hv' _].
  eexists; eexists; split; [exact Hv | split; [exact Hv'|]].
  intros c.
  rewrite (get3_lift_rows _ c Hx Hg Hb Hi).
  rewrite (get3_lift_rows _ c Hx' Hg' Hb' Hi').
  rewrite Ev, Er; reflexivity.
Qed.

(** The sample 1/2 of the first spline of one batch and of the second
    spline of another, both on the knots 0, 1, 2. *)
Lemma B_batch_entries_independent_witness :
  exists value value',
    B_batch float32_max x_half grid_012 1 true cpu = Some value /\
    B_batch float32_max [[qf 3 2; qf 1 2]]
      [[qf 0 1; qf 1 1; qf 5 1]; [qf 0 1; qf 1 1; qf 2 1]] 1 true cpu =
      Some value' /\
    forall c, get3 value 0 0 c = get3 value' 0 1 c.
Proof.
  apply (@B_batch_entries_independent float32_max x_half grid_012
           [[qf 3 2; qf 1 2]]
           [[qf 0 1; qf 1 1; qf 5 1]; [qf 0 1; qf 1 1; qf 2 1]]
           1 1 1 1 2 3 0 0 0 1);
    try (split; [reflexivity | repeat constructor]);
    try lia; reflexivity.
Defined.

(** X3.  Extension and evaluation together: on a grid of G >= 1 knots
    per row extended by [k] on both sides, the order-[k] evaluation has
    G + k - 1 basis functions per spline (the count the docstring of
    [B_batch] gives). *)
Theorem B_batch_on_extended_grid fmax x grid k extend dev B I G :
  has_shape2 x B I -> has_shape2 grid I G -> 1 <= G ->
  exists extended value,
    extend_grid grid k = Some extended /\
    B_batch fmax x extended k extend dev = Some value /\
    has_shape3 value B I (G + k - 1).
Proof.
  intros Hx Hg HG.
  pose proof (extend_rows_shape k Hg) as Hs.
  destruct (B_batch_value fmax k extend dev Hx Hs) as [Hv Hvs].
  eexists; eexists; split; [apply (extend_grid_rows k Hg HG) | split].
  - exact Hv.
  - replace (G + k - 1) with (G + 2 * k - k - 1) by lia; exact Hvs.
Qed.

(** Five knots extended by 3 at order 3: 5 + 3 - 1 = 7 basis functions. *)
Lemma B_batch_on_extended_grid_witness :
  exists extended value,
    extend_grid [[qf 0 1; qf 1 1; qf 2 1; qf 3 1; qf 4 1]] 3 = Some extended /\
    B_batch float32_max [[qf 5 2]] extended 3 true cpu = Some value /\
    has_shape3 value 1 1 (5 + 3 - 1).
Proof.
  apply (@B_batch_on_extended_grid float32_max [[qf 5 2]]
           [[qf 0 1; qf 1 1; qf 2 1; qf 3 1; qf 4 1]] 3 true cpu 1 1 5);
    try (split; [reflexivity | repeat constructor]); lia.
Defined.

(* ------------------------------------------------------------------ *)
(** *** Comparisons against finite knots *)

Lemma fge_down v a b :
  (a <= b)%Qc -> fge v (Finite b) = true -> fge v (Finite a) = true.
Proof.
  intros Hab; destruct v as [q| | |]; try (intros H; exact H || discriminate H).
  rewrite !fge_Finite; intros H; eapply Qcle_trans; eassumption.
Qed.

Lemma flt_up v a b :
  (a <= b)%Qc -> flt v (Finite a) = true -> flt v (Finite b) = true.
Proof.
  intros Hab; destruct v as [q| | |]; try (intros H; exact H || discriminate H).
  rewrite !flt_Finite; intros H; eapply Qclt_le_trans; eassumption.
Qed.

Lemma fge_true_flt_false v a : fge v a = true -> flt v a = false.
Proof.
  intros H; pose proof (fge_flt_false v a) as E; rewrite H in E; exact E.
Qed.

(** A value that is at least one knot and not at least another is below it. *)
Lemma fge_false_flt v a b :
  fge v (Finite a) = true -> fge v (Finite b) = false -> flt v (Finite b) = true.
Proof.
  destruct v as [q| | |]; try discriminate.
  intros _ H; apply flt_Finite.
  destruct (Qclt_le_dec q b) as [Hlt|Hle]; [exact Hlt|].
  apply fge_Finite in Hle; congruence.
Qed.

(** Inside an interval, the value is a finite number. *)
Lemma inside_finite v a b :
  fge v (Finite a) = true -> flt v (Finite b) = true ->
  exists q, v = Finite q /\ (a <= q)%Qc /\ (q < b)%Qc.
Proof.
  destruct v as [q| | |]; try discriminate.
  intros H1 H2; exists q; split; [reflexivity|].
  split; [apply fge_Finite | apply flt_Finite]; assumption.
Qed.

Lemma of_bool_add_l b : fadd (Finite 0%Qc) (of_bool b) = of_bool b.
Proof. unfold of_bool; simpl; f_equal; ring. Qed.

Lemma of_bool_add_r b : fadd (of_bool b) (Finite 0%Qc) = of_bool b.
Proof. unfold of_bool; simpl; f_equal; ring. Qed.

(* ------------------------------------------------------------------ *)
(** *** Order 0: the indicators of a row *)

Lemma py_slice_init {A} (l : list A) :
  py_slice None (Some (-1)%Z) l = removelast l.
Proof.
  unfold py_slice.
  replace (slice_start (length l) None) with 0 by reflexivity.
  replace (slice_stop (length l) (Some (-1)%Z)) with (length l - 1) by bounds.
  rewrite Nat.sub_0_r; simpl skipn.
  rewrite removelast_firstn_len; f_equal; lia.
Qed.

Lemma py_slice_tail {A} (l : list A) :
  py_slice (Some 1%Z) None l = tl l.
Proof.
  unfold py_slice.
  destruct l as [|a l]; [reflexivity|].
  replace (slice_start (length (a :: l)) (Some 1%Z)) with 1 by (simpl length; bounds).
  simpl slice_stop; simpl skipn; simpl tl.
  replace (S (length l) - 1) with (length l) by lia.
  apply firstn_all.
Qed.

Lemma basis_row_0_cons fmax v a b rest :
  basis_row fmax v (a :: b :: rest) 0 =
  of_bool (fge v a && flt v b) :: basis_row fmax v (b :: rest) 0.
Proof.
  rewrite !basis_row_0, !py_slice_init, !py_slice_tail; reflexivity.
Qed.

Lemma basis_row_0_single fmax v a : basis_row fmax v [a] 0 = [].
Proof. rewrite basis_row_0, py_slice_init, py_slice_tail; reflexivity. Qed.

Lemma nondecreasing_cons a rest :
  nondecreasing (a :: rest) = true -> nondecreasing rest = true.
Proof. simpl; intros H; apply andb_prop in H; apply H. Qed.

Lemma last_as_nth {A} (l : list A) d : last l d = nth (length l - 1) l d.
Proof.
  induction l as [|a l IH]; [reflexivity|].
  destruct l as [|b l]; [reflexivity|].
  change (last (a :: b :: l) d) with (last (b :: l) d); rewrite IH.
  simpl; rewrite Nat.sub_0_r; reflexivity.
Qed.

Lemma fsum_cons a l : fsum (a :: l) = fadd a (fsum l).
Proof. reflexivity. Qed.

(** The indicators of a row of non-decreasing knots add up to the
    indicator of the whole span. *)
Lemma indicator_sum fmax v row :
  nondecreasing row = true -> row <> [] ->
  fsum (basis_row fmax v row 0) =
  of_bool (fge v (hd NaN row) && flt v (last row NaN)).
Proof.
  induction row as [|a rest IH]; intros Hs Hne; [congruence|].
  destruct rest as [|b rest].
  - rewrite basis_row_0_single; simpl hd; simpl last.
    rewrite fge_flt_false; reflexivity.
  - rewrite basis_row_0_cons, fsum_cons.
    rewrite (IH (nondecreasing_cons _ _ Hs)) by discriminate.
    simpl hd. change (last (a :: b :: rest) NaN) with (last (b :: rest) NaN).
    destruct (nondecreasing_nth (a :: b :: rest) Hs (i := 0) (j := 1))
      as (qa & qb & Ea & Eb & Hab); [lia | simpl; lia|].
    simpl in Ea, Eb; subst a b.
    destruct (nondecreasing_nth (Finite qb :: rest)
                (nondecreasing_cons _ _ Hs) (i := 0)
                (j := length (Finite qb :: rest) - 1))
      as (qb' & ql & Eb & El & Hbl); [lia | simpl; lia|].
    rewrite <- last_as_nth in El; rewrite El.
    simpl in Eb; inversion Eb; subst qb'.
    destruct (fge v (Finite qb)) eqn:Hb.
    + rewrite (fge_down v Hab Hb), (fge_true_flt_false _ _ Hb).
      simpl andb; apply of_bool_add_l.
    + simpl andb. rewrite of_bool_add_r.
      destruct (fge v (Finite qa)) eqn:Ha; [|reflexivity].
      pose proof (@fge_false_flt v qa qb Ha Hb) as Hlt.
      rewrite Hlt, (flt_up v Hbl Hlt); reflexivity.
Qed.

Lemma hd_as_nth {A} (l : list A) d : hd d l = nth 0 l d.
Proof. destruct l; reflexivity. Qed.

Lemma sorted_row (grid : list (list fl)) I G i :
  has_shape2 grid I G ->
  Forall (fun row => nondecreasing row = true) grid -> i < I ->
  nondecreasing (nth i grid []) = true /\ length (nth i grid []) = G.
Proof.
  intros Hg Hs Hi; split; [|apply (has_shape2_row Hg Hi)].
  rewrite Forall_forall in Hs; apply Hs, nth_In; destruct Hg; lia.
Qed.

(** X4.  At order 0, on non-decreasing knots, the basis values of a
    sample add up to 1 when the sample lies in [first knot, last knot)
    and to 0 otherwise: inside the grid exactly one indicator is 1, and
    a sample at or beyond the last knot (or NaN) selects none. *)
Theorem B_batch_order0_partition fmax x grid extend dev B I G :
  has_shape2 x B I -> has_shape2 grid I G -> 1 <= G ->
  Forall (fun row => nondecreasing row = true) grid ->
  exists value,
    B_batch fmax x grid 0 extend dev = Some value /\
    forall b i, b < B -> i < I ->
      fsum (nth i (nth b value []) []) =
      of_bool (fge (get2 x b i) (get2 grid i 0) &&
               flt (get2 x b i) (get2 grid i (G - 1))).
Proof.
  intros Hx Hg HG Hs.
  destruct (B_batch_value fmax 0 extend dev Hx Hg) as [Hv _].
  eexists; split; [exact Hv|].
  intros b i Hb Hi.
  destruct (sorted_row Hg Hs Hi) as [Hrow Hlen].
  rewrite lift_rows_nth;
    [| destruct Hx; lia | destruct Hg; lia
     | eapply has_shape2_rows_ok; eassumption].
  rewrite indicator_sum by (try assumption; intros E; rewrite E in Hlen; simpl in Hlen; lia).
  rewrite hd_as_nth, last_as_nth, Hlen; reflexivity.
Qed.

(** The knots 0, 1, 2 at the sample 1/2. *)
Lemma B_batch_order0_partition_witness :
  exists value,
    B_batch float32_max x_half grid_012 0 true cpu = Some value /\
    fsum (nth 0 (nth 0 value []) []) =
    of_bool (fge (qf 1 2) (qf 0 1) && flt (qf 1 2) (qf 2 1)).
Proof.
  destruct (@B_batch_order0_partition float32_max x_half grid_012 true cpu 1 1 3
              (shape_1_1 (qf 1 2)) (shape_1_3 (qf 0 1) (qf 1 1) (qf 2 1)))
    as (value & Hv & Hsum); [lia | repeat constructor|].
  exists value; split; [exact Hv | apply (Hsum 0 0); lia].
Defined.

(* ------------------------------------------------------------------ *)
(** *** Local support *)

Lemma fmul_zero_r a : fmul a (Finite 0%Qc) = Finite 0%Qc \/ fmul a (Finite 0%Qc) = NaN.
Proof.
  destruct a as [p| | |]; simpl; auto.
  left; f_equal; ring.
Qed.

Lemma clamp_zero_terms fmax a a' :
  nan_to_num fmax (fadd (fmul a (Finite 0%Qc)) (fmul a' (Finite 0%Qc))) =
  Finite 0%Qc.
Proof.
  destruct (fmul_zero_r a) as [-> | ->], (fmul_zero_r a') as [-> | ->];
    simpl; try reflexivity; f_equal; ring.
Qed.

(** A basis function vanishes outside its support [t_c, t_{c+k+1}). *)
Lemma basis_row_support fmax v row k c :
  nondecreasing row = true ->
  c + k + 1 < length row ->
  fge v (nth c row NaN) && flt v (nth (c + k + 1) row NaN) = false ->
  nth c (basis_row fmax v row k) NaN = Finite 0%Qc.
Proof.
  intros Hs; revert c; induction k as [|k IH]; intros c Hc H.
  - rewrite basis_row_0_nth by lia.
    replace (c + 0 + 1) with (c + 1) in H by lia.
    rewrite H; reflexivity.
  - rewrite basis_row_S_nth by lia.
    unfold cox_de_boor.
    destruct (nondecreasing_nth row Hs (i := c) (j := c + 1))
      as (q0 & q1 & E0 & E1 & H01); [lia | lia|].
    destruct (nondecreasing_nth row Hs (i := c + k + 1) (j := c + S k + 1))
      as (q2 & q3 & E2 & E3 & H23); [lia | lia|].
    rewrite E0, E3 in H.
    rewrite (IH c), (IH (c + 1)); [apply clamp_zero_terms | lia | | lia |].
    + replace (c + 1 + k + 1) with (c + S k + 1) by lia.
      rewrite E1, E3.
      destruct (flt v (Finite q3)) eqn:H3; [|apply andb_false_r].
      rewrite andb_true_r in H |- *.
      destruct (fge v (Finite q1)) eqn:H1; [|reflexivity].
      rewrite (fge_down v H01 H1) in H; discriminate.
    + rewrite E0, E2.
      destruct (fge v (Finite q0)) eqn:H0; [|reflexivity].
      simpl andb in H |- *.
      destruct (flt v (Finite q2)) eqn:H2; [|reflexivity].
      rewrite (flt_up v H23 H2) in H; discriminate.
Qed.

(** X5.  Local support.  On non-decreasing knots the basis function
    [c] of order [k] is 0 at every sample outside [t_c, t_{c+k+1}):
    below [t_c], at or above [t_{c+k+1}], or NaN. *)
Theorem B_batch_local_support fmax x grid k extend dev B I G :
  has_shape2 x B I -> has_shape2 grid I G ->
  Forall (fun row => nondecreasing row = true) grid ->
  exists value,
    B_batch fmax x grid k extend dev = Some value /\
    forall b i c, b < B -> i < I -> c < G - k - 1 ->
      fge (get2 x b i) (get2 grid i c) &&
      flt (get2 x b i) (get2 grid i (c + k + 1)) = false ->
      get3 value b i c = Finite 0%Qc.
Proof.
  intros Hx Hg Hs.
  destruct (B_batch_value fmax k extend dev Hx Hg) as [Hv _].
  eexists; split; [exact Hv|].
  intros b i c Hb Hi Hc H.
  destruct (sorted_row Hg Hs Hi) as [Hrow Hlen].
  rewrite (get3_lift_rows _ c Hx Hg Hb Hi).
  apply basis_row_support; [exact Hrow | rewrite Hlen; lia | exact H].
Qed.

(** The hat function on 0, 1, 2 at the sample 5/2, beyond its support. *)
Lemma B_batch_local_support_witness :
  exists value,
    B_batch float32_max [[qf 5 2]] grid_012 1 true cpu = Some value /\
    get3 value 0 0 0 = Finite 0%Qc.
Proof.
  destruct (@B_batch_local_support float32_max [[qf 5 2]] grid_012 1 true cpu 1 1 3
              (shape_1_1 (qf 5 2)) (shape_1_3 (qf 0 1) (qf 1 1) (qf 2 1)))
    as (value & Hv & Hz); [repeat constructor|].
  exists value; split; [exact Hv|].
  apply Hz; [lia | lia | simpl; lia | reflexivity].
Defined.

(* ------------------------------------------------------------------ *)
(** *** Non-negativity *)

Lemma Qc_mul_nonneg (x y : Qc) : (0 <= x -> 0 <= y -> 0 <= x * y)%Qc.
Proof.
  intros Hx Hy; replace 0%Qc with (0 * y)%Qc at 1 by ring.
  apply Qcmult_le_compat_r; assumption.
Qed.

Lemma Qc_0_le_1 : (0 <= 1)%Qc.
Proof. unfold Qcle, Qle; simpl; lia. Qed.

Lemma nonneg_or_nan_add a b :
  nonneg_or_nan a -> nonneg_or_nan b -> nonneg_or_nan (fadd a b).
Proof.
  intros [->|(r & -> & Hr)] [->|(s & -> & Hs)]; simpl;
    try (left; reflexivity).
  right; eexists; split; [reflexivity | apply Qc_sum_nonneg; assumption].
Qed.

Lemma nonneg_or_nan_clamp fmax a :
  nonneg_or_nan a -> exists r, nan_to_num fmax a = Finite r /\ (0 <= r)%Qc.
Proof.
  intros [->|(r & -> & Hr)]; simpl; eexists; split;
    [reflexivity | apply Qcle_refl | reflexivity | exact Hr].
Qed.

Lemma nonneg_or_nan_zero a : nonneg_or_nan (fmul a (Finite 0%Qc)).
Proof.
  destruct (fmul_zero_r a) as [-> | ->]; [right | left; reflexivity].
  eexists; split; [reflexivity | apply Qcle_refl].
Qed.

(** The left term of the combination: the weight (x - a)/(b - a) of a
    basis value [p] that vanishes outside [a, b). *)
Lemma left_term_nonneg v a b p :
  (0 <= p)%Qc ->
  (fge v (Finite a) && flt v (Finite b) = false -> p = 0%Qc) ->
  nonneg_or_nan
    (fmul (fdiv (fsub v (Finite a)) (fsub (Finite b) (Finite a))) (Finite p)).
Proof.
  intros Hp Hsupp.
  destruct (fge v (Finite a) && flt v (Finite b)) eqn:E.
  - apply andb_prop in E; destruct E as [E1 E2].
    destruct (@inside_finite v a b E1 E2) as (q & -> & Haq & Hqb).
    assert (Hd : (0 < b + - a)%Qc)
      by (apply (proj1 (Qclt_minus_iff a b)), (Qcle_lt_trans _ q); assumption).
    assert (Hne : (b + - a)%Qc <> 0%Qc)
      by (intros E; rewrite E in Hd; apply (Qclt_not_eq _ _ Hd); reflexivity).
    unfold fsub; simpl fneg; simpl fadd.
    rewrite fdiv_Finite by exact Hne; simpl fmul.
    right; eexists; split; [reflexivity|].
    apply Qc_mul_nonneg; [|exact Hp].
    apply Qc_div_nonneg; [apply (proj1 (Qcle_minus_iff a q)); exact Haq | exact Hd].
  - rewrite (Hsupp eq_refl); apply nonneg_or_nan_zero.
Qed.

(** The right term: the weight (b - x)/(b - a). *)
Lemma right_term_nonneg v a b p :
  (0 <= p)%Qc ->
  (fge v (Finite a) && flt v (Finite b) = false -> p = 0%Qc) ->
  nonneg_or_nan
    (fmul (fdiv (fsub (Finite b) v) (fsub (Finite b) (Finite a))) (Finite p)).
Proof.
  intros Hp Hsupp.
  destruct (fge v (Finite a) && flt v (Finite b)) eqn:E.
  - apply andb_prop in E; destruct E as [E1 E2].
    destruct (@inside_finite v a b E1 E2) as (q & -> & Haq & Hqb).
    assert (Hd : (0 < b + - a)%Qc)
      by (apply (proj1 (Qclt_minus_iff a b)), (Qcle_lt_trans _ q); assumption).
    assert (Hne : (b + - a)%Qc <> 0%Qc)
      by (intros E; rewrite E in Hd; apply (Qclt_not_eq _ _ Hd); reflexivity).
    unfold fsub; simpl fneg; simpl fadd.
    rewrite fdiv_Finite by exact Hne; simpl fmul.
    right; eexists; split; [reflexivity|].
    apply Qc_mul_nonneg; [|exact Hp].
    apply Qc_div_nonneg; [|exact Hd].
    apply Qclt_le_weak, (proj1 (Qclt_minus_iff q b)); exact Hqb.
  - rewrite (Hsupp eq_refl); apply nonneg_or_nan_zero.
Qed.

Lemma basis_row_nonneg fmax v row k c :
  nondecreasing row = true ->
  c + k + 1 < length row ->
  exists p, nth c (basis_row fmax v row k) NaN = Finite p /\ (0 <= p)%Qc.
Proof.
  intros Hs; revert c; induction k as [|k IH]; intros c Hc.
  - rewrite basis_row_0_nth by lia.
    destruct (fge v (nth c row NaN) && flt v (nth (c + 1) row NaN));
      eexists; (split; [reflexivity|]); [apply Qc_0_le_1 | apply Qcle_refl].
  - rewrite basis_row_S_nth by lia.
    destruct (IH c ltac:(lia)) as (p & Ep & Hp).
    destruct (IH (c + 1) ltac:(lia)) as (p' & Ep' & Hp').
    destruct (nondecreasing_nth row Hs (i := c) (j := c + S k))
      as (a & b & Ea & Eb & _); [lia | lia|].
    destruct (nondecreasing_nth row Hs (i := c + 1) (j := c + S k + 1))
      as (a' & b' & Ea' & Eb' & _); [lia | lia|].
    apply nonneg_or_nan_clamp; unfold cox_de_boor.
    rewrite Ep, Ep', Ea, Eb, Ea', Eb'.
    apply nonneg_or_nan_add.
    + apply left_term_nonneg; [exact Hp|].
      intros H.
      assert (E : nth c (basis_row fmax v row k) NaN = Finite 0%Qc).
      { apply basis_row_support; [exact Hs | lia|].
        replace (c + k + 1) with (c + S k) by lia.
        rewrite Ea, Eb; exact H. }
      rewrite Ep in E; inversion E; reflexivity.
    + apply right_term_nonneg; [exact Hp'|].
      intros H.
      assert (E : nth (c + 1) (basis_row fmax v row k) NaN = Finite 0%Qc).
      { apply basis_row_support; [exact Hs | lia|].
        replace (c + 1 + k + 1) with (c + S k + 1) by lia.
        rewrite Ea', Eb'; exact H. }
      rewrite Ep' in E; inversion E; reflexivity.
Qed.

(** X6.  On non-decreasing knots no basis value is negative, at any
    order and for any sample (the special values included): every entry
    is a finite number >= 0. *)
Theorem B_batch_nonnegative fmax x grid k extend dev B I G :
  has_shape2 x B I -> has_shape2 grid I G ->
  Forall (fun row => nondecreasing row = true) grid ->
  exists value,
    B_batch fmax x grid k extend dev = Some value /\
    forall b i c, b < B -> i < I -> c < G - k - 1 ->
      exists p, get3 value b i c = Finite p /\ (0 <= p)%Qc.
Proof.
  intros Hx Hg Hs.
  destruct (B_batch_value fmax k extend dev Hx Hg) as [Hv _].
  eexists; split; [exact Hv|].
  intros b i c Hb Hi Hc.
  destruct (sorted_row Hg Hs Hi) as [Hrow Hlen].
  rewrite (get3_lift_rows _ c Hx Hg Hb Hi).
  apply basis_row_nonneg; [exact Hrow | rewrite Hlen; lia].
Qed.

(** The hat function on 0, 1, 2 at the sample 1/2. *)
Lemma B_batch_nonnegative_witness :
  exists value,
    B_batch float32_max x_half grid_012 1 true cpu = Some value /\
    exists p, get3 value 0 0 0 = Finite p /\ (0 <= p)%Qc.
Proof.
  destruct (@B_batch_nonnegative float32_max x_half grid_012 1 true cpu 1 1 3
              (shape_1_1 (qf 1 2)) (shape_1_3 (qf 0 1) (qf 1 1) (qf 2 1)))
    as (value & Hv & Hp); [repeat constructor|].
  exists value; split; [exact Hv|].
  apply Hp; simpl; lia.
Defined.

(* ------------------------------------------------------------------ *)
(** *** Partition of unity *)

Lemma flt_fge a b : flt a b = true -> fge b a = true.
Proof.
  destruct a as [p| | |], b as [q| | |]; try discriminate; try reflexivity.
  rewrite flt_Finite, fge_Finite; apply Qclt_le_weak.
Qed.

Lemma increasing_nondecreasing row :
  increasing row = true -> nondecreasing row = true.
Proof.
  induction row as [|a rest IH]; [reflexivity|].
  simpl; intros H.
  apply andb_prop in H; destruct H as [H Hrest].
  apply andb_prop in H; destruct H as [Hfin Hord].
  rewrite Hfin, (IH Hrest), andb_true_r; simpl.
  destruct rest as [|b rest]; [reflexivity | apply flt_fge, Hord].
Qed.

Lemma increasing_adjacent row i :
  increasing row = true -> i + 1 < length row ->
  exists a b, nth i row NaN = Finite a /\ nth (i + 1) row NaN = Finite b /\
              (a < b)%Qc.
Proof.
  revert i; induction row as [|x rest IH]; intros i H Hi; [simpl in Hi; lia|].
  simpl in H.
  apply andb_prop in H; destruct H as [H Hrest].
  apply andb_prop in H; destruct H as [Hfin Hord].
  destruct i as [|i].
  - destruct rest as [|y rest]; [simpl in Hi; lia|].
    destruct x as [a| | |]; try discriminate.
    destruct y as [b| | |]; try discriminate.
    exists a, b; repeat split; apply flt_Finite, Hord.
  - simpl in Hi |- *; apply IH; [exact Hrest | lia].
Qed.

Lemma increasing_nth row i j :
  increasing row = true -> i < j -> j < length row ->
  exists a b, nth i row NaN = Finite a /\ nth j row NaN = Finite b /\ (a < b)%Qc.
Proof.
  intros H Hij Hj.
  destruct (@increasing_adjacent row i H ltac:(lia)) as (a & m & Ea & Em & Ham).
  destruct (nondecreasing_nth row (increasing_nondecreasing row H)
              (i := i + 1) (j := j)) as (m' & b & Em' & Eb & Hmb); [lia | lia|].
  rewrite Em in Em'; inversion Em'; subst m'.
  exists a, b; repeat split; try assumption.
  eapply Qclt_le_trans; eassumption.
Qed.

Lemma sumn_ext f g n :
  (forall c, c < n -> f c = g c) -> sumn f n = sumn g n.
Proof.
  induction n as [|n IH]; intros H; [reflexivity|].
  simpl; rewrite IH, (H n) by (intros; try apply H; lia); reflexivity.
Qed.

Lemma sumn_shift f n :
  sumn f (S n) = (f O + sumn (fun c => f (S c)) n)%Qc.
Proof.
  induction n as [|n IH]; [simpl; ring|].
  change (sumn f (S (S n))) with (sumn f (S n) + f (S n))%Qc.
  rewrite IH; simpl; ring.
Qed.

Lemma fsum_sumn (l : list fl) :
  all_finite1 l ->
  fsum l = Finite (sumn (fun c => fq (nth c l NaN)) (length l)).
Proof.
  induction 1 as [|a l Ha _ IH]; [reflexivity|].
  rewrite fsum_cons, IH.
  destruct a as [p| | |]; try discriminate.
  simpl length; rewrite sumn_shift; reflexivity.
Qed.

(** The sum of the combinations telescopes. *)
Lemma sumn_telescope (al b : nat -> Qc) n :
  sumn (fun c => al c * b c + (1 - al (S c)) * b (S c))%Qc n =
  (al O * b O - al n * b n + (sumn b (S n) - b O))%Qc.
Proof.
  induction n as [|n IH]; [simpl; ring|].
  change (sumn ?f (S n)) with (sumn f n + f n)%Qc at 1.
  rewrite IH.
  change (sumn b (S (S n))) with (sumn b (S n) + b (S n))%Qc.
  ring.
Qed.

Lemma all_finite1_nth (l : list fl) c :
  all_finite1 l -> c < length l -> nth c l NaN = Finite (fq (nth c l NaN)).
Proof.
  intros H Hc; unfold all_finite1 in H; rewrite Forall_forall in H.
  pose proof (H _ (nth_In l NaN Hc)) as Hf.
  destruct (nth c l NaN); try discriminate; reflexivity.
Qed.

Lemma Qc_lt_diff_nonzero (a b : Qc) : (a < b)%Qc -> (b + - a)%Qc <> 0%Qc.
Proof.
  intros H E; apply (proj1 (Qclt_minus_iff a b)) in H.
  rewrite E in H; apply (Qclt_not_eq _ _ H); reflexivity.
Qed.

Lemma flt_true_fge_false v a : flt v a = true -> fge v a = false.
Proof.
  intros H; destruct (fge v a) eqn:E; [|reflexivity].
  rewrite (fge_true_flt_false _ _ E) in H; discriminate.
Qed.

Lemma fsub_Finite a b : fsub (Finite a) (Finite b) = Finite (a + - b)%Qc.
Proof. reflexivity. Qed.

(** One entry of order [K] on strictly increasing knots at a finite
    sample, over the rationals. *)
Lemma cox_de_boor_rational fmax q row b K c tc tcK tc1 tcK1 bc bc1 :
  nth c row NaN = Finite tc -> nth (c + K) row NaN = Finite tcK ->
  nth (c + 1) row NaN = Finite tc1 -> nth (c + K + 1) row NaN = Finite tcK1 ->
  (tc < tcK)%Qc -> (tc1 < tcK1)%Qc ->
  nth c b NaN = Finite bc -> nth (c + 1) b NaN = Finite bc1 ->
  nan_to_num fmax (cox_de_boor (Finite q) row b K c) =
  Finite ((q + - tc) / (tcK + - tc) * bc +
          (tcK1 + - q) / (tcK1 + - tc1) * bc1)%Qc.
Proof.
  intros E1 E2 E3 E4 H1 H2 E5 E6; unfold cox_de_boor.
  rewrite E1, E2, E3, E4, E5, E6, !fsub_Finite.
  rewrite !fdiv_Finite by (apply Qc_lt_diff_nonzero; assumption).
  reflexivity.
Qed.

(** On strictly increasing knots the order-[k] basis values of a sample
    in [t_k, t_{G-k-1}) add up to 1. *)
Lemma basis_row_sum_one fmax q row k :
  increasing row = true -> 2 * k + 2 <= length row ->
  fge (Finite q) (nth k row NaN) = true ->
  flt (Finite q) (nth (length row - k - 1) row NaN) = true ->
  fsum (basis_row fmax (Finite q) row k) = Finite 1%Qc.
Proof.
  intros Hinc.
  pose proof (increasing_nondecreasing row Hinc) as Hs.
  induction k as [|k IH]; intros HG Hlo Hhi.
  - rewrite indicator_sum by (try assumption; intros E; rewrite E in HG; simpl in HG; lia).
    rewrite hd_as_nth, last_as_nth.
    replace (length row - 0 - 1) with (length row - 1) in Hhi by lia.
    rewrite Hlo, Hhi; reflexivity.
  - set (G := length row) in *.
    set (W := G - S k - 1).
    set (v := Finite q) in *.
    set (b := basis_row fmax v row k).
    assert (Lb : length b = S W) by (unfold b, W; rewrite basis_row_length; fold G; lia).
    assert (Fb : all_finite1 b) by apply basis_row_finite.
    set (bq := fun c => fq (nth c b NaN)).
    (* the order-k values add up to 1 *)
    assert (Hsum : sumn bq (S W) = 1%Qc).
    { assert (E : fsum b = Finite 1%Qc).
      { apply IH; [lia | |].
        - destruct (nondecreasing_nth row Hs (i := k) (j := S k))
            as (a & a' & Ea & Ea' & Haa); [lia | fold G; lia|].
          rewrite Ea' in Hlo; rewrite Ea; exact (fge_down v Haa Hlo).
        - destruct (nondecreasing_nth row Hs (i := G - S k - 1) (j := G - k - 1))
            as (a & a' & Ea & Ea' & Haa); [lia | fold G; lia|].
          rewrite Ea in Hhi; rewrite Ea'; exact (flt_up v Haa Hhi). }
      rewrite (fsum_sumn Fb), Lb in E; exact (f_equal fq E). }
    (* the boundary values vanish *)
    assert (Hb0 : bq 0 = 0%Qc).
    { unfold bq, b; rewrite basis_row_support; [reflexivity | exact Hs | fold G; lia|].
      replace (0 + k + 1) with (S k) by lia.
      rewrite (fge_true_flt_false _ _ Hlo); apply andb_false_r. }
    assert (HbW : bq W = 0%Qc).
    { unfold bq, b; rewrite basis_row_support; [reflexivity | exact Hs | fold G; unfold W; lia|].
      fold W in Hhi; rewrite (flt_true_fge_false _ _ Hhi); reflexivity. }
    set (tq := fun j => fq (nth j row NaN)).
    set (al := fun c => ((q + - tq c) / (tq (c + S k)%nat + - tq c))%Qc).
    assert (Lr : length (basis_row fmax v row (S k)) = W)
      by (rewrite basis_row_length; reflexivity).
    rewrite (fsum_sumn (basis_row_finite fmax v row (S k))), Lr.
    f_equal.
    rewrite (sumn_ext _ (fun c => al c * bq c + (1 - al (S c)) * bq (S c))%Qc).
    + rewrite sumn_telescope, Hsum, Hb0, HbW; ring.
    + intros c Hc.
      destruct (increasing_nth row (i := c) (j := c + S k) Hinc)
        as (tc & tcK & E1 & E2 & H1); [lia | fold G; unfold W in Hc; lia|].
      destruct (increasing_nth row (i := c + 1) (j := c + S k + 1) Hinc)
        as (tc1 & tcK1 & E3 & E4 & H2); [lia | fold G; unfold W in Hc; lia|].
      rewrite basis_row_S_nth by (fold G; fold W; exact Hc).
      fold b; change v with (Finite q).
      rewrite (@cox_de_boor_rational fmax q row b (S k) c tc tcK tc1 tcK1
                 (bq c) (bq (S c)) E1 E2 E3 E4 H1 H2).
      * unfold al, tq.
        replace (S c + S k) with (c + S k + 1) by lia.
        replace (S c) with (c + 1) by lia.
        rewrite E1, E2, E3, E4; cbn [fq].
        field; split; apply Qc_lt_diff_nonzero; assumption.
      * apply (all_finite1_nth Fb); lia.
      * replace (c + 1) with (S c) by lia; apply (all_finite1_nth Fb); lia.
Qed.

Lemma increasing_row (grid : list (list fl)) I G i :
  has_shape2 grid I G ->
  Forall (fun row => increasing row = true) grid -> i < I ->
  increasing (nth i grid []) = true /\ length (nth i grid []) = G.
Proof.
  intros Hg Hs Hi; split; [|apply (has_shape2_row Hg Hi)].
  rewrite Forall_forall in Hs; apply Hs, nth_In; destruct Hg; lia.
Qed.

(** X7.  Partition of unity.  On strictly increasing knots the order-[k]
    basis values of a sample that lies in [t_k, t_{G-k-1}) add up to
    exactly 1 (in exact arithmetic). *)
Theorem B_batch_partition_of_unity fmax x grid k extend dev B I G :
  has_shape2 x B I -> has_shape2 grid I G ->
  Forall (fun row => increasing row = true) grid ->
  2 * k + 2 <= G ->
  exists value,
    B_batch fmax x grid k extend dev = Some value /\
    forall b i, b < B -> i < I ->
      fge (get2 x b i) (get2 grid i k) = true ->
      flt (get2 x b i) (get2 grid i (G - k - 1)) = true ->
      fsum (nth i (nth b value []) []) = Finite 1%Qc.
Proof.
  intros Hx Hg Hinc HG.
  destruct (B_batch_value fmax k extend dev Hx Hg) as [Hv _].
  eexists; split; [exact Hv|].
  intros b i Hb Hi Hlo Hhi.
  destruct (increasing_row Hg Hinc Hi) as [Hrow Hlen].
  rewrite lift_rows_nth;
    [| destruct Hx; lia | destruct Hg; lia
     | eapply has_shape2_rows_ok; eassumption].
  unfold get2 in Hlo, Hhi; fold (get2 x b i) in Hlo, Hhi.
  destruct (nondecreasing_nth (nth i grid []) (increasing_nondecreasing _ Hrow)
              (i := k) (j := G - k - 1)) as (a & a' & Ea & Ea' & _);
    [lia | rewrite Hlen; lia|].
  rewrite Ea in Hlo; rewrite Ea' in Hhi.
  destruct (@inside_finite (get2 x b i) a a' Hlo Hhi) as (q & Eq & _).
  rewrite Eq in *.
  apply basis_row_sum_one;
    [exact Hrow | rewrite Hlen; exact HG | rewrite Ea; exact Hlo
    | rewrite Hlen, Ea'; exact Hhi].
Qed.

(** The knots 0, 1, 2, 3 at order 1 and the sample 3/2. *)
Lemma B_batch_partition_of_unity_witness :
  exists value,
    B_batch float32_max [[qf 3 2]] [[qf 0 1; qf 1 1; qf 2 1; qf 3 1]] 1 true cpu =
      Some value /\
    fsum (nth 0 (nth 0 value []) []) = Finite 1%Qc.
Proof.
  destruct (@B_batch_partition_of_unity float32_max [[qf 3 2]]
              [[qf 0 1; qf 1 1; qf 2 1; qf 3 1]] 1 true cpu 1 1 4)
    as (value & Hv & Hsum);
    [apply shape_1_1 | split; [reflexivity | repeat constructor]
    | repeat constructor | lia |].
  exists value; split; [exact Hv|].
  apply Hsum; [lia | lia | reflexivity | reflexivity].
Defined.

(* ================================================================== *)
(** ** Further properties of the GridExtender *)

Lemma sequence_None {A} (l : list (option A)) :
  In None l -> sequence l = None.
Proof.
  induction l as [|o l IH]; intros H; [contradiction|].
  destruct H as [->|H]; [reflexivity|].
  simpl; destruct o; [rewrite (IH H)|]; reflexivity.
Qed.

(** X8.  A grid without knots (rows of length 0) makes [extend_grid]
    raise, whatever [k_extend] is, 0 included: the step is computed from
    the first and the last knot before the loop. *)
Theorem extend_grid_no_knots (grid : list (list fl)) k_extend S :
  has_shape2 grid S 0 -> 1 <= S -> extend_grid grid k_extend = None.
Proof.
  intros [Hl Hrows] HS.
  destruct grid as [|row grid]; [simpl in Hl; lia|].
  inversion Hrows as [|? ? Hrow _]; subst.
  destruct row; [|discriminate].
  unfold extend_grid, column.
  rewrite sequence_None; [reflexivity | left; reflexivity].
Qed.

(** One row without knots, no extension asked. *)
Lemma extend_grid_no_knots_witness : extend_grid [[]] 0 = None.
Proof.
  apply (@extend_grid_no_knots [[]] 0 1);
    [split; [reflexivity | repeat constructor] | lia].
Defined.

Lemma extend_row_middle n h row j d :
  j < length row -> nth (n + j) (extend_row n h row) d = nth j row d.
Proof.
  revert row j; induction n as [|n IH]; intros row j Hj; [reflexivity|].
  simpl extend_row.
  replace (S n + j) with (n + S j) by lia.
  rewrite IH by (unfold extend_step; rewrite length_app; simpl; lia).
  unfold extend_step; simpl.
  apply app_nth1; exact Hj.
Qed.

Lemma extend_grid_entry (grid : list (list fl)) n S G s j :
  has_shape2 grid S G -> s < S ->
  get2 (map (fun row => extend_row n (knot_step G row) row) grid) s j =
  nth j (extend_row n (knot_step G (nth s grid [])) (nth s grid [])) NaN.
Proof.
  intros [Hl _] Hs; unfold get2.
  rewrite (nth_indep _ [] (extend_row n (knot_step G []) []))
    by (rewrite length_map; lia).
  rewrite (map_nth (fun row => extend_row n (knot_step G row) row)).
  reflexivity.
Qed.

(** X9.  The knots that were passed are kept: in the result they stand,
    unchanged and in order, at the positions k_extend .. k_extend+G-1
    of their row. *)
Theorem extend_grid_keeps_knots (grid : list (list fl)) k_extend S G :
  has_shape2 grid S G -> 1 <= G ->
  exists result,
    extend_grid grid k_extend = Some result /\
    forall s j, s < S -> j < G ->
      get2 result s (k_extend + j) = get2 grid s j.
Proof.
  intros Hg HG.
  eexists; split; [apply (extend_grid_rows k_extend Hg HG)|].
  intros s j Hs Hj.
  rewrite (extend_grid_entry k_extend _ Hg Hs).
  apply extend_row_middle; rewrite (has_shape2_row Hg Hs); exact Hj.
Qed.

(** The knots 0, 1, 5 extended twice: the knot 5 is at position 2 + 2. *)
Lemma extend_grid_keeps_knots_witness :
  exists result,
    extend_grid grid_015 2 = Some result /\
    get2 result 0 (2 + 2) = get2 grid_015 0 2.
Proof.
  destruct (@extend_grid_keeps_knots grid_015 2 1 3
              (shape_1_3 (qf 0 1) (qf 1 1) (qf 5 1)) ltac:(lia))
    as (result & Hr & Hk).
  exists result; split; [exact Hr | apply Hk; lia].
Defined.

Lemma fsub_NaN_r a : fsub a NaN = NaN.
Proof. destruct a; reflexivity. Qed.

Lemma extend_row_NaN n row :
  extend_row n NaN row = repeat NaN n ++ row ++ repeat NaN n.
Proof.
  revert row; induction n as [|n IH]; intros row;
    [simpl; rewrite app_nil_r; reflexivity|].
  simpl extend_row; rewrite IH.
  unfold extend_step; rewrite fsub_NaN_r, fadd_NaN_r.
  change (repeat NaN (S n)) with (NaN :: repeat NaN n).
  rewrite (repeat_cons n NaN) at 1.
  rewrite <- !app_assoc; simpl; reflexivity.
Qed.

Lemma knot_step_single a : knot_step 1 [a] = NaN.
Proof.
  unfold knot_step; simpl last; simpl hd.
  destruct a as [q| | |]; try reflexivity.
  rewrite fsub_self; reflexivity.
Qed.

(** X10.  A grid with a single knot per row has the step 0/0 = NaN:
    [extend_grid] returns each knot with [k_extend] NaN entries on
    either side. *)
Theorem extend_grid_single_knot (grid : list (list fl)) k_extend S :
  has_shape2 grid S 1 ->
  extend_grid grid k_extend =
  Some (map (fun row => repeat NaN k_extend ++ row ++ repeat NaN k_extend) grid).
Proof.
  intros Hg.
  rewrite (extend_grid_rows k_extend Hg (Nat.le_refl 1)); f_equal.
  apply map_ext_in; intros row Hin.
  destruct Hg as [_ Hrows]; rewrite Forall_forall in Hrows.
  pose proof (Hrows row Hin) as Hlen.
  destruct row as [|a [|b row]]; try discriminate.
  rewrite knot_step_single; apply extend_row_NaN.
Qed.

(** The single knot 0 extended twice. *)
Lemma extend_grid_single_knot_witness :
  extend_grid [[qf 0 1]] 2 = Some [[NaN; NaN; qf 0 1; NaN; NaN]].
Proof.
  apply (@extend_grid_single_knot [[qf 0 1]] 2 1 (shape_1_1 (qf 0 1))).
Defined.

Lemma Q2Qc_inject_Z_pos z : (0 < z)%Z -> (0 < Q2Qc (inject_Z z))%Qc.
Proof.
  intros Hz; unfold Qclt, Q2Qc; cbn [this].
  rewrite !Qred_correct; unfold Qlt, inject_Z; cbn [Qnum Qden]; lia.
Qed.

Lemma Qc_div_pos (x d : Qc) : (0 < x -> 0 < d -> 0 < x / d)%Qc.
Proof.
  intros Hx Hd.
  assert (Hne : d <> 0%Qc)
    by (intros E; subst d; apply (Qclt_not_eq _ _ Hd); reflexivity).
  destruct (Qclt_le_dec 0 (x / d)) as [H|H]; [exact H | exfalso].
  apply (Qcmult_le_compat_r _ _ d) in H; [|apply Qclt_le_weak; exact Hd].
  replace (0 * d)%Qc with 0%Qc in H by ring.
  replace (x / d * d)%Qc with x in H by (field; exact Hne).
  apply (Qcle_not_lt _ _ H Hx).
Qed.

(** The step of a row of [G >= 2] knots whose first and last knot are
    finite. *)
Lemma knot_step_finite row G f l :
  length row = G -> 2 <= G ->
  hd NaN row = Finite f -> last row NaN = Finite l ->
  knot_step G row =
  Finite ((l + - f) / Q2Qc (inject_Z (Z.of_nat G - 1)))%Qc.
Proof.
  intros Hlen HG Hf Hl.
  unfold knot_step; rewrite Hf, Hl, fsub_Finite; unfold of_Z.
  apply fdiv_Finite, Q2Qc_inject_Z_nonzero; lia.
Qed.

Lemma nondecreasing_hd_last row :
  nondecreasing row = true -> row <> [] ->
  exists f l, hd NaN row = Finite f /\ last row NaN = Finite l /\ (f <= l)%Qc.
Proof.
  intros H Hne.
  assert (Hlen : 0 < length row) by (destruct row; [congruence | simpl; lia]).
  destruct (nondecreasing_nth row H (Nat.le_0_l (length row - 1)) ltac:(lia))
    as (f & l & Ef & El & Hfl).
  exists f, l; rewrite hd_as_nth, last_as_nth; auto.
Qed.

Lemma increasing_hd_last row :
  increasing row = true -> 2 <= length row ->
  exists f l, hd NaN row = Finite f /\ last row NaN = Finite l /\ (f < l)%Qc.
Proof.
  intros H Hlen.
  destruct (@increasing_nth row 0 (length row - 1) H ltac:(lia) ltac:(lia))
    as (f & l & Ef & El & Hfl).
  exists f, l; rewrite hd_as_nth, last_as_nth; auto.
Qed.

Lemma nondecreasing_snoc row l m :
  nondecreasing row = true -> row <> [] -> last row NaN = Finite l ->
  (l <= m)%Qc -> nondecreasing (row ++ [Finite m]) = true.
Proof.
  induction row as [|a rest IH]; intros H Hne Hl Hm; [congruence|].
  destruct rest as [|b rest].
  - simpl in Hl; subst a; simpl.
    rewrite (proj2 (fge_Finite m l) Hm); reflexivity.
  - change (last (a :: b :: rest) NaN) with (last (b :: rest) NaN) in Hl.
    simpl in H; simpl.
    apply andb_prop in H; destruct H as [H Hrest].
    rewrite H; simpl.
    apply (IH Hrest); [discriminate | exact Hl | exact Hm].
Qed.

Lemma increasing_snoc row l m :
  increasing row = true -> row <> [] -> last row NaN = Finite l ->
  (l < m)%Qc -> increasing (row ++ [Finite m]) = true.
Proof.
  induction row as [|a rest IH]; intros H Hne Hl Hm; [congruence|].
  destruct rest as [|b rest].
  - simpl in Hl; subst a; simpl.
    rewrite (proj2 (flt_Finite l m) Hm); reflexivity.
  - change (last (a :: b :: rest) NaN) with (last (b :: rest) NaN) in Hl.
    simpl in H; simpl.
    apply andb_prop in H; destruct H as [H Hrest].
    rewrite H; simpl.
    apply (IH Hrest); [discriminate | exact Hl | exact Hm].
Qed.

Lemma fadd_Finite a b : fadd (Finite a) (Finite b) = Finite (a + b)%Qc.
Proof. reflexivity. Qed.

Lemma extend_step_ends hq row f l :
  row <> [] -> hd NaN row = Finite f -> last row NaN = Finite l ->
  extend_step (Finite hq) row =
  Finite (f + - hq)%Qc :: row ++ [Finite (l + hq)%Qc].
Proof.
  intros _ Hf Hl; unfold extend_step.
  rewrite Hf, Hl, fsub_Finite, fadd_Finite; reflexivity.
Qed.

Lemma extend_step_nondecreasing hq row :
  nondecreasing row = true -> row <> [] -> (0 <= hq)%Qc ->
  nondecreasing (extend_step (Finite hq) row) = true.
Proof.
  intros H Hne Hh.
  destruct (@nondecreasing_hd_last row H Hne) as (f & l & Hf & Hl & _).
  rewrite (@extend_step_ends hq row f l Hne Hf Hl).
  assert (Hs : nondecreasing (row ++ [Finite (l + hq)%Qc]) = true).
  { apply (@nondecreasing_snoc row l (l + hq)%Qc H Hne Hl).
    apply (proj2 (Qcle_minus_iff l (l + hq))).
    replace (l + hq + - l)%Qc with hq by ring; exact Hh. }
  destruct row as [|a rest]; [congruence|].
  simpl in Hf; subst a.
  change ((Finite f :: rest) ++ [Finite (l + hq)%Qc])
    with (Finite f :: (rest ++ [Finite (l + hq)%Qc])) in *.
  change (is_finite (Finite (f + - hq)%Qc) &&
          fge (Finite f) (Finite (f + - hq)%Qc) &&
          nondecreasing (Finite f :: (rest ++ [Finite (l + hq)%Qc])) = true).
  rewrite Hs, andb_true_r; simpl is_finite; simpl andb.
  apply fge_Finite, (proj2 (Qcle_minus_iff (f + - hq) f)).
  replace (f + - (f + - hq))%Qc with hq by ring; exact Hh.
Qed.

Lemma extend_step_increasing hq row :
  increasing row = true -> row <> [] -> (0 < hq)%Qc ->
  increasing (extend_step (Finite hq) row) = true.
Proof.
  intros H Hne Hh.
  destruct (@nondecreasing_hd_last row (@increasing_nondecreasing row H) Hne)
    as (f & l & Hf & Hl & _).
  rewrite (@extend_step_ends hq row f l Hne Hf Hl).
  assert (Hs : increasing (row ++ [Finite (l + hq)%Qc]) = true).
  { apply (@increasing_snoc row l (l + hq)%Qc H Hne Hl).
    apply (proj2 (Qclt_minus_iff l (l + hq))).
    replace (l + hq + - l)%Qc with hq by ring; exact Hh. }
  destruct row as [|a rest]; [congruence|].
  simpl in Hf; subst a.
  change ((Finite f :: rest) ++ [Finite (l + hq)%Qc])
    with (Finite f :: (rest ++ [Finite (l + hq)%Qc])) in *.
  change (is_finite (Finite (f + - hq)%Qc) &&
          flt (Finite (f + - hq)%Qc) (Finite f) &&
          increasing (Finite f :: (rest ++ [Finite (l + hq)%Qc])) = true).
  rewrite Hs, andb_true_r; simpl is_finite; simpl andb.
  apply flt_Finite, (proj2 (Qclt_minus_iff (f + - hq) f)).
  replace (f + - (f + - hq))%Qc with hq by ring; exact Hh.
Qed.

Lemma extend_row_nondecreasing n hq row :
  nondecreasing row = true -> row <> [] -> (0 <= hq)%Qc ->
  nondecreasing (extend_row n (Finite hq) row) = true.
Proof.
  revert row; induction n as [|n IH]; intros row H Hne Hh; [exact H|].
  simpl extend_row; apply IH;
    [apply extend_step_nondecreasing; assumption
    | apply extend_step_nonempty | exact Hh].
Qed.

Lemma extend_row_increasing n hq row :
  increasing row = true -> row <> [] -> (0 < hq)%Qc ->
  increasing (extend_row n (Finite hq) row) = true.
Proof.
  revert row; induction n as [|n IH]; intros row H Hne Hh; [exact H|].
  simpl extend_row; apply IH;
    [apply extend_step_increasing; assumption
    | apply extend_step_nonempty | exact Hh].
Qed.

(** The step of a row of at least two ordered knots. *)
Lemma knot_step_nonneg row G :
  nondecreasing row = true -> length row = G -> 2 <= G ->
  exists hq, knot_step G row = Finite hq /\ (0 <= hq)%Qc.
Proof.
  intros H Hlen HG.
  assert (Hne : row <> []) by (intros ->; simpl in Hlen; lia).
  destruct (@nondecreasing_hd_last row H Hne) as (f & l & Hf & Hl & Hfl).
  eexists; split; [apply (@knot_step_finite row G f l Hlen HG Hf Hl)|].
  apply Qc_div_nonneg; [|apply Q2Qc_inject_Z_pos; lia].
  apply (proj1 (Qcle_minus_iff f l)); exact Hfl.
Qed.

Lemma knot_step_pos row G :
  increasing row = true -> length row = G -> 2 <= G ->
  exists hq, knot_step G row = Finite hq /\ (0 < hq)%Qc.
Proof.
  intros H Hlen HG.
  destruct (@increasing_hd_last row H ltac:(lia)) as (f & l & Hf & Hl & Hfl).
  eexists; split; [apply (@knot_step_finite row G f l Hlen HG Hf Hl)|].
  apply Qc_div_pos; [|apply Q2Qc_inject_Z_pos; lia].
  apply (proj1 (Qclt_minus_iff f l)); exact Hfl.
Qed.

Lemma extend_rows_increasing (grid : list (list fl)) n S G :
  has_shape2 grid S G -> 2 <= G ->
  Forall (fun row => increasing row = true) grid ->
  Forall (fun row => increasing row = true)
    (map (fun row => extend_row n (knot_step G row) row) grid).
Proof.
  intros [_ Hrows] HG Hinc.
  rewrite Forall_map, Forall_forall; intros row Hin.
  rewrite Forall_forall in Hrows, Hinc.
  destruct (@knot_step_pos row G (Hinc row Hin) (Hrows row Hin) HG)
    as (hq & -> & Hh).
  apply extend_row_increasing; [apply Hinc; exact Hin | | exact Hh].
  intros ->; specialize (Hrows [] Hin); simpl in Hrows; lia.
Qed.

(** X11.  The Grid invariant is kept: a grid of at least two finite
    knots per row in non-decreasing order is extended to a grid whose
    rows are again finite and in non-decreasing order. *)
Theorem extend_grid_keeps_order (grid : list (list fl)) k_extend S G :
  has_shape2 grid S G -> 2 <= G ->
  Forall (fun row => nondecreasing row = true) grid ->
  exists result,
    extend_grid grid k_extend = Some result /\
    Forall (fun row => nondecreasing row = true) result.
Proof.
  intros Hg HG Hord.
  eexists; split; [apply (extend_grid_rows k_extend Hg); lia|].
  destruct Hg as [_ Hrows].
  rewrite Forall_map, Forall_forall; intros row Hin.
  rewrite Forall_forall in Hrows, Hord.
  destruct (@knot_step_nonneg row G (Hord row Hin) (Hrows row Hin) HG)
    as (hq & -> & Hh).
  apply extend_row_nondecreasing; [apply Hord; exact Hin | | exact Hh].
  intros ->; specialize (Hrows [] Hin); simpl in Hrows; lia.
Qed.

(** The knots 0, 1, 5 extended twice. *)
Lemma extend_grid_keeps_order_witness :
  exists result,
    extend_grid grid_015 2 = Some result /\
    Forall (fun row => nondecreasing row = true) result.
Proof.
  apply (@extend_grid_keeps_order grid_015 2 1 3
           (shape_1_3 (qf 0 1) (qf 1 1) (qf 5 1)));
    [lia | repeat constructor].
Defined.

(** X12.  Strictly increasing knots stay strictly increasing: the step
    of such a row is positive. *)
Theorem extend_grid_keeps_increasing (grid : list (list fl)) k_extend S G :
  has_shape2 grid S G -> 2 <= G ->
  Forall (fun row => increasing row = true) grid ->
  exists result,
    extend_grid grid k_extend = Some result /\
    Forall (fun row => increasing row = true) result.
Proof.
  intros Hg HG Hinc.
  eexists; split; [apply (extend_grid_rows k_extend Hg); lia|].
  apply (@extend_rows_increasing grid k_extend S G Hg HG Hinc).
Qed.

(** The knots 0, 1, 5 extended twice. *)
Lemma extend_grid_keeps_increasing_witness :
  exists result,
    extend_grid grid_015 2 = Some result /\
    Forall (fun row => increasing row = true) result.
Proof.
  apply (@extend_grid_keeps_increasing grid_015 2 1 3
           (shape_1_3 (qf 0 1) (qf 1 1) (qf 5 1)));
    [lia | repeat constructor].
Defined.

Lemma of_nat_S n : of_nat (S n) = (of_nat n + 1)%Qc.
Proof.
  unfold of_nat; rewrite Nat2Z.inj_succ; unfold Z.succ.
  rewrite Q2Qc_inject_Z_add; f_equal.
Qed.

Lemma of_nat_1 : of_nat 1 = 1%Qc.
Proof. apply Qc_is_canon; reflexivity. Qed.

Lemma extend_step_length h row :
  length (extend_step h row) = length row + 2.
Proof. unfold extend_step; rewrite length_app; simpl; lia. Qed.

Lemma extend_step_hd hq row f :
  hd NaN row = Finite f ->
  hd NaN (extend_step (Finite hq) row) = Finite (f + - hq)%Qc.
Proof. intros Hf; unfold extend_step; simpl hd; rewrite Hf; reflexivity. Qed.

Lemma extend_step_last hq row l :
  last row NaN = Finite l ->
  last (extend_step (Finite hq) row) NaN = Finite (l + hq)%Qc.
Proof.
  intros Hl; unfold extend_step; rewrite last_last, Hl; reflexivity.
Qed.

(** The padding of one row in closed form. *)
Lemma extend_row_padding n hq row f l :
  row <> [] -> hd NaN row = Finite f -> last row NaN = Finite l ->
  forall j, j < n ->
    nth j (extend_row n (Finite hq) row) NaN =
      Finite (f + - (of_nat (n - j) * hq))%Qc /\
    nth (n + length row + j) (extend_row n (Finite hq) row) NaN =
      Finite (l + of_nat (j + 1) * hq)%Qc.
Proof.
  revert row f l; induction n as [|n IH]; intros row f l Hne Hf Hl j Hj; [lia|].
  simpl extend_row.
  pose proof (extend_step_hd hq row Hf) as Hf'.
  pose proof (extend_step_last hq row Hl) as Hl'.
  pose proof (extend_step_length (Finite hq) row) as Hlen'.
  split.
  - destruct (Nat.eq_dec j n) as [->|Hjn].
    + replace n with (n + 0) at 1 by lia.
      rewrite extend_row_middle by (rewrite Hlen'; lia).
      rewrite <- hd_as_nth, Hf'.
      replace (S n - n) with 1 by lia; rewrite of_nat_1; f_equal; ring.
    + destruct (IH _ _ _ (@extend_step_nonempty (Finite hq) row) Hf' Hl' j
                  ltac:(lia)) as [E _].
      rewrite E; replace (S n - j) with (S (n - j)) by lia.
      rewrite of_nat_S; f_equal; ring.
  - destruct j as [|j].
    + replace (S n + length row + 0) with (n + (length row + 1)) by lia.
      rewrite extend_row_middle by (rewrite Hlen'; lia).
      replace (length row + 1) with (length (extend_step (Finite hq) row) - 1)
        by (rewrite Hlen'; lia).
      rewrite <- last_as_nth, Hl'.
      change (0 + 1) with 1; rewrite of_nat_1; f_equal; ring.
    + destruct (IH _ _ _ (@extend_step_nonempty (Finite hq) row) Hf' Hl' j
                  ltac:(lia)) as [_ E].
      rewrite Hlen' in E.
      replace (S n + length row + S j) with (n + (length row + 2) + j) by lia.
      rewrite E.
      replace (S j + 1) with (S (j + 1)) by lia.
      rewrite of_nat_S; f_equal; ring.
Qed.

(** X13.  The padding in closed form (exact arithmetic).  For a grid of
    G >= 2 finite knots per row with first knot f, last knot l and step
    h = (l - f) / (G - 1), the j-th knot of the extended row is
    f - (k_extend - j) * h for j < k_extend, and the j-th knot after the
    original ones is l + (j + 1) * h: the padding continues the row with
    the uniform spacing h on both sides. *)
Theorem extend_grid_padding (grid : list (list fl)) k_extend S G :
  has_shape2 grid S G -> 2 <= G -> all_finite2 grid ->
  exists result,
    extend_grid grid k_extend = Some result /\
    forall s j, s < S -> j < k_extend ->
      let f := fq (get2 grid s 0) in
      let l := fq (get2 grid s (G - 1)) in
      let h := ((l + - f) / of_nat (G - 1))%Qc in
      get2 result s j = Finite (f + - (of_nat (k_extend - j) * h))%Qc /\
      get2 result s (k_extend + G + j) = Finite (l + of_nat (j + 1) * h)%Qc.
Proof.
  intros Hg HG Hfin.
  eexists; split; [apply (extend_grid_rows k_extend Hg); lia|].
  intros s j Hs Hj f l h.
  rewrite !(extend_grid_entry k_extend _ Hg Hs).
  pose proof (has_shape2_row Hg Hs) as Hlen.
  assert (Hrow : all_finite1 (nth s grid [])).
  { unfold all_finite2 in Hfin; rewrite Forall_forall in Hfin.
    apply Hfin, nth_In; destruct Hg; lia. }
  assert (Hne : nth s grid [] <> [])
    by (intros E; rewrite E in Hlen; simpl in Hlen; lia).
  assert (Hf : hd NaN (nth s grid []) = Finite f).
  { rewrite hd_as_nth; apply (all_finite1_nth Hrow); lia. }
  assert (Hl : last (nth s grid []) NaN = Finite l).
  { rewrite last_as_nth, Hlen; apply (all_finite1_nth Hrow); lia. }
  rewrite (@knot_step_finite _ G f l Hlen HG Hf Hl).
  replace (Z.of_nat G - 1)%Z with (Z.of_nat (G - 1)) by lia.
  fold (of_nat (G - 1)); fold h.
  replace (k_extend + G + j) with (k_extend + length (nth s grid []) + j)
    by (rewrite Hlen; reflexivity).
  apply (@extend_row_padding k_extend h _ f l Hne Hf Hl j Hj).
Qed.

(** The knots 0, 1, 5 extended twice: the step is 5/2, the first knot of
    the result is 0 - 2 * 5/2 and its last knot is 5 + 2 * 5/2. *)
Lemma extend_grid_padding_witness :
  exists result,
    extend_grid grid_015 2 = Some result /\
    get2 result 0 0 = qf (-5) 1 /\ get2 result 0 6 = qf 10 1.
Proof.
  destruct (@extend_grid_padding grid_015 2 1 3
              (shape_1_3 (qf 0 1) (qf 1 1) (qf 5 1)) ltac:(lia)
              ltac:(repeat constructor))
    as (result & Hr & Hp).
  exists result; split; [exact Hr|].
  destruct (Hp 0 0 ltac:(lia) ltac:(lia)) as [E0 _].
  destruct (Hp 0 1 ltac:(lia) ltac:(lia)) as [_ E1].
  split.
  - rewrite E0; unfold qf; f_equal; apply Qc_is_canon; reflexivity.
  - change (2 + 3 + 1) with 6 in E1.
    rewrite E1; unfold qf; f_equal; apply Qc_is_canon; reflexivity.
Defined.

Lemma extend_step_finite hq row :
  all_finite1 row -> row <> [] -> all_finite1 (extend_step (Finite hq) row).
Proof.
  intros H Hne.
  destruct (all_finite1_hd H Hne) as [f Hf].
  destruct (all_finite1_last H Hne) as [l Hl].
  rewrite (@extend_step_ends hq row f l Hne Hf Hl).
  constructor; [reflexivity|].
  apply Forall_app; split; [exact H | repeat constructor].
Qed.

(** The step of a row does not change when the row is padded with it. *)
Lemma knot_step_extend_row m row G :
  length row = G -> 2 <= G -> all_finite1 row ->
  knot_step (G + 2 * m) (extend_row m (knot_step G row) row) = knot_step G row.
Proof.
  revert row G; induction m as [|m IH]; intros row G Hlen HG Hfin.
  - simpl extend_row; replace (G + 2 * 0) with G by lia; reflexivity.
  - simpl extend_row.
    pose proof (knot_step_extend Hlen HG Hfin) as Hstep.
    assert (Hne : row <> []) by (intros ->; simpl in Hlen; lia).
    destruct (all_finite1_hd Hfin Hne) as [f Hf].
    destruct (all_finite1_last Hfin Hne) as [l Hl].
    pose proof (@knot_step_finite row G f l Hlen HG Hf Hl) as Eh.
    assert (Hfin' : all_finite1 (extend_step (knot_step G row) row))
      by (rewrite Eh; apply extend_step_finite; assumption).
    assert (Hlen' : length (extend_step (knot_step G row) row) = G + 2)
      by (rewrite extend_step_length, Hlen; reflexivity).
    pose proof (IH _ (G + 2) Hlen' ltac:(lia) Hfin') as E.
    rewrite Hstep in E.
    replace (G + 2 * S m) with (G + 2 + 2 * m) by lia.
    exact E.
Qed.

Lemma extend_row_add m n h row :
  extend_row n h (extend_row m h row) = extend_row (m + n) h row.
Proof.
  revert row; induction m as [|m IH]; intros row; [reflexivity|].
  simpl; apply IH.
Qed.

(** X14.  Extensions compose (exact arithmetic): for a grid of G >= 2
    finite knots per row, extending by [m] and extending the result by
    [n] gives the grid that one extension by [m + n] gives. *)
Theorem extend_grid_compose (grid : list (list fl)) m n S G :
  has_shape2 grid S G -> 2 <= G -> all_finite2 grid ->
  exists g1 g2,
    extend_grid grid m = Some g1 /\
    extend_grid g1 n = Some g2 /\
    extend_grid grid (m + n) = Some g2.
Proof.
  intros Hg HG Hfin.
  pose proof (extend_rows_shape m Hg) as Hs1.
  eexists; eexists; split; [apply (extend_grid_rows m Hg); lia | split].
  - rewrite (extend_grid_rows n Hs1 ltac:(lia)), map_map; reflexivity.
  - rewrite (extend_grid_rows (m + n) Hg ltac:(lia)); f_equal.
    apply map_ext_in; intros row Hin.
    destruct Hg as [_ Hrows]; rewrite Forall_forall in Hrows.
    unfold all_finite2 in Hfin; rewrite Forall_forall in Hfin.
    rewrite (knot_step_extend_row m (Hrows row Hin) HG (Hfin row Hin)).
    symmetry; apply extend_row_add.
Qed.

(** The knots 0, 1, 5 extended by 1 and then by 2, and by 3 at once. *)
Lemma extend_grid_compose_witness :
  exists g1 g2,
    extend_grid grid_015 1 = Some g1 /\
    extend_grid g1 2 = Some g2 /\
    extend_grid grid_015 (1 + 2) = Some g2.
Proof.
  apply (@extend_grid_compose grid_015 1 2 1 3
           (shape_1_3 (qf 0 1) (qf 1 1) (qf 5 1)));
    [lia | repeat constructor].
Defined.

(** X15.  [extend_grid] and [B_batch] together: on a grid of G >= 2
    strictly increasing knots per row that is extended by the order [k],
    there are G + k - 1 basis values per sample and spline, and for
    every sample between the first and the last of the original knots
    (first included, last excluded) they add up to exactly 1. *)
Theorem B_batch_extended_partition_of_unity fmax x grid k extend dev B I G :
  has_shape2 x B I -> has_shape2 grid I G ->
  Forall (fun row => increasing row = true) grid ->
  2 <= G ->
  exists extended value,
    extend_grid grid k = Some extended /\
    B_batch fmax x extended k extend dev = Some value /\
    has_shape3 value B I (G + k - 1) /\
    forall b i, b < B -> i < I ->
      fge (get2 x b i) (get2 grid i 0) = true ->
      flt (get2 x b i) (get2 grid i (G - 1)) = true ->
      fsum (nth i (nth b value []) []) = Finite 1%Qc.
Proof.
  intros Hx Hg Hinc HG.
  pose proof (extend_rows_shape k Hg) as Hs.
  pose proof (@extend_rows_increasing grid k I G Hg HG Hinc) as Hinc'.
  set (extended := map (fun row => extend_row k (knot_step G row) row) grid) in *.
  destruct (B_batch_value fmax k extend dev Hx Hs) as [Hv Hshape].
  exists extended; eexists; split; [apply (extend_grid_rows k Hg); lia|].
  split; [exact Hv|].
  split; [replace (G + k - 1) with (G + 2 * k - k - 1) by lia; exact Hshape|].
  intros b i Hb Hi Hlo Hhi.
  destruct (increasing_row Hs Hinc' Hi) as [Hrow Hlen].
  rewrite lift_rows_nth;
    [| destruct Hx; lia | destruct Hs; lia
     | eapply has_shape2_rows_ok; eassumption].
  assert (Elo : nth k (nth i extended []) NaN = get2 grid i 0).
  { replace k with (k + 0) at 1 by lia.
    change (get2 extended i (k + 0) = get2 grid i 0).
    unfold extended; rewrite (extend_grid_entry k _ Hg Hi).
    apply extend_row_middle; rewrite (has_shape2_row Hg Hi); lia. }
  assert (Ehi : nth (length (nth i extended []) - k - 1) (nth i extended []) NaN =
                get2 grid i (G - 1)).
  { rewrite Hlen; replace (G + 2 * k - k - 1) with (k + (G - 1)) by lia.
    change (get2 extended i (k + (G - 1)) = get2 grid i (G - 1)).
    unfold extended; rewrite (extend_grid_entry k _ Hg Hi).
    apply extend_row_middle; rewrite (has_shape2_row Hg Hi); lia. }
  destruct (nondecreasing_nth (nth i extended [])
              (@increasing_nondecreasing _ Hrow)
              (i := k) (j := length (nth i extended []) - k - 1))
    as (a & a' & Ea & Ea' & _); [rewrite Hlen; lia | rewrite Hlen; lia|].
  rewrite <- Elo in Hlo; rewrite <- Ehi in Hhi.
  rewrite Ea in Hlo; pose proof Hhi as Hhi'; rewrite Ea' in Hhi'.
  destruct (@inside_finite (get2 x b i) a a' Hlo Hhi') as (q & Eq & _).
  rewrite Eq in *.
  apply basis_row_sum_one;
    [exact Hrow | rewrite Hlen; lia | rewrite Ea; exact Hlo | exact Hhi].
Qed.

(** The knots 0, 1, 2 extended by the order 2, and the sample 1/2. *)
Lemma B_batch_extended_partition_of_unity_witness :
  exists extended value,
    extend_grid grid_012 2 = Some extended /\
    B_batch float32_max x_half extended 2 true cpu = Some value /\
    has_shape3 value 1 1 (3 + 2 - 1) /\
    fsum (nth 0 (nth 0 value []) []) = Finite 1%Qc.
Proof.
  destruct (@B_batch_extended_partition_of_unity float32_max x_half grid_012
              2 true cpu 1 1 3)
    as (extended & value & He & Hv & Hs & Hsum);
    [apply shape_1_1 | apply shape_1_3 | repeat constructor | lia |].
  exists extended, value; split; [exact He|].
  split; [exact Hv|]. split; [exact Hs|].
  apply Hsum; [lia | lia | reflexivity | reflexivity].
Defined.

(* ================================================================== *)
(** ** Further properties of the CurveEvaluator *)

Lemma einsum_mismatch (a b : list (list (list fl))) N I O C C' :
  has_shape3 a N I C -> has_shape3 b I O C' ->
  1 <= N -> 1 <= I -> 1 <= O ->
  C <> C' -> C <> 1 -> C' <> 1 ->
  einsum_ijk_jlk_ijl a b = None.
Proof.
  intros [Hn Ha] [Hi Hb] HN HI HO Hne H1 H2.
  destruct a as [|a_0 a]; [simpl in Hn; lia|].
  inversion Ha as [|? ? [Hai Hais] _]; subst.
  destruct b as [|b_0 b]; [simpl in HI; lia|].
  inversion Hb as [|? ? [Hbo Hbos] _]; subst.
  destruct a_0 as [|a_00 a_0]; [discriminate|].
  inversion Hais as [|? ? Ha00 _]; subst.
  destruct b_0 as [|b_00 b_0]; [simpl in HO; lia|].
  inversion Hbos as [|? ? Hb00 _]; subst.
  unfold einsum_ijk_jlk_ijl.
  apply sequence_None; left.
  rewrite bcast_same by exact Hai.
  apply sequence_None; left.
  change (sequence
            (map (fun b_jl => p <- bcast1 fmul a_00 b_jl ;; Some (fsum p))
                 (b_00 :: b_0)) = None).
  apply sequence_None; left.
  unfold bcast1; rewrite bcast_mismatch by assumption; reflexivity.
Qed.



Lemma fsum_scale (row : list fl) v :
  all_finite1 row ->
  exists s, fsum row = Finite s /\
            fsum (map (fun a => fmul a (Finite v)) row) = Finite (s * v)%Qc.
Proof.
  induction 1 as [|a row Ha _ (s & Es & Ev)].
  - exists 0%Qc; split; [reflexivity | simpl; f_equal; ring].
  - destruct a as [q| | |]; try discriminate.
    exists (q + s)%Qc; rewrite fsum_cons, Es; split; [reflexivity|].
    rewrite map_cons, fsum_cons, Ev; simpl; f_equal; ring.
Qed.

(** X18.  Splines reproduce constants (exact arithmetic).  At an order
    k >= 1, on strictly increasing knots, when all coefficients are the
    same finite number [v], the curve value at a sample in
    [t_k, t_{G-k-1}) is [v]. *)
Theorem coef2curve_constant fmax x_eval grid coef k dev N I G O v :
  has_shape2 x_eval N I -> has_shape2 grid I G ->
  has_shape3 coef I O (G - k - 1) ->
  Forall (fun row => increasing row = true) grid ->
  1 <= k -> 2 * k + 2 <= G ->
  (forall i o c, i < I -> o < O -> c < G - k - 1 ->
     get3 coef i o c = Finite v) ->
  exists y,
    coef2curve fmax x_eval grid coef k dev = Some y /\
    forall n i o, n < N -> i < I -> o < O ->
      fge (get2 x_eval n i) (get2 grid i k) = true ->
      flt (get2 x_eval n i) (get2 grid i (G - k - 1)) = true ->
      get3 y n i o = Finite v.
Proof.
  intros Hx Hg Hc Hinc Hk HG Hv.
  destruct (B_batch_value fmax k true cpu Hx Hg) as [HB HBs].
  eexists; split.
  { apply (@coef2curve_value fmax x_eval grid coef k dev N I G O Hx Hg Hc Hk). }
  intros n i o Hn Hi Ho Hlo Hhi.
  rewrite (contract_entry HBs Hc Hn Hi Ho).
  set (B := lift_rows (fun v row => basis_row fmax v row k) x_eval grid) in *.
  set (row := nth i (nth n B []) []).
  assert (Hrl : length row = G - k - 1) by apply (has_shape3_row HBs Hn Hi).
  assert (Hrf : all_finite1 row)
    by (apply (all_finite3_row HBs (lift_rows_finite fmax x_eval grid k) Hn Hi)).
  transitivity (fsum (map (fun a => fmul a (Finite v)) row)).
  { rewrite <- (tabulate row NaN Hrl) at 1; rewrite map_map.
    f_equal; apply map_ext_in; intros c Hin; apply in_seq in Hin.
    rewrite (Hv i o c Hi Ho ltac:(lia)); reflexivity. }
  destruct (fsum_scale v Hrf) as (s & Es & ->).
  assert (E1 : fsum row = Finite 1%Qc).
  { destruct (increasing_row Hg Hinc Hi) as [Hrow Hlen].
    unfold row, B; rewrite lift_rows_nth;
      [| destruct Hx; lia | destruct Hg; lia
       | eapply has_shape2_rows_ok; eassumption].
    unfold get2 in Hlo, Hhi; fold (get2 x_eval n i) in Hlo, Hhi.
    destruct (nondecreasing_nth (nth i grid [])
                (@increasing_nondecreasing _ Hrow)
                (i := k) (j := G - k - 1)) as (a & a' & Ea & Ea' & _);
      [lia | rewrite Hlen; lia|].
    rewrite Ea in Hlo; rewrite Ea' in Hhi.
    destruct (@inside_finite (get2 x_eval n i) a a' Hlo Hhi) as (q & Eq & _).
    rewrite Eq in *.
    apply basis_row_sum_one;
      [exact Hrow | rewrite Hlen; exact HG | rewrite Ea; exact Hlo
      | rewrite Hlen, Ea'; exact Hhi]. }
  rewrite Es in E1.
  assert (Hs : s = 1%Qc) by exact (f_equal fq E1).
  rewrite Hs; f_equal; ring.
Qed.

(** The knots 0, 1, 2, 3 at order 1, both coefficients 7, the sample
    3/2. *)
Lemma coef2curve_constant_witness :
  exists y,
    coef2curve float32_max [[qf 3 2]] [[qf 0 1; qf 1 1; qf 2 1; qf 3 1]]
      [[[qf 7 1; qf 7 1]]] 1 cpu = Some y /\
    get3 y 0 0 0 = qf 7 1.
Proof.
  destruct (@coef2curve_constant float32_max [[qf 3 2]]
              [[qf 0 1; qf 1 1; qf 2 1; qf 3 1]] [[[qf 7 1; qf 7 1]]] 1 cpu
              1 1 4 1 (Q2Qc (7 # 1)))
    as (y & Hy & Hc);
    [apply shape_1_1 | split; [reflexivity | repeat constructor]
    | split; [reflexivity | repeat constructor]
    | repeat constructor | lia | lia
    | intros [|i] [|o] [|[|c]] Hi Ho Hc; try lia; reflexivity |].
  exists y; split; [exact Hy|].
  apply Hc; [lia | lia | lia | reflexivity | reflexivity].
Defined.

Lemma fsum_linear (b u w : nat -> fl) al be (l : list nat) :
  (forall c, In c l ->
     is_finite (b c) = true /\ is_finite (u c) = true /\ is_finite (w c) = true) ->
  exists s1 s2,
    fsum (map (fun c => fmul (b c) (u c)) l) = Finite s1 /\
    fsum (map (fun c => fmul (b c) (w c)) l) = Finite s2 /\
    fsum (map (fun c => fmul (b c)
                          (fadd (fmul (Finite al) (u c)) (fmul (Finite be) (w c))))
              l) = Finite (al * s1 + be * s2)%Qc.
Proof.
  induction l as [|c l IH]; intros H.
  - exists 0%Qc, 0%Qc; repeat split; simpl; f_equal; ring.
  - destruct IH as (s1 & s2 & E1 & E2 & E12);
      [intros c' Hc'; apply H; right; exact Hc'|].
    destruct (H c (or_introl eq_refl)) as (Hb & Hu & Hw).
    destruct (b c) as [qb| | |] eqn:Eb; try discriminate.
    destruct (u c) as [qu| | |] eqn:Eu; try discriminate.
    destruct (w c) as [qw| | |] eqn:Ew; try discriminate.
    exists (qb * qu + s1)%Qc, (qb * qw + s2)%Qc.
    rewrite !map_cons, !fsum_cons, E1, E2, E12, Eb, Eu, Ew.
    repeat split; simpl; f_equal; ring.
Qed.

Lemma get3_finite (t : list (list (list fl))) a b c i j l :
  has_shape3 t a b c -> all_finite3 t -> i < a -> j < b -> l < c ->
  is_finite (get3 t i j l) = true.
Proof.
  intros Ht Hfin Hi Hj Hl; unfold get3.
  rewrite (all_finite1_nth (all_finite3_row Ht Hfin Hi Hj));
    [reflexivity | rewrite (has_shape3_row Ht Hi Hj); exact Hl].
Qed.

(** X19.  [coef2curve] is linear in the coefficients (exact
    arithmetic): at an order k >= 1, for finite coefficient tensors [c1]
    and [c2], the curve of [al * c1 + be * c2] is [al] times the curve
    of [c1] plus [be] times the curve of [c2], at every sample, spline
    and output channel. *)
Theorem coef2curve_linear fmax x_eval grid (c1 c2 c12 : list (list (list fl)))
    k dev N I G O al be :
  has_shape2 x_eval N I -> has_shape2 grid I G ->
  has_shape3 c1 I O (G - k - 1) -> has_shape3 c2 I O (G - k - 1) ->
  has_shape3 c12 I O (G - k - 1) -> 1 <= k ->
  all_finite3 c1 -> all_finite3 c2 ->
  (forall i o c, i < I -> o < O -> c < G - k - 1 ->
     get3 c12 i o c =
     fadd (fmul (Finite al) (get3 c1 i o c)) (fmul (Finite be) (get3 c2 i o c))) ->
  exists y1 y2 y12,
    coef2curve fmax x_eval grid c1 k dev = Some y1 /\
    coef2curve fmax x_eval grid c2 k dev = Some y2 /\
    coef2curve fmax x_eval grid c12 k dev = Some y12 /\
    forall n i o, n < N -> i < I -> o < O ->
      get3 y12 n i o =
      fadd (fmul (Finite al) (get3 y1 n i o)) (fmul (Finite be) (get3 y2 n i o)).
Proof.
  intros Hx Hg H1 H2 H12 Hk Hf1 Hf2 Hsum.
  destruct (B_batch_value fmax k true cpu Hx Hg) as [HB HBs].
  pose proof (@coef2curve_value fmax x_eval grid c1 k dev N I G O Hx Hg H1 Hk) as E1.
  pose proof (@coef2curve_value fmax x_eval grid c2 k dev N I G O Hx Hg H2 Hk) as E2.
  pose proof (@coef2curve_value fmax x_eval grid c12 k dev N I G O Hx Hg H12 Hk) as E12.
  set (B := lift_rows (fun v row => basis_row fmax v row k) x_eval grid) in *.
  exists (contract B c1), (contract B c2), (contract B c12).
  split; [exact E1|]. split; [exact E2|]. split; [exact E12|].
  clear E1 E2 E12.
  intros n i o Hn Hi Ho.
  rewrite (contract_entry HBs H1 Hn Hi Ho), (contract_entry HBs H2 Hn Hi Ho),
    (contract_entry HBs H12 Hn Hi Ho).
  destruct (@fsum_linear (get3 B n i) (get3 c1 i o) (get3 c2 i o) al be
              (seq 0 (G - k - 1))) as (s1 & s2 & E1 & E2 & E12).
  { intros c Hc; apply in_seq in Hc; repeat split.
    - apply (get3_finite HBs (lift_rows_finite fmax x_eval grid k) Hn Hi); lia.
    - apply (get3_finite H1 Hf1 Hi Ho); lia.
    - apply (get3_finite H2 Hf2 Hi Ho); lia. }
  rewrite E1, E2.
  change (fadd (fmul (Finite al) (Finite s1)) (fmul (Finite be) (Finite s2)))
    with (Finite (al * s1 + be * s2)%Qc).
  rewrite <- E12.
  f_equal; apply map_ext_in; intros c Hc; apply in_seq in Hc.
  rewrite (Hsum i o c Hi Ho ltac:(lia)); reflexivity.
Qed.

(** The knots 0, 1, 2, 3 at order 1 and the sample 3/2:
    2 * (1, 2) + 3 * (4, 5) = (14, 19). *)
Lemma coef2curve_linear_witness :
  exists y1 y2 y12,
    coef2curve float32_max [[qf 3 2]] [[qf 0 1; qf 1 1; qf 2 1; qf 3 1]]
      [[[qf 1 1; qf 2 1]]] 1 cpu = Some y1 /\
    coef2curve float32_max [[qf 3 2]] [[qf 0 1; qf 1 1; qf 2 1; qf 3 1]]
      [[[qf 4 1; qf 5 1]]] 1 cpu = Some y2 /\
    coef2curve float32_max [[qf 3 2]] [[qf 0 1; qf 1 1; qf 2 1; qf 3 1]]
      [[[qf 14 1; qf 19 1]]] 1 cpu = Some y12 /\
    get3 y12 0 0 0 =
    fadd (fmul (qf 2 1) (get3 y1 0 0 0)) (fmul (qf 3 1) (get3 y2 0 0 0)).
Proof.
  destruct (@coef2curve_linear float32_max [[qf 3 2]]
              [[qf 0 1; qf 1 1; qf 2 1; qf 3 1]]
              [[[qf 1 1; qf 2 1]]] [[[qf 4 1; qf 5 1]]] [[[qf 14 1; qf 19 1]]]
              1 cpu 1 1 4 1 (Q2Qc (2 # 1)) (Q2Qc (3 # 1)))
    as (y1 & y2 & y12 & E1 & E2 & E12 & Hl);
    [apply shape_1_1 | split; [reflexivity | repeat constructor]
    | split; [reflexivity | repeat constructor]
    | split; [reflexivity | repeat constructor]
    | split; [reflexivity | repeat constructor]
    | lia | repeat constructor | repeat constructor
    | intros [|i] [|o] [|[|c]] Hi Ho Hc; try lia;
      unfold get3, qf; simpl; f_equal; apply Qc_is_canon; reflexivity |].
  exists y1, y2, y12; repeat (split; [assumption|]).
  apply Hl; lia.
Defined.

(* ================================================================== *)
(** ** Further properties of the CoefficientSolver *)

(** X20.  What [curve2coef] returns, for any solver.  For an order
    k >= 1, samples of shape (N, I), curve values of shape (N, I, O) and
    a grid of shape (I, G), G >= k + 1: when the solver, called with the
    driver [gels], answers [X i o] for every pair of a spline [i] and an
    output channel [o], on the matrix of the basis values of spline [i]
    at the N samples and the column of the curve values y[.][i][o], then
    the coefficients of the pair are column 0 of [X i o].  The driver is
    [gels] on every device: the comparison of [mat.device] with the
    string ['cpu'] is never true. *)
Theorem curve2coef_systems fmax lstsq x_eval (y_eval : list (list (list fl)))
    grid k dev N I G O (X : nat -> nat -> list (list fl)) :
  has_shape2 x_eval N I -> has_shape3 y_eval N I O -> has_shape2 grid I G ->
  1 <= N -> 1 <= I -> 1 <= k -> k + 1 <= G ->
  exists B,
    B_batch fmax x_eval grid k true cpu = Some B /\
    ((forall i o, i < I -> o < O ->
        lstsq gels (design_matrix B i) (target_column y_eval i o) = Some (X i o)) ->
     curve2coef fmax lstsq x_eval y_eval grid k dev =
     Some (map (fun i =>
                  map (fun o => map (fun r => nth 0 r NaN) (X i o)) (seq 0 O))
               (seq 0 I))).
Proof.
  intros Hx Hy Hg HN HI Hk HG.
  destruct (B_batch_value fmax k true cpu Hx Hg) as [HB _].
  eexists; split; [exact HB|].
  intros Hsolve.
  apply (@curve2coef_answers fmax lstsq x_eval y_eval grid k dev N I G O X
           Hx Hy Hg HN HI Hk HG Hsolve).
Qed.

(** One spline with one basis function, of value 1/2 at the sample 1/2:
    the curve value 3/2 gives the coefficient 3, on the device cuda as
    on the cpu. *)
Lemma curve2coef_systems_witness :
  curve2coef float32_max solve_one_unknown x_half [[[qf 3 2]]] grid_012 1 cuda =
  Some [[[qf 3 1]]].
Proof.
  destruct (@curve2coef_systems float32_max solve_one_unknown x_half
              [[[qf 3 2]]] grid_012 1 cuda 1 1 3 1 (fun _ _ => [[qf 3 1]])
              (shape_1_1 (qf 1 2))
              ltac:(split; [reflexivity | repeat constructor])
              (shape_1_3 (qf 0 1) (qf 1 1) (qf 2 1))
              ltac:(lia) ltac:(lia) ltac:(lia) ltac:(lia))
    as (B & HB & H).
  vm_compute in HB; inversion HB; subst B; clear HB.
  rewrite H; [reflexivity|].
  intros i o Hi Ho.
  assert (i = 0) by lia; assert (o = 0) by lia; subst i o.
  vm_compute; apply (f_equal (fun q => Some [[Finite q]])).
  apply Qc_is_canon; reflexivity.
Defined.

(** X21.  At an order k >= 1, when the solver, called with the driver
    [gels], raises for one pair of a spline and an output channel,
    [curve2coef] raises: no partial result is returned. *)
Theorem curve2coef_solver_error fmax lstsq x_eval (y_eval : list (list (list fl)))
    grid k dev N I G O i o :
  has_shape2 x_eval N I -> has_shape3 y_eval N I O -> has_shape2 grid I G ->
  1 <= N -> 1 <= I -> 1 <= k -> k + 1 <= G -> i < I -> o < O ->
  exists B,
    B_batch fmax x_eval grid k true cpu = Some B /\
    (lstsq gels (design_matrix B i) (target_column y_eval i o) = None ->
     curve2coef fmax lstsq x_eval y_eval grid k dev = None).
Proof.
  intros Hx Hy Hg HN HI Hk HG Hi Ho.
  destruct (B_batch_value fmax k true cpu Hx Hg) as [HB _].
  eexists; split; [exact HB|].
  intros Hfail.
  rewrite (curve2coef_pairs_float fmax lstsq dev Hx Hy Hg HN HI Hk HG).
  rewrite sequence_None; [reflexivity|].
  apply in_map_iff; exists i; split; [|apply in_seq; lia].
  apply sequence_None, in_map_iff; exists o; split; [exact Hfail|].
  apply in_seq; lia.
Qed.

(** The curve value NaN has no finite coefficient: [solve_one_unknown]
    gives no answer. *)
Lemma curve2coef_solver_error_witness :
  curve2coef float32_max solve_one_unknown x_half [[[NaN]]] grid_012 1 cpu = None.
Proof.
  destruct (@curve2coef_solver_error float32_max solve_one_unknown x_half
              [[[NaN]]] grid_012 1 cpu 1 1 3 1 0 0
              (shape_1_1 (qf 1 2))
              ltac:(split; [reflexivity | repeat constructor])
              (shape_1_3 (qf 0 1) (qf 1 1) (qf 2 1))
              ltac:(lia) ltac:(lia) ltac:(lia) ltac:(lia) ltac:(lia) ltac:(lia))
    as (B & HB & H).
  vm_compute in HB; inversion HB; subst B; clear HB.
  apply H; reflexivity.
Defined.
